(** * bullet-hell-game: a shallow embedding of the simulation core

    The development follows the TypeScript sources:
    - [types.ts]   : the records [Vector2D], [GameObject], [Player], [Enemy],
                     [Bullet], the enumeration [GameState] and [GameConfig];
    - [utils.ts]   : [distance], [normalize], [checkCollision], [clamp],
                     [getDirectionVector], [getHighScores], [saveHighScore];
    - [game.ts]    : the class [Game] and its methods;
    - [audio.ts]   : the module-level state of the audio module and its
                     functions, in the module [Audio].

    Numbers.  A JavaScript [number] that measures a length, a speed or a time
    is modelled by a real number ([R]): arithmetic is exact, there is no NaN and
    no rounding.  Numbers that count things (lives, score) are integers
    ([Z]); loop bounds taken from the configuration are naturals.  What is
    read from the storage is any JSON value ([JsonValue]).

    Objects.  [Enemy] objects are shared: the array [enemies] and the field
    [targetEnemy] of a player bullet hold references to the same object.  The
    model keeps every allocated [Enemy] in a store ([heap]) addressed by its
    allocation index; the array and the bullets hold such indices. *)

From Stdlib Require Import Reals Lra Lia ZArith List Bool String Ascii DecimalString.
From Stdlib Require QArith_base.
From stdpp Require Import base option list sorting gmap strings.
Import ListNotations.

Local Open Scope R_scope.

(** ** Comparisons on numbers, as booleans *)

Definition Rltb (a b : R) : bool := if Rlt_dec a b then true else false.
Definition Rleb (a b : R) : bool := if Rle_dec a b then true else false.
Definition Reqb (a b : R) : bool := if Req_dec_T a b then true else false.

(** ** types.ts *)

Record Vector2D := mkVector2D { x : R; y : R }.

Record GameObject := mkGameObject {
  position : Vector2D;
  velocity : Vector2D;
  radius : R
}.

(** [Player extends GameObject]. *)
Record Player := mkPlayer {
  Player_obj :> GameObject;
  lives : Z;
  lastShotTime : R
}.

(** [Enemy extends GameObject]. *)
Record Enemy := mkEnemy {
  Enemy_obj :> GameObject;
  Enemy_lastShotTime : R;
  targetChangeTime : R;
  targetPosition : Vector2D
}.

(** A reference to an [Enemy] object: its index in the store. *)
Definition EnemyRef := nat.

(** [Bullet extends GameObject]; [targetEnemy?: Enemy] is a reference. *)
Record Bullet := mkBullet {
  Bullet_obj :> GameObject;
  isPlayerBullet : bool;
  targetEnemy : option EnemyRef
}.

Inductive GameState := playing | paused | gameOver | gameClear.

Definition GameState_eqb (a b : GameState) : bool :=
  match a, b with
  | playing, playing | paused, paused
  | gameOver, gameOver | gameClear, gameClear => true
  | _, _ => false
  end.

Record GameConfig := mkGameConfig {
  canvasWidth : R;
  canvasHeight : R;
  playerSpeed : R;
  playerShootCooldown : R;
  playerBulletSpeed : R;
  playerLives : Z;
  enemyCount : nat;
  enemySpeed : R;
  enemyShootInterval : R;
  enemyBulletSpeed : R;
  enemyBulletDirections : nat;
  scorePerEnemy : Z;
  soundVolume : R
}.

(** ** utils.ts: geometry *)

Definition distance (a b : Vector2D) : R :=
  let dx := x a - x b in
  let dy := y a - y b in
  sqrt (dx * dx + dy * dy).

Definition normalize (v : Vector2D) : Vector2D :=
  let len := sqrt (x v * x v + y v * y v) in
  if Reqb len 0 then mkVector2D 0 0
  else mkVector2D (x v / len) (y v / len).

Definition checkCollision (a b : GameObject) : bool :=
  Rltb (distance (position a) (position b)) (radius a + radius b).

Definition clamp (value min max : R) : R := Rmax min (Rmin max value).

Definition getDirectionVector (from to : Vector2D) : Vector2D :=
  normalize (mkVector2D (x to - x from) (y to - y from)).

(** ** utils.ts: high-score persistence

    [localStorage] maps keys to strings.  [JSON.parse], [JSON.stringify]
    and [Array.prototype.sort] are host functions and stay parameters of the
    model; [JSON_parse s = None] stands for the [SyntaxError] that
    [JSON.parse] throws.

    A value read by [JSON.parse] is any JSON value: the entries of an array
    are values again, not only numbers, and a number need not be an integer.
    A number is kept as a fraction; the integer [n] is [JInt n]. *)

#[local] Set Warnings "-register-all".

Inductive JsonValue :=
| JNull
| JBool (b : bool)
| JNumber (n : QArith_base.Q)
| JString (s : string)
| JObject (members : list (string * JsonValue))
| JArray (elems : list JsonValue).

#[local] Set Warnings "register-all".

Definition JInt (n : Z) : JsonValue := JNumber (QArith_base.inject_Z n).

Definition Array_isArray (v : JsonValue) : bool :=
  match v with JArray _ => true | _ => false end.

Definition HIGH_SCORES_KEY : string := "bulletHellHighScores".
Definition MUTE_STATE_KEY : string := "bulletHellMuteState".

(** The comparator [(a, b) => b - a] on integers: [a] is placed before [b]
    when [b - a <= 0]. *)
Definition descending (a b : Z) : Prop := (b <= a)%Z.

#[global] Instance descending_dec a b : Decision (descending a b).
Proof. unfold descending. apply _. Defined.

(** The literal [[0, 0, 0]]. *)
Definition noScores : list JsonValue := [JInt 0; JInt 0; JInt 0].

Section Storage.

Variable JSON_parse : string -> option JsonValue.
Variable JSON_stringify : JsonValue -> string.

(** [Array_sort scores] is the array after [scores.sort((a, b) => b - a)].
    On entries that are not numbers the comparator yields [NaN] and the
    language leaves the resulting order to the implementation, so the
    function is not fixed here. *)
Variable Array_sort : list JsonValue -> list JsonValue.

(** A stored array is returned as it is, whatever its entries and its
    length. *)
Definition getHighScores (localStorage : gmap string string) : list JsonValue :=
  match localStorage !! HIGH_SCORES_KEY with
  | None => noScores
  | Some stored =>
      if String.eqb stored "" then noScores
      else
        match JSON_parse stored with
        | Some scores =>
            match scores with
            | JArray elems => elems
            | _ => noScores
            end
        | None => noScores
        end
  end.

(** [scores.push(newScore); scores.sort((a, b) => b - a);
    scores.slice(0, 3)], then the write to [localStorage].  The result is
    the returned array paired with the new storage. *)
Definition saveHighScore (newScore : Z) (localStorage : gmap string string)
  : list JsonValue * gmap string string :=
  let scores := getHighScores localStorage ++ [JInt newScore] in
  let scores := Array_sort scores in
  let topThree := take 3 scores in
  (topThree, <[HIGH_SCORES_KEY := JSON_stringify (JArray topThree)]> localStorage).

End Storage.

(** What the language fixes of [sort((a, b) => b - a)]: an array of
    integers comes out in descending order. *)
Definition sortsIntegers (Array_sort : list JsonValue -> list JsonValue) : Prop :=
  forall l : list Z, Array_sort (map JInt l) = map JInt (merge_sort descending l).

(** [getMuteState] and [saveMuteState]: the flag is stored as the text
    [true] or [false]; anything else, or nothing, reads as unmuted. *)
Definition getMuteState (localStorage : gmap string string) : bool :=
  match localStorage !! MUTE_STATE_KEY with
  | Some stored => String.eqb stored "true"
  | None => false
  end.

Definition saveMuteState (muted : bool) (localStorage : gmap string string)
  : gmap string string :=
  <[MUTE_STATE_KEY := if muted then "true"%string else "false"%string]> localStorage.

(** A concrete writer, reader and sort for the texts that the game itself
    stores.  [text_of_value] writes [null], [true], [false], integers and
    arrays of these the way [JSON.stringify] does (a fraction, a string or
    an object is written as [null]); [value_of_text] reads the literals
    [null], [true], [false], integer literals and arrays of integer
    literals, and reports any other text as unparsable; [sort_of_values]
    sorts an array of integers in descending order and leaves any other
    array as it is. *)

Definition text_of_int (n : Z) : string := NilZero.string_of_int (Z.to_int n).

Fixpoint text_of_value (v : JsonValue) : string :=
  match v with
  | JNull => "null"
  | JBool true => "true"
  | JBool false => "false"
  | JNumber n =>
      if Pos.eqb (QArith_base.Qden n) 1 then text_of_int (QArith_base.Qnum n)
      else "null"
  | JString _ => "null"
  | JObject _ => "null"
  | JArray elems =>
      ("[" ++ String.concat "," (map text_of_value elems) ++ "]")%string
  end.

Fixpoint split_on (c : ascii) (s : string) : list string :=
  match s with
  | EmptyString => [EmptyString]
  | String a s' =>
      if Ascii.eqb a c then EmptyString :: split_on c s'
      else
        match split_on c s' with
        | [] => [String a EmptyString]
        | w :: ws => String a w :: ws
        end
  end.

(** An integer literal is read only in the form in which [text_of_int]
    writes it (no sign for zero, no leading zero). *)
Definition int_of_text (s : string) : option Z :=
  match NilZero.int_of_string s with
  | Some d =>
      let n := Z.of_int d in
      if String.eqb (text_of_int n) s then Some n else None
  | None => None
  end.

Fixpoint all_some {A} (l : list (option A)) : option (list A) :=
  match l with
  | [] => Some []
  | None :: _ => None
  | Some a :: l' => option_map (cons a) (all_some l')
  end.

Fixpoint drop_last (s : string) : option (string * ascii) :=
  match s with
  | EmptyString => None
  | String a EmptyString => Some (EmptyString, a)
  | String a s' =>
      match drop_last s' with
      | Some (body, c) => Some (String a body, c)
      | None => None
      end
  end.

Definition value_of_text (s : string) : option JsonValue :=
  if String.eqb s "null" then Some JNull
  else if String.eqb s "true" then Some (JBool true)
  else if String.eqb s "false" then Some (JBool false)
  else
    match s with
    | String "[" rest =>
        match drop_last rest with
        | Some (body, "]"%char) =>
            if String.eqb body "" then Some (JArray [])
            else
              option_map (fun l => JArray (map JInt l))
                (all_some (map int_of_text (split_on "," body)))
        | _ => None
        end
    | _ => option_map JInt (int_of_text s)
    end.

(** The integer that a value is, if it is one. *)
Definition integer_of_value (v : JsonValue) : option Z :=
  match v with
  | JNumber n =>
      if Pos.eqb (QArith_base.Qden n) 1 then Some (QArith_base.Qnum n) else None
  | _ => None
  end.

Definition sort_of_values (l : list JsonValue) : list JsonValue :=
  match all_some (map integer_of_value l) with
  | Some scores => map JInt (merge_sort descending scores)
  | None => l
  end.

(** ** game.ts: the state of a session

    The first nine fields are the fields of [class Game] ([canvas] and [ctx]
    carry no game data and are left out).  The others are the part of the
    host that the methods reach through globals: the store of [Enemy]
    objects, [localStorage], how many times [Date.now()], [Math.random()] and
    [requestAnimationFrame] have been called, and the calls made to the
    audio module, the DOM and the canvas (most recent first). *)

Inductive Overlay :=
| PauseOverlay (score : Z)
| GameOverOverlay (score : Z)
| GameClearOverlay (score livesBonus finalScore : Z).

Inductive HostCall :=
| Audio_playShoot
| Audio_playHit
| Audio_playDamage
| Audio_playGameOver
| Audio_playGameClear
| Audio_startBGM
| Audio_stopBGM
| Dom_updateScore (score : Z)
| Dom_updateHighScoresDisplay (scores : list JsonValue)
| Dom_showOverlay (content : Overlay) (showContinue : bool)
| Dom_hideOverlay
| Canvas_render (lives : Z) (elapsedMs : R)
| Window_requestAnimationFrame
| Window_cancelAnimationFrame (id : nat).

Record Game := mkGame {
  player : Player;
  enemies : list EnemyRef;
  playerBullets : list Bullet;
  enemyBullets : list Bullet;
  state : GameState;
  score : Z;
  keys : gset string;
  animationId : nat;
  gameStartTime : R;
  heap : list Enemy;
  localStorage : gmap string string;
  clock : nat;
  entropy : nat;
  frameRequests : nat;
  calls : list HostCall
}.

Definition set_player (v : Player) (g : Game) : Game :=
  mkGame v (enemies g) (playerBullets g) (enemyBullets g) (state g) (score g)
    (keys g) (animationId g) (gameStartTime g) (heap g) (localStorage g)
    (clock g) (entropy g) (frameRequests g) (calls g).

Definition set_enemies (v : list EnemyRef) (g : Game) : Game :=
  mkGame (player g) v (playerBullets g) (enemyBullets g) (state g) (score g)
    (keys g) (animationId g) (gameStartTime g) (heap g) (localStorage g)
    (clock g) (entropy g) (frameRequests g) (calls g).

Definition set_playerBullets (v : list Bullet) (g : Game) : Game :=
  mkGame (player g) (enemies g) v (enemyBullets g) (state g) (score g)
    (keys g) (animationId g) (gameStartTime g) (heap g) (localStorage g)
    (clock g) (entropy g) (frameRequests g) (calls g).

Definition set_enemyBullets (v : list Bullet) (g : Game) : Game :=
  mkGame (player g) (enemies g) (playerBullets g) v (state g) (score g)
    (keys g) (animationId g) (gameStartTime g) (heap g) (localStorage g)
    (clock g) (entropy g) (frameRequests g) (calls g).

Definition set_state (v : GameState) (g : Game) : Game :=
  mkGame (player g) (enemies g) (playerBullets g) (enemyBullets g) v (score g)
    (keys g) (animationId g) (gameStartTime g) (heap g) (localStorage g)
    (clock g) (entropy g) (frameRequests g) (calls g).

Definition set_score (v : Z) (g : Game) : Game :=
  mkGame (player g) (enemies g) (playerBullets g) (enemyBullets g) (state g) v
    (keys g) (animationId g) (gameStartTime g) (heap g) (localStorage g)
    (clock g) (entropy g) (frameRequests g) (calls g).

Definition set_keys (v : gset string) (g : Game) : Game :=
  mkGame (player g) (enemies g) (playerBullets g) (enemyBullets g) (state g)
    (score g) v (animationId g) (gameStartTime g) (heap g) (localStorage g)
    (clock g) (entropy g) (frameRequests g) (calls g).

Definition set_animationId (v : nat) (g : Game) : Game :=
  mkGame (player g) (enemies g) (playerBullets g) (enemyBullets g) (state g)
    (score g) (keys g) v (gameStartTime g) (heap g) (localStorage g)
    (clock g) (entropy g) (frameRequests g) (calls g).

Definition set_gameStartTime (v : R) (g : Game) : Game :=
  mkGame (player g) (enemies g) (playerBullets g) (enemyBullets g) (state g)
    (score g) (keys g) (animationId g) v (heap g) (localStorage g)
    (clock g) (entropy g) (frameRequests g) (calls g).

Definition set_heap (v : list Enemy) (g : Game) : Game :=
  mkGame (player g) (enemies g) (playerBullets g) (enemyBullets g) (state g)
    (score g) (keys g) (animationId g) (gameStartTime g) v (localStorage g)
    (clock g) (entropy g) (frameRequests g) (calls g).

Definition set_localStorage (v : gmap string string) (g : Game) : Game :=
  mkGame (player g) (enemies g) (playerBullets g) (enemyBullets g) (state g)
    (score g) (keys g) (animationId g) (gameStartTime g) (heap g) v
    (clock g) (entropy g) (frameRequests g) (calls g).

Definition set_clock (v : nat) (g : Game) : Game :=
  mkGame (player g) (enemies g) (playerBullets g) (enemyBullets g) (state g)
    (score g) (keys g) (animationId g) (gameStartTime g) (heap g)
    (localStorage g) v (entropy g) (frameRequests g) (calls g).

Definition set_entropy (v : nat) (g : Game) : Game :=
  mkGame (player g) (enemies g) (playerBullets g) (enemyBullets g) (state g)
    (score g) (keys g) (animationId g) (gameStartTime g) (heap g)
    (localStorage g) (clock g) v (frameRequests g) (calls g).

Definition set_frameRequests (v : nat) (g : Game) : Game :=
  mkGame (player g) (enemies g) (playerBullets g) (enemyBullets g) (state g)
    (score g) (keys g) (animationId g) (gameStartTime g) (heap g)
    (localStorage g) (clock g) (entropy g) v (calls g).

Definition set_calls (v : list HostCall) (g : Game) : Game :=
  mkGame (player g) (enemies g) (playerBullets g) (enemyBullets g) (state g)
    (score g) (keys g) (animationId g) (gameStartTime g) (heap g)
    (localStorage g) (clock g) (entropy g) (frameRequests g) v.

(** A call to a collaborator is recorded and has no other effect: the
    audio module, the DOM and the canvas are taken to be in place, and their
    functions to return. *)
Definition call (c : HostCall) (g : Game) : Game := set_calls (c :: calls g) g.

(** Field updates of the objects. *)
Definition GameObject_at (p : Vector2D) (o : GameObject) : GameObject :=
  mkGameObject p (velocity o) (radius o).

Definition GameObject_moving (v : Vector2D) (o : GameObject) : GameObject :=
  mkGameObject (position o) v (radius o).

Definition Player_on (o : GameObject) (p : Player) : Player :=
  mkPlayer o (lives p) (lastShotTime p).

Definition Enemy_on (o : GameObject) (e : Enemy) : Enemy :=
  mkEnemy o (Enemy_lastShotTime e) (targetChangeTime e) (targetPosition e).

Definition Bullet_on (o : GameObject) (b : Bullet) : Bullet :=
  mkBullet o (isPlayerBullet b) (targetEnemy b).

(** Reading an [Enemy] through a reference.  Every reference held by the
    game was returned by an allocation, so the default is never read. *)
Definition noEnemy : Enemy :=
  mkEnemy (mkGameObject (mkVector2D 0 0) (mkVector2D 0 0) 0) 0 0 (mkVector2D 0 0).

Definition deref (h : list Enemy) (r : EnemyRef) : Enemy := nth r h noEnemy.

(** ** game.ts: the methods of [class Game]

    [CONFIG] is the configuration object of [config.ts].  [Date_now n] is the
    value of the [n]-th call of [Date.now()] and [Math_random n] the value of
    the [n]-th call of [Math.random()]. *)

Section GameMethods.

Variable CONFIG : GameConfig.
Variable Date_now : nat -> R.
Variable Math_random : nat -> R.
Variable JSON_parse : string -> option JsonValue.
Variable JSON_stringify : JsonValue -> string.
Variable Array_sort : list JsonValue -> list JsonValue.

Definition Date_now_call (g : Game) : R * Game :=
  (Date_now (clock g), set_clock (S (clock g)) g).

Definition Math_random_call (g : Game) : R * Game :=
  (Math_random (entropy g), set_entropy (S (entropy g)) g).

Definition createPlayer : Player :=
  mkPlayer
    (mkGameObject
       (mkVector2D (canvasWidth CONFIG / 2) (canvasHeight CONFIG - 50))
       (mkVector2D 0 0)
       8)
    (playerLives CONFIG)
    0.

(** One iteration of the loop of [initEnemies], for the index [i]. *)
Definition initEnemy (i : nat) (g : Game) : Game :=
  let ex := canvasWidth CONFIG / (INR (enemyCount CONFIG) + 1) * (INR i + 1) in
  let (random, g) := Math_random_call g in
  let ey := 100 + random * 100 in
  let (now, g) := Date_now_call g in
  let enemy :=
    mkEnemy (mkGameObject (mkVector2D ex ey) (mkVector2D 0 0) 15)
            0 now (mkVector2D ex ey) in
  let ref := length (heap g) in
  let g := set_heap (heap g ++ [enemy]) g in
  set_enemies (enemies g ++ [ref]) g.

Definition initEnemies (g : Game) : Game :=
  let g := set_enemies [] g in
  fold_left (fun g i => initEnemy i g) (seq 0 (enemyCount CONFIG)) g.

Definition showOverlay (content : Overlay) (showContinue : bool) (g : Game) : Game :=
  call (Dom_showOverlay content showContinue) g.

Definition hideOverlay (g : Game) : Game := call Dom_hideOverlay g.

Definition updateScore (g : Game) : Game := call (Dom_updateScore (score g)) g.

(** [updateHighScoresDisplay] of [utils.ts] writes [score.toString()] of
    the entries it is given into the page.  The call is recorded with its
    argument; that every entry shown has a [toString] (any JSON value but
    [null] has one) is part of what is taken of the DOM. *)
Definition updateHighScoresDisplay (scores : list JsonValue) (g : Game) : Game :=
  call (Dom_updateHighScoresDisplay scores) g.

Definition getClosestEnemy (g : Game) : option EnemyRef :=
  match enemies g with
  | [] => None
  | first :: rest =>
      Some
        (fold_left
           (fun closest enemy =>
              let distToEnemy :=
                distance (position (player g)) (position (deref (heap g) enemy)) in
              let distToClosest :=
                distance (position (player g)) (position (deref (heap g) closest)) in
              if Rltb distToEnemy distToClosest then enemy else closest)
           rest first)
  end.

Definition shootPlayerBullet (g : Game) : Game :=
  let (now, g) := Date_now_call g in
  if Rltb (now - lastShotTime (player g)) (playerShootCooldown CONFIG) then g
  else
    match getClosestEnemy g with
    | None => g
    | Some closestEnemy =>
        let g := set_player (mkPlayer (player g) (lives (player g)) now) g in
        let bullet :=
          mkBullet
            (mkGameObject
               (mkVector2D (x (position (player g))) (y (position (player g))))
               (mkVector2D 0 0)
               4)
            true
            (Some closestEnemy) in
        let g := set_playerBullets (playerBullets g ++ [bullet]) g in
        call Audio_playShoot g
    end.

Definition has (key : string) (g : Game) : bool := bool_decide (key ∈ keys g).

Definition updatePlayer (g : Game) : Game :=
  let dx := 0 in
  let dy := 0 in
  let dy := if has "w" g then dy - 1 else dy in
  let dy := if has "s" g then dy + 1 else dy in
  let dx := if has "a" g then dx - 1 else dx in
  let dx := if has "d" g then dx + 1 else dx in
  let '(dx, dy) :=
    if negb (Reqb dx 0) || negb (Reqb dy 0) then
      let length := sqrt (dx * dx + dy * dy) in
      (dx / length * playerSpeed CONFIG, dy / length * playerSpeed CONFIG)
    else (dx, dy) in
  let p := player g in
  let px :=
    clamp (x (position p) + dx) (radius p) (canvasWidth CONFIG - radius p) in
  let p := Player_on (GameObject_at (mkVector2D px (y (position p))) p) p in
  let py :=
    clamp (y (position p) + dy) (radius p) (canvasHeight CONFIG - radius p) in
  let p := Player_on (GameObject_at (mkVector2D (x (position p)) py) p) p in
  let g := set_player p g in
  if has "m" g then shootPlayerBullet g else g.

(** The body of the loop of [shootEnemyBullets], for the index [i]. *)
Definition enemyBullet (enemy : Enemy) (i : nat) : Bullet :=
  let angleStep := PI * 2 / INR (enemyBulletDirections CONFIG) in
  let angle := angleStep * INR i in
  let vx := cos angle * enemyBulletSpeed CONFIG in
  let vy := sin angle * enemyBulletSpeed CONFIG in
  mkBullet
    (mkGameObject
       (mkVector2D (x (position enemy)) (y (position enemy)))
       (mkVector2D vx vy)
       3)
    false
    None.

Definition shootEnemyBullets (enemy : Enemy) (g : Game) : Game :=
  fold_left
    (fun g i => set_enemyBullets (enemyBullets g ++ [enemyBullet enemy i]) g)
    (seq 0 (enemyBulletDirections CONFIG))
    g.

(** The body of the loop of [updateEnemies], for the object [ref]. *)
Definition updateEnemy (now shootInterval : R) (ref : EnemyRef) (g : Game) : Game :=
  let enemy := deref (heap g) ref in
  let '(enemy, g) :=
    if Rltb 2000 (now - targetChangeTime enemy) then
      let (random, g) := Math_random_call g in
      let '(target, g) :=
        if Rltb random (1 / 2) then
          let (r1, g) := Math_random_call g in
          let (r2, g) := Math_random_call g in
          (mkVector2D (r1 * canvasWidth CONFIG) (r2 * (canvasHeight CONFIG / 2)), g)
        else
          let (r1, g) := Math_random_call g in
          (mkVector2D (x (position (player g)) + (r1 - 1 / 2) * 200)
                      (y (position (player g)) - 200), g) in
      (mkEnemy enemy (Enemy_lastShotTime enemy) now target, g)
    else (enemy, g) in
  let direction := getDirectionVector (position enemy) (targetPosition enemy) in
  let enemy :=
    Enemy_on
      (GameObject_moving
         (mkVector2D (x direction * enemySpeed CONFIG)
                     (y direction * enemySpeed CONFIG))
         enemy)
      enemy in
  let ex :=
    clamp (x (position enemy) + x (velocity enemy))
          (radius enemy) (canvasWidth CONFIG - radius enemy) in
  let enemy := Enemy_on (GameObject_at (mkVector2D ex (y (position enemy))) enemy) enemy in
  let ey :=
    clamp (y (position enemy) + y (velocity enemy))
          (radius enemy) (canvasHeight CONFIG / 2) in
  let enemy := Enemy_on (GameObject_at (mkVector2D (x (position enemy)) ey) enemy) enemy in
  if Rltb shootInterval (now - Enemy_lastShotTime enemy) then
    let g := shootEnemyBullets enemy g in
    let enemy := mkEnemy enemy now (targetChangeTime enemy) (targetPosition enemy) in
    set_heap (<[ref := enemy]> (heap g)) g
  else set_heap (<[ref := enemy]> (heap g)) g.

Definition updateEnemies (g : Game) : Game :=
  let (now, g) := Date_now_call g in
  let elapsedTime := now - gameStartTime g in
  let shootInterval :=
    if Rleb 10000 elapsedTime then enemyShootInterval CONFIG / 2
    else enemyShootInterval CONFIG in
  fold_left (fun g enemy => updateEnemy now shootInterval enemy g) (enemies g) g.

(** The body of the first loop of [updateBullets]. *)
Definition updatePlayerBullet (h : list Enemy) (bullet : Bullet) : Bullet :=
  let bullet :=
    match targetEnemy bullet with
    | Some target =>
        let direction :=
          getDirectionVector (position bullet) (position (deref h target)) in
        Bullet_on
          (GameObject_moving
             (mkVector2D (x direction * playerBulletSpeed CONFIG)
                         (y direction * playerBulletSpeed CONFIG))
             bullet)
          bullet
    | None => bullet
    end in
  Bullet_on
    (GameObject_at
       (mkVector2D (x (position bullet) + x (velocity bullet))
                   (y (position bullet) + y (velocity bullet)))
       bullet)
    bullet.

(** The body of the second loop of [updateBullets]. *)
Definition updateEnemyBullet (bullet : Bullet) : Bullet :=
  Bullet_on
    (GameObject_at
       (mkVector2D (x (position bullet) + x (velocity bullet))
                   (y (position bullet) + y (velocity bullet)))
       bullet)
    bullet.

Definition playerBulletOnScreen (bullet : Bullet) : bool :=
  Rleb 0 (x (position bullet)) &&
  Rleb (x (position bullet)) (canvasWidth CONFIG) &&
  Rleb 0 (y (position bullet)) &&
  Rleb (y (position bullet)) (canvasHeight CONFIG).

Definition enemyBulletOnScreen (bullet : Bullet) : bool :=
  Rleb (-10) (x (position bullet)) &&
  Rleb (x (position bullet)) (canvasWidth CONFIG + 10) &&
  Rleb (-10) (y (position bullet)) &&
  Rleb (y (position bullet)) (canvasHeight CONFIG + 10).

Definition updateBullets (g : Game) : Game :=
  let g := set_playerBullets (map (updatePlayerBullet (heap g)) (playerBullets g)) g in
  let g := set_enemyBullets (map updateEnemyBullet (enemyBullets g)) g in
  let g := set_playerBullets (List.filter playerBulletOnScreen (playerBullets g)) g in
  set_enemyBullets (List.filter enemyBulletOnScreen (enemyBullets g)) g.

(** The method [gameOver]; the plain name is the state [gameOver]. *)
Definition gameOver_ (g : Game) : Game :=
  let g := set_state gameOver g in
  let g := call Audio_stopBGM g in
  let g := call Audio_playGameOver g in
  let (highScores, storage) :=
    saveHighScore JSON_parse JSON_stringify Array_sort (score g) (localStorage g) in
  let g := set_localStorage storage g in
  let g := updateHighScoresDisplay highScores g in
  showOverlay (GameOverOverlay (score g)) false g.

(** The method [gameClear]; the plain name is the state [gameClear]. *)
Definition gameClear_ (g : Game) : Game :=
  let g := set_state gameClear g in
  let g := call Audio_stopBGM g in
  let g := call Audio_playGameClear g in
  let livesBonus := (lives (player g) * 100)%Z in
  let finalScore := (score g + livesBonus)%Z in
  let (highScores, storage) :=
    saveHighScore JSON_parse JSON_stringify Array_sort finalScore (localStorage g) in
  let g := set_localStorage storage g in
  let g := updateHighScoresDisplay highScores g in
  showOverlay (GameClearOverlay (score g) livesBonus finalScore) false g.

(** Inner loop of the first block of [checkCollisions]: the enemies at the
    indices [n-1], ..., [0] are tested against the bullet at index [i]. *)
Fixpoint bulletVsEnemies (i : nat) (bullet : Bullet) (n : nat) (g : Game) : Game :=
  match n with
  | O => g
  | S j =>
      match enemies g !! j with
      | Some enemy =>
          if checkCollision bullet (deref (heap g) enemy) then
            let g := set_playerBullets (delete i (playerBullets g)) g in
            let g := set_enemies (delete j (enemies g)) g in
            let g := set_score (score g + scorePerEnemy CONFIG)%Z g in
            let g := updateScore g in
            call Audio_playHit g
          else bulletVsEnemies i bullet j g
      | None => g
      end
  end.

(** Outer loop of the first block: the indices [n-1], ..., [0]. *)
Fixpoint playerBulletsVsEnemies (n : nat) (g : Game) : Game :=
  match n with
  | O => g
  | S i =>
      let g :=
        match playerBullets g !! i with
        | Some bullet => bulletVsEnemies i bullet (length (enemies g)) g
        | None => g
        end in
      playerBulletsVsEnemies i g
  end.

(** Inner loop of the second block (mutual cancellation of bullets). *)
Fixpoint bulletVsEnemyBullets (i : nat) (playerBullet : Bullet) (n : nat) (g : Game)
  : Game :=
  match n with
  | O => g
  | S j =>
      match enemyBullets g !! j with
      | Some other =>
          if checkCollision playerBullet (Bullet_obj other) then
            let g := set_playerBullets (delete i (playerBullets g)) g in
            set_enemyBullets (delete j (enemyBullets g)) g
          else bulletVsEnemyBullets i playerBullet j g
      | None => g
      end
  end.

Fixpoint playerBulletsVsEnemyBullets (n : nat) (g : Game) : Game :=
  match n with
  | O => g
  | S i =>
      let g :=
        match playerBullets g !! i with
        | Some playerBullet =>
            bulletVsEnemyBullets i playerBullet (length (enemyBullets g)) g
        | None => g
        end in
      playerBulletsVsEnemyBullets i g
  end.

(** The body of the third loop, for the enemy bullet at index [i]. *)
Definition enemyBulletVsPlayer (i : nat) (g : Game) : Game :=
  match enemyBullets g !! i with
  | Some bullet =>
      if checkCollision (Bullet_obj bullet) (player g) then
        let g := set_enemyBullets (delete i (enemyBullets g)) g in
        let g :=
          set_player
            (mkPlayer (player g) (lives (player g) - 1)%Z (lastShotTime (player g)))
            g in
        let g := call Audio_playDamage g in
        if (lives (player g) <=? 0)%Z then gameOver_ g else g
      else g
  | None => g
  end.

(** The third loop: the indices [n-1], ..., [0]. *)
Fixpoint enemyBulletsVsPlayer (n : nat) (g : Game) : Game :=
  match n with
  | O => g
  | S i => enemyBulletsVsPlayer i (enemyBulletVsPlayer i g)
  end.

(** The closing test of [checkCollisions]. *)
Definition roundClearCheck (g : Game) : Game :=
  if bool_decide (enemies g = []) && GameState_eqb (state g) playing
  then gameClear_ g
  else g.

(** The three loops of [checkCollisions], in order. *)
Definition resolveHits (g : Game) : Game :=
  let g := playerBulletsVsEnemies (length (playerBullets g)) g in
  let g := playerBulletsVsEnemyBullets (length (playerBullets g)) g in
  enemyBulletsVsPlayer (length (enemyBullets g)) g.

Definition checkCollisions (g : Game) : Game :=
  let g := resolveHits g in
  roundClearCheck g.

Definition render (g : Game) : Game :=
  let (now, g) := Date_now_call g in
  call (Canvas_render (lives (player g)) (now - gameStartTime g)) g.

Definition requestAnimationFrame (g : Game) : Game :=
  let g := set_frameRequests (S (frameRequests g)) g in
  let g := call Window_requestAnimationFrame g in
  set_animationId (frameRequests g) g.

(** [gameLoop]: one frame.  The next frame is only requested here; it is
    the host that calls [gameLoop] again. *)
Definition gameLoop (g : Game) : Game :=
  if negb (GameState_eqb (state g) playing) then g
  else
    let g := updatePlayer g in
    let g := updateEnemies g in
    let g := updateBullets g in
    let g := checkCollisions g in
    let g := render g in
    requestAnimationFrame g.

Definition togglePause (g : Game) : Game :=
  match state g with
  | playing =>
      let g := set_state paused g in
      showOverlay (PauseOverlay (score g)) true g
  | paused =>
      let g := set_state playing g in
      let g := hideOverlay g in
      gameLoop g
  | _ => g
  end.

Definition restart (g : Game) : Game :=
  let g := set_player createPlayer g in
  let g := initEnemies g in
  let g := set_playerBullets [] g in
  let g := set_enemyBullets [] g in
  let g := set_score 0%Z g in
  let (now, g) := Date_now_call g in
  let g := set_gameStartTime now g in
  let g := updateScore g in
  let g := set_state playing g in
  let g := hideOverlay g in
  let g := call Audio_startBGM g in
  gameLoop g.

Definition start (g : Game) : Game :=
  let g := updateHighScoresDisplay noScores g in
  let (highScores, storage) :=
    saveHighScore JSON_parse JSON_stringify Array_sort 0%Z (localStorage g) in
  let g := set_localStorage storage g in
  let g := updateHighScoresDisplay highScores g in
  let (now, g) := Date_now_call g in
  let g := set_gameStartTime now g in
  let g := call Audio_startBGM g in
  gameLoop g.

Definition stop (g : Game) : Game :=
  call (Window_cancelAnimationFrame (animationId g)) g.

(** [new Game(canvas)]: the field initialisers, then the constructor body,
    in a host whose storage is [storage]. *)
Definition new_Game (storage : gmap string string) : Game :=
  let g :=
    mkGame createPlayer [] [] [] playing 0%Z ∅ O 0 [] storage O O O [] in
  initEnemies g.

(** What the host can do to a session once it is constructed: run a
    requested frame, deliver a key event (the key already in lower case),
    or deliver a click on one of the three buttons that
    [setupEventListeners] wires to a method of the game.  The fourth
    button, mute, calls the audio module only.  Whether a frame has been
    requested is not tracked: a frame may run at any time, which can only add
    sessions to the reachable ones. *)
Inductive Event :=
| Frame
| KeyDown (key : string)
| KeyUp (key : string)
| ClickPause
| ClickContinue
| ClickRestart.

Definition handle (e : Event) (g : Game) : Game :=
  match e with
  | Frame => gameLoop g
  | KeyDown key => set_keys ({[key]} ∪ keys g) g
  | KeyUp key => set_keys (keys g ∖ {[key]}) g
  | ClickPause => togglePause g
  | ClickContinue => togglePause g
  | ClickRestart => restart g
  end.

Definition run (events : list Event) (g : Game) : Game :=
  fold_left (fun g e => handle e g) events g.

(** The states a session can be in: [main.ts] constructs the game, calls
    [start], and from then on the host delivers events. *)
Definition reachable (g : Game) : Prop :=
  exists storage events, g = run events (start (new_Game storage)).

End GameMethods.

(** ** Scenarios

    Concrete configurations and states on which the properties below are
    exercised. *)

(** A configuration with positive values throughout: an 800 x 600 canvas,
    three lives, three enemies, volleys of eight bullets. *)
Definition sampleConfig : GameConfig :=
  mkGameConfig 800 600 5 200 8 3 3 2 1000 3 8 100 (3 / 10).

Definition sampleEnemy : Enemy :=
  mkEnemy (mkGameObject (mkVector2D 200 150) (mkVector2D 0 0) 15)
          0 0 (mkVector2D 200 150).

(** A session with a player and nothing else. *)
Definition emptyGame : Game :=
  mkGame (createPlayer sampleConfig) [] [] [] playing 0%Z ∅ O 0 [] ∅ O O O [].

(** Two enemies were allocated; the first one (reference [0]) has been
    destroyed and is no longer in [enemies], the second is alive.  A player
    bullet fired at the first one is still in flight: it passed the place
    where its target was, moving up at the configured speed. *)
Definition staleBullet : Bullet :=
  mkBullet (mkGameObject (mkVector2D 100 97) (mkVector2D 0 (-8)) 4)
           true (Some O).

Definition staleTargetGame : Game :=
  mkGame (createPlayer sampleConfig) [1%nat] [staleBullet] [] playing 100%Z ∅
         O 0
         [mkEnemy (mkGameObject (mkVector2D 100 100) (mkVector2D 0 0) 15)
                  0 0 (mkVector2D 100 100);
          mkEnemy (mkGameObject (mkVector2D 400 150) (mkVector2D 0 0) 15)
                  0 0 (mkVector2D 400 150)]
         ∅ O O O [].

(** ** Standing

    The standing of a session: its state, the lives left and the storage. *)
Definition standing (g : Game) : GameState * Z * gmap string string :=
  (state g, lives (player g), localStorage g).

(** [g'] has the state, the player, the storage and the store of [g]. *)
Definition untouched (g g' : Game) : Prop :=
  state g' = state g /\ player g' = player g /\
  localStorage g' = localStorage g /\ heap g' = heap g.

(** ** Counting hits *)

(** The test of the third loop of [checkCollisions]. *)
Definition overlapsPlayer (p : Player) (b : Bullet) : bool := checkCollision b p.

(** How many of the bullets [bs] overlap the player [p]. *)
Definition hitsOn (p : Player) (bs : list Bullet) : nat :=
  length (List.filter (overlapsPlayer p) bs).

(** Whether the third loop calls [gameOver]: it does so after a hit that
    leaves no life, and the last hit leaves the fewest. *)
Definition livesExhausted (p : Player) (hits : nat) : bool :=
  (0 <? hits)%nat && (lives p - Z.of_nat hits <=? 0)%Z.

(** The first two loops of [checkCollisions]: what is left once the player
    bullets have met the enemies and the enemy bullets. *)
Definition bulletsResolved (cfg : GameConfig) (g : Game) : Game :=
  let g := playerBulletsVsEnemies cfg (length (playerBullets g)) g in
  playerBulletsVsEnemyBullets (length (playerBullets g)) g.

(** The player has one life left and two enemy bullets overlap it (their
    centres are 3 and 5 away, the radii add up to 11); one enemy is alive. *)
Definition crowdedGame : Game :=
  mkGame
    (mkPlayer (mkGameObject (mkVector2D 400 550) (mkVector2D 0 0) 8) 1%Z 0)
    [O] []
    [mkBullet (mkGameObject (mkVector2D 403 550) (mkVector2D 3 0) 3) false None;
     mkBullet (mkGameObject (mkVector2D 405 550) (mkVector2D 0 3) 3) false None]
    playing 0%Z ∅ O 0
    [mkEnemy (mkGameObject (mkVector2D 400 150) (mkVector2D 0 0) 15)
             0 0 (mkVector2D 400 150)]
    ∅ O O O [].

(** The state is not final, or the player has a life left. *)
Definition aliveWhilePlayable (g : Game) : Prop :=
  state g = gameOver \/ state g = gameClear \/ (1 <= lives (player g))%Z.

(** A session right after [main.ts] has constructed and started the game,
    with an empty storage, a clock that reads 5000 and a random source that
    returns one half. *)
Definition sampleSession : Game :=
  start sampleConfig (fun _ => 5000) (fun _ => 1 / 2) value_of_text text_of_value sort_of_values
    (new_Game sampleConfig (fun _ => 5000) (fun _ => 1 / 2) ∅).

(** One enemy is left and a player bullet has reached it (the centres are
    10 apart, the radii add up to 19); the player has all three lives and
    200 points, and no enemy bullet is in flight. *)
Definition lastEnemyGame : Game :=
  mkGame
    (createPlayer sampleConfig)
    [O]
    [mkBullet (mkGameObject (mkVector2D 210 150) (mkVector2D 8 0) 4) true (Some O)]
    []
    playing 200%Z ∅ O 0
    [mkEnemy (mkGameObject (mkVector2D 200 150) (mkVector2D 0 0) 15)
             0 0 (mkVector2D 200 150)]
    ∅ O O O [].

(** One enemy that sits on its target and is not due to shoot, no bullet in
    flight, no key held. *)
Definition quietGame : Game :=
  mkGame
    (createPlayer sampleConfig) [O] [] [] playing 0%Z ∅ O 0
    [mkEnemy (mkGameObject (mkVector2D 200 150) (mkVector2D 0 0) 15)
             0 0 (mkVector2D 200 150)]
    ∅ O O O [].

(** Two enemies, no bullet in flight, no key held.  The first enemy is below
    the middle of the canvas, outside the region in which [updateEnemies]
    keeps the enemies; the second is inside it and on its way to a target
    100 to its right. *)
Definition chaseGame : Game :=
  mkGame
    (createPlayer sampleConfig) [O; 1%nat] [] [] playing 0%Z ∅ O 0
    [mkEnemy (mkGameObject (mkVector2D 200 500) (mkVector2D 0 0) 15)
             0 0 (mkVector2D 200 500);
     mkEnemy (mkGameObject (mkVector2D 400 150) (mkVector2D 0 0) 15)
             0 0 (mkVector2D 500 150)]
    ∅ O O O [].

(** How many of the scores [l] exceed [score]. *)
Definition scoresAbove (score : Z) (l : list Z) : nat :=
  length (filter (fun s => (score < s)%Z) l).


(** A small playfield with positive values throughout: a 100 x 100 canvas,
    one life, one enemy, volleys of two bullets of speed 1.  The enemy is
    confined to the upper half, whose lower edge is the row in which the
    player starts. *)
Definition tightConfig : GameConfig :=
  mkGameConfig 100 100 5 200 8 1 1 2 1000 1 2 100 (3 / 10).

(** The session that [main.ts] constructs and starts on that playfield,
    with an empty storage, a clock that reads 5000 and a random source that
    returns one half. *)
Definition tightSession : Game :=
  start tightConfig (fun _ => 5000) (fun _ => 1 / 2) value_of_text text_of_value sort_of_values
    (new_Game tightConfig (fun _ => 5000) (fun _ => 1 / 2) ∅).

(** That session as it enters its first frame, whatever [start] left in the
    storage and in the record of calls: the enemy was placed at [(50, 150)]
    and has never shot. *)
Definition tightReady (storage : gmap string string) (shown : list HostCall) : Game :=
  mkGame (createPlayer tightConfig) [O] [] [] playing 0%Z ∅ O 5000
    [mkEnemy (mkGameObject (mkVector2D (100 / (1 + 1) * (0 + 1)) (100 + 1 / 2 * 100))
                           (mkVector2D 0 0) 15)
             0 5000
             (mkVector2D (100 / (1 + 1) * (0 + 1)) (100 + 1 / 2 * 100))]
    storage 2%nat 1%nat O shown.

(** The same session once the enemy has been moved into the upper half,
    which puts it on the player, and has fired its first volley. *)
Definition tightVolley (storage : gmap string string) (shown : list HostCall) : Game :=
  mkGame (createPlayer tightConfig) [O] []
    [mkBullet (mkGameObject (mkVector2D 50 50) (mkVector2D 1 0) 3) false None;
     mkBullet (mkGameObject (mkVector2D 50 50) (mkVector2D (-1) 0) 3) false None]
    playing 0%Z ∅ O 5000
    [mkEnemy (mkGameObject (mkVector2D 50 50) (mkVector2D 0 0) 15)
             5000 5000 (mkVector2D 50 150)]
    storage 3%nat 1%nat O shown.

(** What [start] leaves in an empty storage. *)
Definition zeroScores : gmap string string := {[ HIGH_SCORES_KEY := "[0,0,0]"%string ]}.

(** That session once its first frame is over: both bullets have hit the
    player, and the game is over. *)
Definition tightOver (shown : list HostCall) : Game :=
  mkGame (mkPlayer (createPlayer tightConfig) (-1)%Z 0) [O] [] [] gameOver 0%Z ∅
    1%nat 5000
    [mkEnemy (mkGameObject (mkVector2D 50 50) (mkVector2D 0 0) 15)
             5000 5000 (mkVector2D 50 150)]
    zeroScores 4%nat 1%nat 1%nat shown.

(** The fire key is pressed and the game restarted. *)
Definition lastStand : Game :=
  run tightConfig (fun _ => 5000) (fun _ => 1 / 2)
    value_of_text text_of_value sort_of_values
    [KeyDown "m"; ClickRestart] tightSession.

(** That session as it enters the frame that [restart] runs: a new player,
    a new enemy (reference [1]) placed at [(50, 150)], the fire key held. *)
Definition lastStandReady (shown : list HostCall) : Game :=
  mkGame (createPlayer tightConfig) [1%nat] [] [] playing 0%Z ({["m"]} ∪ ∅)
    1%nat 5000
    [mkEnemy (mkGameObject (mkVector2D 50 50) (mkVector2D 0 0) 15)
             5000 5000 (mkVector2D 50 150);
     mkEnemy (mkGameObject (mkVector2D (100 / (1 + 1) * (0 + 1)) (100 + 1 / 2 * 100))
                           (mkVector2D 0 0) 15)
             0 5000
             (mkVector2D (100 / (1 + 1) * (0 + 1)) (100 + 1 / 2 * 100))]
    zeroScores 6%nat 2%nat 1%nat shown.

(** That session as it enters collision resolution in this frame.  The
    player has fired at the enemy; the enemy has been moved into the upper
    half, which puts it on the player, and has fired its first volley; the
    player bullet, on its target already, has not moved, and the two enemy
    bullets have moved one step. *)
Definition lastStandFlying (shown : list HostCall) : Game :=
  mkGame (mkPlayer (createPlayer tightConfig) 1%Z 5000) [1%nat]
    [mkBullet (mkGameObject (mkVector2D 50 50) (mkVector2D 0 0) 4) true (Some 1%nat)]
    [mkBullet (mkGameObject (mkVector2D (50 + 1) (50 + 0)) (mkVector2D 1 0) 3) false None;
     mkBullet (mkGameObject (mkVector2D (50 + -1) (50 + 0)) (mkVector2D (-1) 0) 3) false None]
    playing 0%Z ({["m"]} ∪ ∅) 1%nat 5000
    [mkEnemy (mkGameObject (mkVector2D 50 50) (mkVector2D 0 0) 15)
             5000 5000 (mkVector2D 50 150);
     mkEnemy (mkGameObject (mkVector2D 50 50) (mkVector2D 0 0) 15)
             5000 5000 (mkVector2D 50 150)]
    zeroScores 8%nat 2%nat 1%nat shown.

(** That session when the frame is over: the player bullet has destroyed
    the enemy, both enemy bullets have hit the player, and the game is over.
    The score of 100 has been saved twice, once by each call of
    [gameOver]. *)
Definition lastStandOver (shown : list HostCall) : Game :=
  mkGame (mkPlayer (createPlayer tightConfig) (-1)%Z 5000) [] [] [] gameOver 100%Z
    ({["m"]} ∪ ∅) 2%nat 5000
    [mkEnemy (mkGameObject (mkVector2D 50 50) (mkVector2D 0 0) 15)
             5000 5000 (mkVector2D 50 150);
     mkEnemy (mkGameObject (mkVector2D 50 50) (mkVector2D 0 0) 15)
             5000 5000 (mkVector2D 50 150)]
    {[ HIGH_SCORES_KEY := "[100,100,0]"%string ]} 9%nat 2%nat 2%nat shown.

(** [sampleConfig] with two enemies instead of three. *)
Definition duoConfig : GameConfig :=
  mkGameConfig 800 600 5 200 8 3 2 2 1000 3 8 100 (3 / 10).

(** ** audio.ts: sound effects, background music and the mute flag

    The module keeps its state in module-level variables; they are the first
    six fields of [State].  The remaining fields are the part of the host
    that the module acts on: [localStorage], the interval timers that are
    active (each with the [currentIndex] of its callback), and a record of
    the operations performed on the host, most recent first.

    Every operation of the Web Audio API and of ZzFX may throw: whether the
    [n]-th of them does is given by [throws n].  The timer functions of
    [window], [console.warn] and [localStorage] do not throw.  An object
    that the host returns is modelled by a handle, a number that no object
    returned before has. *)

Module Audio.

Inductive Op :=
| New_AudioContext
| ZZFX_buildSamples (key : string)
| createBuffer (key : string)
| getChannelData
| channelData_set
| createBufferSource
| set_source_buffer (buffer : nat)
| source_connect
| source_start
| createOscillator
| createGain
| set_gain_value
| oscillator_connect
| gain_connect
| set_oscillator_type
| set_frequency_value (hz : Z)
| oscillator_start
| oscillator_stop
| oscillator_disconnect
| gain_disconnect
| window_setInterval (id : nat)
| clearInterval (id : nat)
| console_warn (message : string).

Record State := mkState {
  isMutedState : bool;
  audioContext : option nat;
  bgmOscillator : option nat;
  bgmGain : option nat;
  bgmInterval : option nat;
  cachedSounds : option (gmap string nat);
  storage : gmap string string;
  timers : gmap nat nat;
  performed : list Op;
  count : nat
}.

Definition set_isMutedState (v : bool) (s : State) : State :=
  mkState v (audioContext s) (bgmOscillator s) (bgmGain s) (bgmInterval s)
    (cachedSounds s) (storage s) (timers s) (performed s) (count s).

Definition set_audioContext (v : option nat) (s : State) : State :=
  mkState (isMutedState s) v (bgmOscillator s) (bgmGain s) (bgmInterval s)
    (cachedSounds s) (storage s) (timers s) (performed s) (count s).

Definition set_bgmOscillator (v : option nat) (s : State) : State :=
  mkState (isMutedState s) (audioContext s) v (bgmGain s) (bgmInterval s)
    (cachedSounds s) (storage s) (timers s) (performed s) (count s).

Definition set_bgmGain (v : option nat) (s : State) : State :=
  mkState (isMutedState s) (audioContext s) (bgmOscillator s) v (bgmInterval s)
    (cachedSounds s) (storage s) (timers s) (performed s) (count s).

Definition set_bgmInterval (v : option nat) (s : State) : State :=
  mkState (isMutedState s) (audioContext s) (bgmOscillator s) (bgmGain s) v
    (cachedSounds s) (storage s) (timers s) (performed s) (count s).

Definition set_cachedSounds (v : option (gmap string nat)) (s : State) : State :=
  mkState (isMutedState s) (audioContext s) (bgmOscillator s) (bgmGain s)
    (bgmInterval s) v (storage s) (timers s) (performed s) (count s).

Definition set_storage (v : gmap string string) (s : State) : State :=
  mkState (isMutedState s) (audioContext s) (bgmOscillator s) (bgmGain s)
    (bgmInterval s) (cachedSounds s) v (timers s) (performed s) (count s).

Definition set_timers (v : gmap nat nat) (s : State) : State :=
  mkState (isMutedState s) (audioContext s) (bgmOscillator s) (bgmGain s)
    (bgmInterval s) (cachedSounds s) (storage s) v (performed s) (count s).

(** One more operation on the host. *)
Definition record (op : Op) (s : State) : State :=
  mkState (isMutedState s) (audioContext s) (bgmOscillator s) (bgmGain s)
    (bgmInterval s) (cachedSounds s) (storage s) (timers s)
    (op :: performed s) (S (count s)).

(** A computation that changes the state and either returns a value or
    throws ([None]). *)
Definition M (A : Type) : Type := State -> option A * State.

#[global] Instance M_ret : MRet M := fun A (a : A) s => (Some a, s).

#[global] Instance M_bind : MBind M := fun A B (f : A -> M B) (m : M A) s =>
  match m s with
  | (Some a, s') => f a s'
  | (None, s') => (None, s')
  end.

Definition get : M State := fun s => (Some s, s).

Definition modify (f : State -> State) : M unit := fun s => (Some tt, f s).

(** [try { body } catch { handler }]. *)
Definition try_catch (body handler : M unit) : M unit := fun s =>
  match body s with
  | (Some a, s') => (Some a, s')
  | (None, s') => handler s'
  end.

(** The state in which a computation leaves the module. *)
Definition exec {A} (m : M A) (s : State) : State := snd (m s).

Section Module_audio.

Variable throws : nat -> bool.

(** An operation that may throw; it returns the handle of its result. *)
Definition host (op : Op) : M nat := fun s =>
  if throws (count s) then (None, record op s) else (Some (count s), record op s).

(** An operation that does not throw. *)
Definition safe (op : Op) : M unit := fun s => (Some tt, record op s).

Definition isMuted (s : State) : bool := isMutedState s.

Definition stopBGM : M unit :=
  try_catch
    (s ← get;
     match bgmInterval s with
     | Some id =>
         safe (clearInterval id);;
         modify (fun s => set_timers (delete id (timers s)) s);;
         modify (set_bgmInterval None)
     | None => mret tt
     end;;
     s ← get;
     match bgmOscillator s with
     | Some _ =>
         host oscillator_stop;;
         host oscillator_disconnect;;
         modify (set_bgmOscillator None)
     | None => mret tt
     end;;
     s ← get;
     match bgmGain s with
     | Some _ =>
         host gain_disconnect;;
         modify (set_bgmGain None)
     | None => mret tt
     end)
    (safe (console_warn "Failed to stop BGM:")).

Definition toggleMute : M bool :=
  s ← get;
  let newState := negb (isMutedState s) in
  modify (set_isMutedState newState);;
  modify (fun s => set_storage (saveMuteState newState (storage s)) s);;
  s ← get;
  (if newState && bool_decide (is_Some (bgmOscillator s)) then stopBGM else mret tt);;
  mret newState.

Definition ensureAudioContext : M nat :=
  s ← get;
  match audioContext s with
  | Some ctx => mret ctx
  | None =>
      ctx ← host New_AudioContext;
      modify (set_audioContext (Some ctx));;
      mret ctx
  end.

(** The keys of [sounds], in the order of [Object.entries]. *)
Definition sounds : list string :=
  ["shoot"; "hit"; "damage"; "gameOver"; "gameClear"]%string.

(** The body of the loop of [initSoundCache]. *)
Definition cacheSound (key : string) : M unit :=
  try_catch
    (host (ZZFX_buildSamples key);;
     buffer ← host (createBuffer key);
     host getChannelData;;
     host channelData_set;;
     modify (fun s =>
       set_cachedSounds (Some (<[key := buffer]> (default ∅ (cachedSounds s)))) s))
    (safe (console_warn "Failed to cache sound")).

Definition initSoundCache : M unit :=
  s ← get;
  match cachedSounds s with
  | Some _ => mret tt
  | None =>
      modify (set_cachedSounds (Some ∅));;
      ensureAudioContext;;
      foldr (fun key rest => cacheSound key;; rest) (mret tt) sounds
  end.

Definition playCachedSound (key : string) : M unit :=
  s ← get;
  if isMutedState s then mret tt
  else
    try_catch
      (s ← get;
       match cachedSounds s with
       | None => initSoundCache
       | Some _ => mret tt
       end;;
       s ← get;
       match cachedSounds s ≫= (fun cache => cache !! key) with
       | None => safe (console_warn "Sound not found in cache")
       | Some buffer =>
           ensureAudioContext;;
           host createBufferSource;;
           host (set_source_buffer buffer);;
           host source_connect;;
           host source_start;;
           mret tt
       end)
      (safe (console_warn "Failed to play cached sound")).

Definition playShoot : M unit := playCachedSound "shoot".
Definition playHit : M unit := playCachedSound "hit".
Definition playDamage : M unit := playCachedSound "damage".
Definition playGameOver : M unit := playCachedSound "gameOver".
Definition playGameClear : M unit := playCachedSound "gameClear".

Definition startBGM : M unit :=
  s ← get;
  if isMutedState s then mret tt
  else
    try_catch
      (s ← get;
       match bgmOscillator s with
       | Some _ => stopBGM
       | None => mret tt
       end;;
       ensureAudioContext;;
       oscillator ← host createOscillator;
       modify (set_bgmOscillator (Some oscillator));;
       gain ← host createGain;
       modify (set_bgmGain (Some gain));;
       host set_gain_value;;
       host oscillator_connect;;
       host gain_connect;;
       host set_oscillator_type;;
       host (set_frequency_value 262);;
       host oscillator_start;;
       s ← get;
       let id := count s in
       safe (window_setInterval id);;
       modify (fun s => set_timers (<[id := O]> (timers s)) s);;
       modify (set_bgmInterval (Some id)))
      (safe (console_warn "Failed to start BGM:")).

(** The callback that [startBGM] hands to [setInterval], run by the host
    for the timer [id] while that timer is active.  An exception of the
    assignment to the frequency is not caught; it ends the callback. *)
Definition frequencies : list Z := [262; 330; 392; 523]%Z.

Definition tick (id : nat) (s : State) : State :=
  match timers s !! id with
  | Some currentIndex =>
      if bool_decide (is_Some (bgmOscillator s)) && negb (isMutedState s) then
        let currentIndex := ((currentIndex + 1) mod length frequencies)%nat in
        let s := set_timers (<[id := currentIndex]> (timers s)) s in
        exec (host (set_frequency_value (nth currentIndex frequencies 0%Z))) s
      else s
  | None => s
  end.

(** The module as it is once loaded in a host with the storage
    [localStorage]: the initialisers, then the last statement of the
    module. *)
Definition loaded (localStorage : gmap string string) : State :=
  let s := mkState false None None None None None localStorage ∅ [] O in
  set_isMutedState (getMuteState (storage s)) s.

(** What happens to the module after it is loaded: the game or the mute
    button calls one of its exported functions, a timer fires, or the game
    saves its high scores into the storage that the module shares with
    it. *)
Inductive Event :=
| Call_toggleMute
| Call_playShoot
| Call_playHit
| Call_playDamage
| Call_playGameOver
| Call_playGameClear
| Call_startBGM
| Call_stopBGM
| Timer (id : nat)
| HighScoresSaved (text : string).

Definition handle (e : Event) (s : State) : State :=
  match e with
  | Call_toggleMute => exec toggleMute s
  | Call_playShoot => exec playShoot s
  | Call_playHit => exec playHit s
  | Call_playDamage => exec playDamage s
  | Call_playGameOver => exec playGameOver s
  | Call_playGameClear => exec playGameClear s
  | Call_startBGM => exec startBGM s
  | Call_stopBGM => exec stopBGM s
  | Timer id => tick id s
  | HighScoresSaved text => set_storage (<[HIGH_SCORES_KEY := text]> (storage s)) s
  end.

Definition run (events : list Event) (s : State) : State :=
  fold_left (fun s e => handle e s) events s.

Definition reachable (s : State) : Prop :=
  exists localStorage events, s = run events (loaded localStorage).

End Module_audio.

End Audio.

(** ** Measures and predicates used by the properties

    None of these is code of the game: they name what the properties below
    say about it. *)

(** A score put at its place in a list in descending order, after the
    entries equal to it. *)
Fixpoint rank_in (score : Z) (l : list Z) : list Z :=
  match l with
  | [] => [score]
  | s :: l' => if (s <? score)%Z then score :: s :: l' else s :: rank_in score l'
  end.

(** The score if every enemy still in the collection were destroyed. *)
Definition scoreBalance (cfg : GameConfig) (g : Game) : Z :=
  (score g + scorePerEnemy cfg * Z.of_nat (length (enemies g)))%Z.

(** Every removal of collision resolution takes a player bullet together
    with an enemy or an enemy bullet, or an enemy bullet together with a
    life: this count is left as it is by each of them. *)
Definition bulletBalance (g : Game) : Z :=
  (Z.of_nat (length (playerBullets g)) - Z.of_nat (length (enemies g))
   - Z.of_nat (length (enemyBullets g)) + lives (player g))%Z.

Definition settled (cfg : GameConfig) (g g' : Game) : Prop :=
  scoreBalance cfg g' = scoreBalance cfg g /\
  bulletBalance g' = bulletBalance g /\
  (length (playerBullets g') <= length (playerBullets g))%nat /\
  (length (enemies g') <= length (enemies g))%nat /\
  (length (enemyBullets g') <= length (enemyBullets g))%nat /\
  (lives (player g') <= lives (player g))%Z.

(** A bullet that overlaps none of the enemies [es], read through the heap
    [h], and a bullet that overlaps none of the bullets [others]. *)
Definition clearOfEnemies (h : list Enemy) (es : list EnemyRef) (b : Bullet) : Prop :=
  Forall (fun r => checkCollision b (deref h r) = false) es.

Definition clearOfBullets (others : list Bullet) (b : Bullet) : Prop :=
  Forall (fun other : Bullet => checkCollision b other = false) others.

(** An enemy inside the part of the canvas [updateEnemies] keeps it in,
    whenever that part is not empty. *)
Definition enemyInBounds (cfg : GameConfig) (e : Enemy) : Prop :=
  (radius e <= canvasWidth cfg - radius e ->
   radius e <= x (position e) <= canvasWidth cfg - radius e) /\
  (radius e <= canvasHeight cfg / 2 ->
   radius e <= y (position e) <= canvasHeight cfg / 2).

(** A bullet as [shootEnemyBullets] makes them. *)
Definition enemyShot (b : Bullet) : Prop :=
  isPlayerBullet b = false /\ targetEnemy b = None /\ radius b = 3.

(** The enemy [e] is in the store under the reference [r] and is not in the
    collection of enemies. *)
Definition retired (r : EnemyRef) (e : Enemy) (g : Game) : Prop :=
  (r < length (heap g))%nat /\ ~ In r (enemies g) /\ deref (heap g) r = e.

(** The fields that the update of the enemies does not write. *)
Definition bystanders (g : Game)
  : Player * list EnemyRef * list Bullet * GameState * Z * gset string
    * gmap string string * list HostCall :=
  (player g, enemies g, playerBullets g, state g, score g, keys g,
   localStorage g, calls g).

(** The enemy that the iteration [i] of the loop of [initEnemies] makes,
    given the values it reads from [Math.random()] and [Date.now()]. *)
Definition enemyPlaced (cfg : GameConfig) (i : nat) (random now : R) : Enemy :=
  mkEnemy
    (mkGameObject
       (mkVector2D (canvasWidth cfg / (INR (enemyCount cfg) + 1) * (INR i + 1))
                   (100 + random * 100))
       (mkVector2D 0 0) 15)
    0 now
    (mkVector2D (canvasWidth cfg / (INR (enemyCount cfg) + 1) * (INR i + 1))
                (100 + random * 100)).

(** ** What holds of every session

    The fields that the rules of the game read and write, as opposed to the
    clock, the record of calls, the storage and the keys held. *)
Definition core (g : Game)
  : Player * list EnemyRef * list Bullet * list Bullet * GameState * Z * list Enemy :=
  (player g, enemies g, playerBullets g, enemyBullets g, state g, score g, heap g).

(** The target reference of a bullet, if it has one, was allocated. *)
Definition validTarget (h : list Enemy) (b : Bullet) : Prop :=
  match targetEnemy b with
  | Some target => (target < length h)%nat
  | None => True
  end.

(** No enemy is in the collection twice and every reference in it was
    allocated; the player bullets are player bullets with an allocated
    target or none, the enemy bullets are as [shootEnemyBullets] makes them;
    the score accounts for the enemies that are gone; and the final states
    are what their names say. *)
Definition wellFormed (cfg : GameConfig) (g : Game) : Prop :=
  NoDup (enemies g) /\
  Forall (fun r : EnemyRef => (r < length (heap g))%nat) (enemies g) /\
  Forall (fun b : Bullet => isPlayerBullet b = true /\ validTarget (heap g) b)
         (playerBullets g) /\
  Forall enemyShot (enemyBullets g) /\
  scoreBalance cfg g = (scorePerEnemy cfg * Z.of_nat (enemyCount cfg))%Z /\
  (length (enemies g) <= enemyCount cfg)%nat /\
  (state g = gameClear -> enemies g = []) /\
  (state g = gameOver -> (lives (player g) <= 0)%Z).

(** The game is over, or the player has a life left. *)
Definition lively (g : Game) : Prop :=
  state g = gameOver \/ (1 <= lives (player g))%Z.

(** [g'] is [g] with some enemies and bullets removed. *)
Definition pruned (g g' : Game) : Prop :=
  sublist (enemies g') (enemies g) /\
  sublist (playerBullets g') (playerBullets g) /\
  sublist (enemyBullets g') (enemyBullets g) /\
  heap g' = heap g.

(** Of [hits] hits on a player with [l] lives, the ones that leave no life:
    all of them but the first [l - 1]. *)
Definition fatalHits (l : Z) (hits : nat) : nat := (hits - Z.to_nat (l - 1))%nat.

(** ** The audio module: what the properties say

    [m] keeps [I], whether it returns or throws; [m] returns, whatever the
    state it is run in. *)
Definition preserves {A} (I : Audio.State -> Prop) (m : Audio.M A) : Prop :=
  forall s, I s -> I (Audio.exec m s).

Definition returns {A} (m : Audio.M A) : Prop :=
  forall s, is_Some (fst (m s)).

(** What holds of the result of [m] run in [s]: of what it returns, or
    [None] if it throws, and of the state it leaves. *)
Definition post {A} (m : Audio.M A) (s : Audio.State)
    (R : option A -> Audio.State -> Prop) : Prop :=
  R (fst (m s)) (snd (m s)).

(** The flag of the module is the one in the storage. *)
Definition inSync (s : Audio.State) : Prop :=
  Audio.isMutedState s = getMuteState (Audio.storage s).

(** No interval timer is active, or one, which is the one the module holds,
    and then there is an oscillator. *)
Definition oneTimer (s : Audio.State) : Prop :=
  match Audio.bgmInterval s with
  | Some id =>
      (exists currentIndex : nat, Audio.timers s = {[ id := currentIndex ]}) /\
      is_Some (Audio.bgmOscillator s)
  | None => Audio.timers s = ∅
  end.

Definition noTimer (s : Audio.State) : Prop :=
  Audio.bgmInterval s = None /\ Audio.timers s = ∅.

(** The module in a host without failures, once the game has started the
    background music. *)
Definition musicPlaying : Audio.State :=
  Audio.run (fun _ => false) [Audio.Call_startBGM] (Audio.loaded ∅).

(** * Properties *)

(** ** Numbers *)

Lemma Rltb_true a b : Rltb a b = true <-> a < b.
Proof. unfold Rltb. destruct (Rlt_dec a b); split; intros; auto; discriminate. Qed.

Lemma Rltb_false a b : Rltb a b = false <-> b <= a.
Proof.
  unfold Rltb. destruct (Rlt_dec a b); split; intros; auto; try discriminate; lra.
Qed.

Lemma Rleb_true a b : Rleb a b = true <-> a <= b.
Proof. unfold Rleb. destruct (Rle_dec a b); split; intros; auto; discriminate. Qed.

Lemma Rleb_false a b : Rleb a b = false <-> b < a.
Proof.
  unfold Rleb. destruct (Rle_dec a b); split; intros; auto; try discriminate; lra.
Qed.

Lemma Reqb_true a b : Reqb a b = true <-> a = b.
Proof. unfold Reqb. destruct (Req_dec_T a b); split; intros; auto; discriminate. Qed.

Lemma Reqb_false a b : Reqb a b = false <-> a <> b.
Proof.
  unfold Reqb. destruct (Req_dec_T a b); split; intros; auto; try discriminate.
  contradiction.
Qed.

Lemma GameState_eqb_eq a b : GameState_eqb a b = true <-> a = b.
Proof. destruct a, b; simpl; split; intros; congruence. Qed.

#[global] Instance descending_total : Total descending.
Proof. intros a b. unfold descending. lia. Qed.

#[global] Instance descending_trans : Transitive descending.
Proof. intros a b c. unfold descending. lia. Qed.

Example value_of_text_scores :
  value_of_text (text_of_value (JArray (map JInt [300; 20; -1]%Z)))
  = Some (JArray (map JInt [300; 20; -1]%Z)).
Proof. vm_compute. reflexivity. Qed.

Lemma integers_of_values (l : list Z) :
  all_some (map integer_of_value (map JInt l)) = Some l.
Proof.
  induction l as [|a l IH]; [reflexivity|].
  cbn [map all_some]. rewrite IH. reflexivity.
Qed.

Lemma sort_of_values_integers : sortsIntegers sort_of_values.
Proof. intros l. unfold sort_of_values. rewrite integers_of_values. reflexivity. Qed.

Example value_of_text_garbage : value_of_text "{oops" = None.
Proof. vm_compute. reflexivity. Qed.


(** ** Geometry *)

Lemma distance_nonneg a b : 0 <= distance a b.
Proof. unfold distance. apply sqrt_pos. Qed.

Lemma distance_horizontal a b : y a = y b -> x b <= x a -> distance a b = x a - x b.
Proof.
  intros Hy Hx. unfold distance. rewrite Hy.
  replace ((x a - x b) * (x a - x b) + (y b - y b) * (y b - y b))
    with ((x a - x b) * (x a - x b)) by ring.
  apply sqrt_square. lra.
Qed.

Lemma distance_sym a b : distance a b = distance b a.
Proof. unfold distance. f_equal. ring. Qed.

Lemma normalize_known v len :
  0 < len -> x v * x v + y v * y v = len * len ->
  normalize v = mkVector2D (x v / len) (y v / len).
Proof.
  intros Hlen Hsq. unfold normalize. rewrite Hsq, sqrt_square by lra.
  destruct (Reqb len 0) eqn:E; [apply Reqb_true in E; lra | reflexivity].
Qed.

Lemma normalize_zero v : x v = 0 -> y v = 0 -> normalize v = mkVector2D 0 0.
Proof.
  intros Hx Hy. unfold normalize. rewrite Hx, Hy.
  replace (0 * 0 + 0 * 0) with 0 by ring. rewrite sqrt_0.
  destruct (Reqb 0 0) eqn:E; [reflexivity | apply Reqb_false in E; lra].
Qed.

Lemma clamp_inside v lo hi : lo <= v -> v <= hi -> clamp v lo hi = v.
Proof.
  intros Hlo Hhi. unfold clamp. rewrite Rmin_right by lra. apply Rmax_right. lra.
Qed.

Lemma clamp_above v lo hi : lo <= hi -> hi <= v -> clamp v lo hi = hi.
Proof.
  intros Hlo Hhi. unfold clamp. rewrite Rmin_left by lra. apply Rmax_right. lra.
Qed.

Lemma Vector2D_eta v : mkVector2D (x v) (y v) = v.
Proof. destruct v; reflexivity. Qed.

(** C9.  [checkCollision a b] holds exactly when the distance between the
    two centres is strictly less than the sum of the radii; at exact
    tangency (distance equal to the sum of the radii) there is no
    collision. *)
Theorem checkCollision_strict (a b : GameObject) :
  (checkCollision a b = true <->
   distance (position a) (position b) < radius a + radius b) /\
  (distance (position a) (position b) = radius a + radius b ->
   checkCollision a b = false).
Proof.
  split.
  - unfold checkCollision. apply Rltb_true.
  - intros Htangent. unfold checkCollision. apply Rltb_false. lra.
Qed.

(** The boundary case of [utils.test.ts]: two circles of radius 5 whose
    centres are 10 apart touch and do not collide. *)
Lemma checkCollision_strict_tangent :
  checkCollision (mkGameObject (mkVector2D 10 0) (mkVector2D 0 0) 5)
                 (mkGameObject (mkVector2D 0 0) (mkVector2D 0 0) 5) = false.
Proof.
  apply (checkCollision_strict
           (mkGameObject (mkVector2D 10 0) (mkVector2D 0 0) 5)
           (mkGameObject (mkVector2D 0 0) (mkVector2D 0 0) 5)).
  simpl. rewrite distance_horizontal; simpl; lra.
Defined.

(** ** Enemy volleys *)

Lemma Game_eta g :
  mkGame (player g) (enemies g) (playerBullets g) (enemyBullets g) (state g)
    (score g) (keys g) (animationId g) (gameStartTime g) (heap g)
    (localStorage g) (clock g) (entropy g) (frameRequests g) (calls g) = g.
Proof. destruct g; reflexivity. Qed.

Lemma push_enemyBullets_fold (f : nat -> Bullet) (l : list nat) (g : Game) :
  fold_left (fun g i => set_enemyBullets (enemyBullets g ++ [f i]) g) l g
  = set_enemyBullets (enemyBullets g ++ map f l) g.
Proof.
  revert g. induction l as [|i l IH]; intros g; simpl.
  - unfold set_enemyBullets. rewrite app_nil_r. symmetry. apply Game_eta.
  - rewrite IH. unfold set_enemyBullets; simpl. rewrite <- app_assoc. reflexivity.
Qed.

Lemma shootEnemyBullets_eq cfg enemy g :
  shootEnemyBullets cfg enemy g
  = set_enemyBullets
      (enemyBullets g
       ++ map (enemyBullet cfg enemy) (seq 0 (enemyBulletDirections cfg))) g.
Proof. unfold shootEnemyBullets. apply push_enemyBullets_fold. Qed.

Lemma unit_circle_scaled a s :
  0 <= s -> sqrt (cos a * s * (cos a * s) + sin a * s * (sin a * s)) = s.
Proof.
  intros Hs.
  replace (cos a * s * (cos a * s) + sin a * s * (sin a * s))
    with (s * s * ((sin a)² + (cos a)²)) by (unfold Rsqr; ring).
  rewrite sin2_cos2, Rmult_1_r. apply sqrt_square, Hs.
Qed.

(** C8.  A volley appends exactly [N = enemyBulletDirections] bullets to the
    enemy bullets.  The [i]-th one starts at the position of the firing
    enemy and has velocity [speed * (cos (i * 2 PI / N), sin (i * 2 PI / N))];
    consecutive angles differ by [2 PI / N], and the length of every velocity
    is the configured enemy bullet speed. *)
Theorem shootEnemyBullets_volley cfg (enemy : Enemy) (g : Game) :
  0 <= enemyBulletSpeed cfg ->
  let N := enemyBulletDirections cfg in
  let speed := enemyBulletSpeed cfg in
  let angle := fun i : nat => INR i * (2 * PI / INR N) in
  exists volley : list Bullet,
    enemyBullets (shootEnemyBullets cfg enemy g) = enemyBullets g ++ volley /\
    length volley = N /\
    (forall i, (i < N)%nat ->
       exists b : Bullet,
         volley !! i = Some b /\
         position b = position enemy /\
         velocity b = mkVector2D (speed * cos (angle i)) (speed * sin (angle i)) /\
         sqrt (x (velocity b) * x (velocity b) + y (velocity b) * y (velocity b))
         = speed /\
         isPlayerBullet b = false /\
         targetEnemy b = None) /\
    (forall i, angle (S i) - angle i = 2 * PI / INR N).
Proof.
  intros Hspeed N speed angle.
  exists (map (enemyBullet cfg enemy) (seq 0 N)).
  split; [rewrite shootEnemyBullets_eq; reflexivity|].
  split; [rewrite length_map, length_seq; reflexivity|].
  split.
  - intros i Hi. exists (enemyBullet cfg enemy i).
    split.
    { rewrite list_lookup_fmap, lookup_seq_lt by exact Hi. reflexivity. }
    assert (Hangle : PI * 2 / INR (enemyBulletDirections cfg) * INR i = angle i).
    { unfold angle, N. unfold Rdiv. ring. }
    unfold enemyBullet; simpl. rewrite Hangle.
    split; [apply Vector2D_eta|].
    split; [f_equal; apply Rmult_comm|].
    split; [apply unit_circle_scaled, Hspeed|].
    split; reflexivity.
  - intros i. unfold angle. rewrite S_INR. ring.
Qed.

Lemma shootEnemyBullets_volley_sample :
  exists volley : list Bullet,
    enemyBullets (shootEnemyBullets sampleConfig sampleEnemy emptyGame)
    = [] ++ volley /\
    length volley = 8%nat /\
    (forall i, (i < 8)%nat ->
       exists b : Bullet,
         volley !! i = Some b /\
         position b = mkVector2D 200 150 /\
         velocity b = mkVector2D (3 * cos (INR i * (2 * PI / INR 8)))
                                 (3 * sin (INR i * (2 * PI / INR 8))) /\
         sqrt (x (velocity b) * x (velocity b) + y (velocity b) * y (velocity b))
         = 3 /\
         isPlayerBullet b = false /\
         targetEnemy b = None) /\
    (forall i, INR (S i) * (2 * PI / INR 8) - INR i * (2 * PI / INR 8)
               = 2 * PI / INR 8).
Proof.
  apply (shootEnemyBullets_volley sampleConfig sampleEnemy emptyGame).
  simpl. lra.
Defined.

(** ** Player bullets and their targets *)

Lemma updateBullets_playerBullets cfg g :
  playerBullets (updateBullets cfg g)
  = List.filter (playerBulletOnScreen cfg)
      (map (updatePlayerBullet cfg (heap g)) (playerBullets g)).
Proof. reflexivity. Qed.

Lemma updatePlayerBullet_stale :
  updatePlayerBullet duoConfig (heap staleTargetGame) staleBullet
  = mkBullet (mkGameObject (mkVector2D 100 105) (mkVector2D 0 8) 4)
             true (Some O).
Proof.
  unfold updatePlayerBullet, getDirectionVector; simpl.
  rewrite (normalize_known _ 3) by (simpl; lra).
  unfold Bullet_on, GameObject_at, GameObject_moving; simpl.
  repeat f_equal; lra.
Qed.

Lemma staleTargetGame_wellFormed : wellFormed duoConfig staleTargetGame.
Proof.
  unfold wellFormed, scoreBalance, staleTargetGame.
  cbn [enemies heap playerBullets enemyBullets state score player length
       duoConfig scorePerEnemy enemyCount].
  split; [apply NoDup_singleton|].
  split; [constructor; [cbn; lia | constructor]|].
  split.
  { constructor; [|constructor]. split; [reflexivity|].
    unfold validTarget. cbn. lia. }
  split; [constructor|].
  split; [reflexivity|].
  split; [lia|].
  split; intros; discriminate.
Qed.

(** C1, as stated, fails.  [staleTargetGame] is a session of two enemies
    that has everything that holds of the sessions that can be reached: the
    first enemy (reference [0]) has been destroyed, for 100 points, and is
    not in [enemies] any more.  The bullet aimed at it was moving up with
    velocity [(0, -8)], and the update turns it round: its velocity becomes
    [(0, 8)], towards the place where the destroyed enemy was. *)
Lemma updateBullets_stale_target_turns :
  wellFormed duoConfig staleTargetGame /\
  enemies staleTargetGame = [1%nat] /\
  playerBullets staleTargetGame = [staleBullet] /\
  targetEnemy staleBullet = Some O /\
  velocity staleBullet = mkVector2D 0 (-8) /\
  map (fun b : Bullet => velocity b)
      (playerBullets (updateBullets duoConfig staleTargetGame))
  = [mkVector2D 0 8].
Proof.
  split; [exact staleTargetGame_wellFormed|].
  repeat (split; [reflexivity|]).
  rewrite updateBullets_playerBullets.
  change (playerBullets staleTargetGame) with [staleBullet].
  cbn [map]. rewrite updatePlayerBullet_stale.
  unfold List.filter, playerBulletOnScreen; simpl.
  rewrite !(proj2 (Rleb_true _ _)) by lra. reflexivity.
Qed.

(** What one update does to the player bullets. *)
Lemma updateBullets_velocities cfg (g : Game) :
  playerBullets (updateBullets cfg g)
  = List.filter (playerBulletOnScreen cfg)
      (map (updatePlayerBullet cfg (heap g)) (playerBullets g)) /\
  (forall (b : Bullet) (target : EnemyRef),
     targetEnemy b = Some target ->
     let direction :=
       getDirectionVector (position b) (position (deref (heap g) target)) in
     velocity (updatePlayerBullet cfg (heap g) b)
     = mkVector2D (x direction * playerBulletSpeed cfg)
                  (y direction * playerBulletSpeed cfg)) /\
  (forall b : Bullet,
     targetEnemy b = None ->
     velocity (updatePlayerBullet cfg (heap g) b) = velocity b) /\
  (forall b : Bullet,
     position (updatePlayerBullet cfg (heap g) b)
     = mkVector2D
         (x (position b) + x (velocity (updatePlayerBullet cfg (heap g) b)))
         (y (position b) + y (velocity (updatePlayerBullet cfg (heap g) b)))) /\
  (forall others : list EnemyRef,
     playerBullets (updateBullets cfg (set_enemies others g))
     = playerBullets (updateBullets cfg g)).
Proof.
  split; [reflexivity|].
  split; [intros b target Ht; unfold updatePlayerBullet; rewrite Ht; reflexivity|].
  split; [intros b Ht; unfold updatePlayerBullet; rewrite Ht; reflexivity|].
  split; [|reflexivity].
  intros b. unfold updatePlayerBullet. destruct (targetEnemy b); reflexivity.
Qed.

(** ** Shooting *)

Lemma closest_fold (d : EnemyRef -> R) (rest : list EnemyRef) (first : EnemyRef) :
  let closest :=
    fold_left (fun c e => if Rltb (d e) (d c) then e else c) rest first in
  In closest (first :: rest) /\
  d closest <= d first /\
  (forall e, In e rest -> d closest <= d e).
Proof.
  revert first. induction rest as [|e rest IH]; intros first; simpl.
  - split; [left; reflexivity|]. split; [lra|]. intros e [].
  - destruct (Rltb (d e) (d first)) eqn:E.
    + apply Rltb_true in E. destruct (IH e) as (Hin & Hle & Hall).
      split; [right; exact Hin|]. split; [simpl in Hle; lra|].
      intros e' [->|He']; [exact Hle | apply Hall, He'].
    + apply Rltb_false in E. destruct (IH first) as (Hin & Hle & Hall).
      split; [destruct Hin as [Hin|Hin]; [left; exact Hin | right; right; exact Hin]|].
      split; [exact Hle|].
      intros e' [->|He']; [simpl in Hle; lra | apply Hall, He'].
Qed.

Lemma getClosestEnemy_nearest g :
  enemies g <> [] ->
  exists target,
    getClosestEnemy g = Some target /\
    In target (enemies g) /\
    forall e, In e (enemies g) ->
      distance (position (player g)) (position (deref (heap g) target))
      <= distance (position (player g)) (position (deref (heap g) e)).
Proof.
  intros Hne. unfold getClosestEnemy.
  destruct (enemies g) as [|first rest]; [contradiction|].
  pose proof (closest_fold
    (fun e => distance (position (player g)) (position (deref (heap g) e)))
    rest first) as (Hin & Hle & Hall).
  eexists. split; [reflexivity|]. split; [exact Hin|].
  intros e [<-|He]; [exact Hle | apply Hall, He].
Qed.

(** C7.  [shootPlayerBullet] reads the clock once.  While the cooldown since
    [lastShotTime] has not elapsed, or when there is no enemy, that is all it
    does: no bullet, no sound, and the player ([lastShotTime] included) is
    untouched.  Otherwise it appends exactly one bullet, placed at the
    position of the player and aimed at an enemy of the collection none of
    which is nearer to the player, and sets [lastShotTime] to the time
    read. *)
Theorem shootPlayerBullet_spec cfg (Date_now : nat -> R) (g : Game) :
  let now := Date_now (clock g) in
  let shot := shootPlayerBullet cfg Date_now g in
  ((now - lastShotTime (player g) < playerShootCooldown cfg \/ enemies g = []) ->
   shot = set_clock (S (clock g)) g /\
   playerBullets shot = playerBullets g /\
   player shot = player g /\
   calls shot = calls g) /\
  (playerShootCooldown cfg <= now - lastShotTime (player g) ->
   enemies g <> [] ->
   exists target : EnemyRef,
     In target (enemies g) /\
     (forall e, In e (enemies g) ->
        distance (position (player g)) (position (deref (heap g) target))
        <= distance (position (player g)) (position (deref (heap g) e))) /\
     playerBullets shot
     = playerBullets g
       ++ [mkBullet (mkGameObject (position (player g)) (mkVector2D 0 0) 4)
                    true (Some target)] /\
     lastShotTime (player shot) = now /\
     lives (player shot) = lives (player g) /\
     Player_obj (player shot) = Player_obj (player g) /\
     calls shot = Audio_playShoot :: calls g).
Proof.
  intros now shot. subst shot. unfold shootPlayerBullet, Date_now_call.
  cbn [lastShotTime player set_clock]. fold now. split.
  - intros [Hcool|Hnone].
    + rewrite (proj2 (Rltb_true _ _) Hcool). repeat split; reflexivity.
    + destruct (Rltb _ _); [repeat split; reflexivity|].
      unfold getClosestEnemy. cbn [enemies set_clock]. rewrite Hnone.
      repeat split; reflexivity.
  - intros Hready Hne. rewrite (proj2 (Rltb_false _ _) Hready).
    destruct (getClosestEnemy_nearest (set_clock (S (clock g)) g) Hne)
      as (target & Hsome & Hin & Hnear).
    rewrite Hsome. exists target.
    split; [exact Hin|]. split; [exact Hnear|].
    simpl. rewrite Vector2D_eta. repeat split; reflexivity.
Qed.

Lemma shootPlayerBullet_spec_fires :
  exists target : EnemyRef,
    In target [1%nat] /\
    (forall e, In e [1%nat] ->
       distance (position (player staleTargetGame))
                (position (deref (heap staleTargetGame) target))
       <= distance (position (player staleTargetGame))
                   (position (deref (heap staleTargetGame) e))) /\
    playerBullets (shootPlayerBullet sampleConfig (fun _ => 5000) staleTargetGame)
    = [staleBullet;
       mkBullet (mkGameObject (mkVector2D (800 / 2) (600 - 50)) (mkVector2D 0 0) 4)
                true (Some target)] /\
    lastShotTime
      (player (shootPlayerBullet sampleConfig (fun _ => 5000) staleTargetGame))
    = 5000 /\
    lives (player (shootPlayerBullet sampleConfig (fun _ => 5000) staleTargetGame))
    = 3%Z /\
    Player_obj
      (player (shootPlayerBullet sampleConfig (fun _ => 5000) staleTargetGame))
    = Player_obj (createPlayer sampleConfig) /\
    calls (shootPlayerBullet sampleConfig (fun _ => 5000) staleTargetGame)
    = [Audio_playShoot].
Proof.
  apply (proj2 (shootPlayerBullet_spec sampleConfig (fun _ => 5000) staleTargetGame)).
  - simpl. lra.
  - simpl. discriminate.
Defined.

(** ** What the steps of a frame leave alone

    Moving the player, the enemies and the bullets does not touch the
    standing of a session. *)

Lemma fold_left_keeps {A B C} (proj : A -> C) (f : A -> B -> A) (l : list B) (a : A) :
  (forall a b, proj (f a b) = proj a) -> proj (fold_left f l a) = proj a.
Proof.
  intros Hf. revert a. induction l as [|b l IH]; intros a; simpl.
  - reflexivity.
  - rewrite IH. apply Hf.
Qed.

Lemma shootPlayerBullet_standing cfg now g :
  standing (shootPlayerBullet cfg now g) = standing g.
Proof.
  unfold shootPlayerBullet, Date_now_call.
  destruct (Rltb _ _); [reflexivity|].
  destruct (getClosestEnemy _); reflexivity.
Qed.

Lemma updatePlayer_standing cfg now g :
  standing (updatePlayer cfg now g) = standing g.
Proof.
  unfold updatePlayer.
  match goal with
  | |- context [let '(dx, dy) := ?c in _] => destruct c as [dx dy]
  end.
  match goal with
  | |- context [if has "m" ?g' then _ else _] => destruct (has "m" g')
  end; [rewrite shootPlayerBullet_standing|]; reflexivity.
Qed.

Lemma updateEnemy_standing cfg rnd now interval ref g :
  standing (updateEnemy cfg rnd now interval ref g) = standing g.
Proof.
  unfold updateEnemy, Math_random_call.
  repeat match goal with
         | |- context [if ?c then _ else _] => destruct c
         end;
    rewrite ?shootEnemyBullets_eq; reflexivity.
Qed.

Lemma updateEnemies_standing cfg now rnd g :
  standing (updateEnemies cfg now rnd g) = standing g.
Proof.
  unfold updateEnemies, Date_now_call.
  rewrite (fold_left_keeps standing); [reflexivity|].
  intros. apply updateEnemy_standing.
Qed.

Lemma updateBullets_standing cfg g : standing (updateBullets cfg g) = standing g.
Proof. reflexivity. Qed.

Lemma render_standing now g : standing (render now g) = standing g.
Proof. reflexivity. Qed.

Lemma requestAnimationFrame_standing g :
  standing (requestAnimationFrame g) = standing g.
Proof. reflexivity. Qed.

Lemma untouched_refl g : untouched g g.
Proof. repeat split. Qed.

Lemma untouched_trans g1 g2 g3 : untouched g1 g2 -> untouched g2 g3 -> untouched g1 g3.
Proof.
  intros (?&?&?&?) (?&?&?&?). repeat split; congruence.
Qed.

Lemma bulletVsEnemies_untouched cfg i b n g :
  untouched g (bulletVsEnemies cfg i b n g).
Proof.
  revert g. induction n as [|j IH]; intros g; simpl.
  - apply untouched_refl.
  - destruct (enemies g !! j); [|apply untouched_refl].
    destruct (checkCollision _ _); [repeat split | apply IH].
Qed.

Lemma playerBulletsVsEnemies_untouched cfg n g :
  untouched g (playerBulletsVsEnemies cfg n g).
Proof.
  revert g. induction n as [|i IH]; intros g; simpl.
  - apply untouched_refl.
  - eapply untouched_trans; [|apply IH].
    destruct (playerBullets g !! i);
      [apply bulletVsEnemies_untouched | apply untouched_refl].
Qed.

Lemma bulletVsEnemyBullets_untouched i b n g :
  untouched g (bulletVsEnemyBullets i b n g) /\
  enemies (bulletVsEnemyBullets i b n g) = enemies g /\
  score (bulletVsEnemyBullets i b n g) = score g.
Proof.
  revert g. induction n as [|j IH]; intros g; simpl.
  - repeat split.
  - destruct (enemyBullets g !! j); [|repeat split].
    destruct (checkCollision _ _); [repeat split | apply IH].
Qed.

Lemma playerBulletsVsEnemyBullets_untouched n g :
  untouched g (playerBulletsVsEnemyBullets n g) /\
  enemies (playerBulletsVsEnemyBullets n g) = enemies g /\
  score (playerBulletsVsEnemyBullets n g) = score g.
Proof.
  revert g. induction n as [|i IH]; intros g; simpl.
  - repeat split.
  - destruct (IH (match playerBullets g !! i with
                  | Some playerBullet =>
                      bulletVsEnemyBullets i playerBullet (length (enemyBullets g)) g
                  | None => g
                  end)) as (Hu & He & Hs).
    destruct (playerBullets g !! i) as [b|]; [|split; [exact Hu | split; assumption]].
    destruct (bulletVsEnemyBullets_untouched i b (length (enemyBullets g)) g)
      as (Hu' & He' & Hs').
    split; [eapply untouched_trans; eassumption|].
    split; congruence.
Qed.

(** ** Enemy bullets against the player *)

Lemma gameOver_frame parse str sort g :
  state (gameOver_ parse str sort g) = gameOver /\
  player (gameOver_ parse str sort g) = player g /\
  enemies (gameOver_ parse str sort g) = enemies g /\
  playerBullets (gameOver_ parse str sort g) = playerBullets g /\
  enemyBullets (gameOver_ parse str sort g) = enemyBullets g /\
  score (gameOver_ parse str sort g) = score g /\
  heap (gameOver_ parse str sort g) = heap g.
Proof. repeat split. Qed.

Lemma Player_eta p : mkPlayer (Player_obj p) (lives p) (lastShotTime p) = p.
Proof. destruct p; reflexivity. Qed.

Lemma hitsOn_lives (p : Player) l t bs :
  hitsOn (mkPlayer (Player_obj p) l t) bs = hitsOn p bs.
Proof. reflexivity. Qed.

Lemma hitsOn_snoc p bs b :
  hitsOn p (bs ++ [b]) = (hitsOn p bs + (if overlapsPlayer p b then 1 else 0))%nat.
Proof.
  unfold hitsOn. rewrite List.filter_app, length_app. simpl.
  destruct (overlapsPlayer p b); reflexivity.
Qed.

Ltac props_of_tests :=
  repeat match goal with
         | H : (_ <? _)%nat = true |- _ => apply Nat.ltb_lt in H
         | H : (_ <? _)%nat = false |- _ => apply Nat.ltb_ge in H
         | H : (_ <=? _)%Z = true |- _ => apply Z.leb_le in H
         | H : (_ <=? _)%Z = false |- _ => apply Z.leb_gt in H
         end.

Lemma livesExhausted_step (p : Player) (hits : nat) :
  (if livesExhausted (mkPlayer p (lives p - 1) (lastShotTime p)) hits
   then gameOver
   else if (lives p - 1 <=? 0)%Z then gameOver else playing)
  = if livesExhausted p (hits + 1) then gameOver else playing.
Proof.
  unfold livesExhausted; cbn [lives].
  destruct (0 <? hits)%nat eqn:H1;
    destruct (lives p - 1 - Z.of_nat hits <=? 0)%Z eqn:H2;
    destruct (0 <? hits + 1)%nat eqn:H3;
    destruct (lives p - Z.of_nat (hits + 1) <=? 0)%Z eqn:H4;
    destruct (lives p - 1 <=? 0)%Z eqn:H5;
    simpl; try reflexivity; exfalso; props_of_tests; lia.
Qed.

(** The third loop, run over the indices below [n] in a state that is
    [playing]: the bullets that overlap the player are removed, each one
    costs a life, and [gameOver] is called once a hit leaves no life. *)
Lemma enemyBulletsVsPlayer_spec parse str sort n g :
  (n <= length (enemyBullets g))%nat ->
  let p := player g in
  let bs := enemyBullets g in
  let hits := hitsOn p (take n bs) in
  let g' := enemyBulletsVsPlayer parse str sort n g in
  enemyBullets g'
  = List.filter (fun b => negb (overlapsPlayer p b)) (take n bs) ++ drop n bs /\
  player g' = mkPlayer p (lives p - Z.of_nat hits) (lastShotTime p) /\
  (state g = playing ->
   state g' = if livesExhausted p hits then gameOver else playing) /\
  (livesExhausted p hits = false -> localStorage g' = localStorage g) /\
  enemies g' = enemies g /\
  score g' = score g /\
  playerBullets g' = playerBullets g /\
  heap g' = heap g.
Proof.
  revert g. induction n as [|n IH]; intros g Hn; cbn zeta.
  - simpl. rewrite Z.sub_0_r, Player_eta. rewrite drop_0. repeat split; auto.
  - destruct (lookup_lt_is_Some_2 (enemyBullets g) n ltac:(lia)) as [b Hb].
    rewrite (take_S_r _ _ _ Hb), hitsOn_snoc, List.filter_app.
    cbn [enemyBulletsVsPlayer]. unfold enemyBulletVsPlayer. rewrite Hb.
    change (checkCollision b (player g)) with (overlapsPlayer (player g) b).
    destruct (overlapsPlayer (player g) b) eqn:Hhit; cbn [List.filter negb].
    + rewrite Hhit. cbn [negb app].
      set (g1 := call Audio_playDamage _).
      assert (Hlen : (n <= length (enemyBullets g1))%nat).
      { subst g1; simpl. rewrite length_delete by (exists b; exact Hb). lia. }
      assert (Hg1 : enemyBullets g1 = delete n (enemyBullets g)) by reflexivity.
      assert (Htake : take n (delete n (enemyBullets g)) = take n (enemyBullets g)).
      { rewrite delete_take_drop. apply take_app_length'.
        rewrite length_take_le; lia. }
      assert (Hdrop : drop n (delete n (enemyBullets g)) = drop (S n) (enemyBullets g)).
      { rewrite delete_take_drop. apply drop_app_length'.
        rewrite length_take_le; lia. }
      destruct (lives (player g1) <=? 0)%Z eqn:Hdead.
      * destruct (IH (gameOver_ parse str sort g1)) as (Hb' & Hp' & Hs' & Hl' & He' & Hsc' & Hpb' & Hh');
          [exact Hlen|].
        cbn zeta in *.
        change (enemyBullets (gameOver_ parse str sort g1)) with (delete n (enemyBullets g)) in *.
        change (player (gameOver_ parse str sort g1))
          with (mkPlayer (player g) (lives (player g) - 1) (lastShotTime (player g))) in *.
        rewrite Htake in *. rewrite Hdrop in *.
        rewrite hitsOn_lives in *.
        rewrite app_nil_r.
        split; [exact Hb'|].
        split; [rewrite Hp'; simpl; rewrite ?hitsOn_lives; f_equal; lia|].
        split.
        { intros _.
          assert (Hx : livesExhausted (player g)
                         (hitsOn (player g) (take n (enemyBullets g)) + 1) = true).
          { unfold livesExhausted. apply andb_true_intro. split.
            - apply Nat.ltb_lt. lia.
            - apply Z.leb_le. simpl in Hdead. apply Z.leb_le in Hdead. lia. }
          rewrite Hx.
          clear - IH Hlen.
          (* once over, the state stays over *)
          revert Hlen. generalize (gameOver_frame parse str sort g1).
          intros (Hst & _) _.
          clear IH. revert Hst. generalize (gameOver_ parse str sort g1).
          induction n as [|m IHm]; intros h Hst; simpl; [exact Hst|].
          apply IHm. unfold enemyBulletVsPlayer.
          destruct (enemyBullets h !! m); [|exact Hst].
          destruct (checkCollision _ _); [|exact Hst].
          destruct (_ <=? 0)%Z; [reflexivity | exact Hst]. }
        split.
        { intros Hx. exfalso.
          unfold livesExhausted in Hx. apply andb_false_iff in Hx.
          simpl in Hdead. apply Z.leb_le in Hdead.
          destruct Hx as [Hx|Hx]; [apply Nat.ltb_ge in Hx; lia|].
          apply Z.leb_gt in Hx. lia. }
        repeat split; assumption.
      * destruct (IH g1) as (Hb' & Hp' & Hs' & Hl' & He' & Hsc' & Hpb' & Hh');
          [exact Hlen|].
        cbn zeta in *.
        change (enemyBullets g1) with (delete n (enemyBullets g)) in *.
        change (player g1)
          with (mkPlayer (player g) (lives (player g) - 1) (lastShotTime (player g))) in *.
        rewrite Htake in *. rewrite Hdrop in *.
        rewrite hitsOn_lives in *.
        rewrite app_nil_r.
        split; [exact Hb'|].
        split; [rewrite Hp'; simpl; rewrite ?hitsOn_lives; f_equal; lia|].
        split.
        { intros Hplay. rewrite (Hs' Hplay).
          pose proof (livesExhausted_step (player g)
                        (hitsOn (player g) (take n (enemyBullets g)))) as Hstep.
          cbn [lives] in Hdead.
          rewrite Hdead in Hstep. exact Hstep. }
        split.
        { intros Hx. rewrite Hl'; [reflexivity|].
          pose proof (livesExhausted_step (player g)
                        (hitsOn (player g) (take n (enemyBullets g)))) as Hstep.
          cbn [lives] in Hdead.
          rewrite Hdead, Hx in Hstep.
          destruct (livesExhausted _ _); [discriminate | reflexivity]. }
        repeat split; assumption.
    + rewrite Hhit. cbn [negb]. rewrite Nat.add_0_r.
      destruct (IH g) as (Hb' & Hp' & Hs' & Hl' & He' & Hsc' & Hpb' & Hh'); [lia|].
      cbn zeta in *.
      split.
      { rewrite Hb', <- app_assoc. simpl. rewrite (drop_S _ _ _ Hb). reflexivity. }
      repeat split; assumption.
Qed.

(** ** Collision resolution as a whole *)

Lemma bulletsResolved_untouched cfg g :
  untouched g (bulletsResolved cfg g) /\
  enemies (bulletsResolved cfg g)
  = enemies (playerBulletsVsEnemies cfg (length (playerBullets g)) g) /\
  score (bulletsResolved cfg g)
  = score (playerBulletsVsEnemies cfg (length (playerBullets g)) g).
Proof.
  unfold bulletsResolved.
  set (g1 := playerBulletsVsEnemies cfg (length (playerBullets g)) g).
  destruct (playerBulletsVsEnemyBullets_untouched (length (playerBullets g1)) g1)
    as (Hu & He & Hs).
  split; [|split; assumption].
  eapply untouched_trans; [apply playerBulletsVsEnemies_untouched | exact Hu].
Qed.

Lemma resolveHits_spec cfg parse str sort g :
  let before := bulletsResolved cfg g in
  let hits := hitsOn (player g) (enemyBullets before) in
  let after := resolveHits cfg parse str sort g in
  player after
  = mkPlayer (player g) (lives (player g) - Z.of_nat hits) (lastShotTime (player g)) /\
  (state g = playing ->
   state after = if livesExhausted (player g) hits then gameOver else playing) /\
  (livesExhausted (player g) hits = false -> localStorage after = localStorage g) /\
  enemies after = enemies before /\
  score after = score before.
Proof.
  intros before hits after.
  destruct (bulletsResolved_untouched cfg g) as ((Hst & Hpl & Hls & _) & _ & _).
  fold before in Hst, Hpl, Hls.
  destruct (enemyBulletsVsPlayer_spec parse str sort (length (enemyBullets before)) before)
    as (_ & Hp & Hs & Hl & He & Hsc & _); [lia|].
  cbn zeta in Hp, Hs, Hl.
  rewrite take_ge in Hp, Hs, Hl by lia. rewrite Hpl in Hp, Hs, Hl.
  fold hits in Hp, Hs, Hl.
  change (enemyBulletsVsPlayer parse str sort (length (enemyBullets before)) before)
    with after in *.
  split; [exact Hp|].
  split; [intros Hplay; apply Hs; congruence|].
  split; [intros Hx; rewrite Hl by exact Hx; exact Hls|].
  split; assumption.
Qed.

Lemma roundClearCheck_player parse str sort g :
  player (roundClearCheck parse str sort g) = player g.
Proof.
  unfold roundClearCheck. destruct (_ && _); reflexivity.
Qed.

Lemma roundClearCheck_state parse str sort g :
  state (roundClearCheck parse str sort g)
  = if bool_decide (enemies g = []) && GameState_eqb (state g) playing
    then gameClear else state g.
Proof.
  unfold roundClearCheck. destruct (_ && _); reflexivity.
Qed.

Lemma checkCollisions_lives cfg parse str sort g :
  lives (player (checkCollisions cfg parse str sort g))
  = (lives (player g)
     - Z.of_nat (hitsOn (player g) (enemyBullets (bulletsResolved cfg g))))%Z.
Proof.
  unfold checkCollisions. cbn zeta. rewrite roundClearCheck_player.
  destruct (resolveHits_spec cfg parse str sort g) as (Hp & _). cbn zeta in Hp.
  rewrite Hp. reflexivity.
Qed.

Lemma checkCollisions_alive cfg parse str sort g :
  state g = playing -> (1 <= lives (player g))%Z ->
  aliveWhilePlayable (checkCollisions cfg parse str sort g).
Proof.
  intros Hplay Hlives. unfold aliveWhilePlayable.
  rewrite checkCollisions_lives.
  unfold checkCollisions. cbn zeta. rewrite roundClearCheck_state.
  destruct (resolveHits_spec cfg parse str sort g) as (_ & Hs & _). cbn zeta in Hs.
  rewrite (Hs Hplay).
  set (hits := hitsOn (player g) (enemyBullets (bulletsResolved cfg g))).
  destruct (livesExhausted (player g) hits) eqn:Hx.
  - left. rewrite andb_false_r. reflexivity.
  - destruct (bool_decide _ && _); [right; left; reflexivity|].
    right; right. unfold livesExhausted in Hx. apply andb_false_iff in Hx.
    destruct Hx as [Hx|Hx]; props_of_tests; lia.
Qed.

Lemma overlapsPlayer_right (p : Player) (b : Bullet) :
  y (position b) = y (position p) ->
  x (position p) <= x (position b) ->
  x (position b) - x (position p) < radius b + radius p ->
  overlapsPlayer p b = true.
Proof.
  intros Hy Hx Hclose. unfold overlapsPlayer, checkCollision.
  apply Rltb_true. rewrite distance_horizontal; assumption.
Qed.

(** In [crowdedGame] the player has one life and two enemy bullets overlap
    it: collision resolution counts both hits and leaves [lives = -1]. *)
Lemma checkCollisions_lives_negative :
  state crowdedGame = playing /\
  lives (player crowdedGame) = 1%Z /\
  length (enemyBullets crowdedGame) = 2%nat /\
  lives (player (checkCollisions sampleConfig value_of_text text_of_value sort_of_values crowdedGame))
  = (-1)%Z.
Proof.
  repeat (split; [reflexivity|]).
  rewrite checkCollisions_lives.
  change (enemyBullets (bulletsResolved sampleConfig crowdedGame))
    with (enemyBullets crowdedGame).
  unfold hitsOn, crowdedGame; cbn [enemyBullets player List.filter].
  rewrite !overlapsPlayer_right by (simpl; lra).
  reflexivity.
Qed.

(** When a hit of this frame takes the last life, the state is [gameOver]
    after collision resolution, also when the last enemy was destroyed in
    the same frame: the closing test finds the state no longer [playing]. *)
Lemma checkCollisions_last_life cfg parse str sort g :
  state g = playing ->
  livesExhausted (player g)
    (hitsOn (player g) (enemyBullets (bulletsResolved cfg g))) = true ->
  state (checkCollisions cfg parse str sort g) = gameOver.
Proof.
  intros Hplay Hx. unfold checkCollisions. cbn zeta. rewrite roundClearCheck_state.
  destruct (resolveHits_spec cfg parse str sort g) as (_ & Hs & _). cbn zeta in Hs.
  rewrite (Hs Hplay), Hx, andb_false_r. reflexivity.
Qed.

(** ** Lives over a session *)

Lemma standing_state g g' : standing g' = standing g -> state g' = state g.
Proof. unfold standing. congruence. Qed.

Lemma standing_lives g g' :
  standing g' = standing g -> lives (player g') = lives (player g).
Proof. unfold standing. congruence. Qed.

Lemma aliveWhilePlayable_standing g g' :
  standing g' = standing g -> aliveWhilePlayable g -> aliveWhilePlayable g'.
Proof.
  intros H. unfold aliveWhilePlayable.
  rewrite (standing_state _ _ H), (standing_lives _ _ H). tauto.
Qed.

Lemma moved_standing cfg now rnd g :
  standing (updateBullets cfg (updateEnemies cfg now rnd (updatePlayer cfg now g)))
  = standing g.
Proof.
  rewrite updateBullets_standing, updateEnemies_standing, updatePlayer_standing.
  reflexivity.
Qed.

Lemma gameLoop_not_playing cfg now rnd parse str sort g :
  state g <> playing -> gameLoop cfg now rnd parse str sort g = g.
Proof.
  intros Hstate. unfold gameLoop.
  destruct (GameState_eqb (state g) playing) eqn:E; [|reflexivity].
  apply GameState_eqb_eq in E. contradiction.
Qed.

Lemma gameLoop_playing cfg now rnd parse str sort g :
  state g = playing ->
  gameLoop cfg now rnd parse str sort g
  = requestAnimationFrame
      (render now
         (checkCollisions cfg parse str sort
            (updateBullets cfg
               (updateEnemies cfg now rnd (updatePlayer cfg now g))))).
Proof.
  intros Hstate. unfold gameLoop. rewrite Hstate. reflexivity.
Qed.

Lemma gameLoop_alive cfg now rnd parse str sort g :
  aliveWhilePlayable g -> aliveWhilePlayable (gameLoop cfg now rnd parse str sort g).
Proof.
  intros Halive.
  destruct (GameState_eqb (state g) playing) eqn:E.
  - apply GameState_eqb_eq in E. rewrite gameLoop_playing by exact E.
    eapply aliveWhilePlayable_standing;
      [rewrite requestAnimationFrame_standing; apply render_standing|].
    pose proof (moved_standing cfg now rnd g) as Hmoved.
    apply checkCollisions_alive.
    + rewrite (standing_state _ _ Hmoved). exact E.
    + rewrite (standing_lives _ _ Hmoved).
      destruct Halive as [H|[H|H]]; [congruence | congruence | exact H].
  - rewrite gameLoop_not_playing; [exact Halive|].
    intros H. apply GameState_eqb_eq in H. congruence.
Qed.

Lemma initEnemies_frame cfg now rnd g :
  state (initEnemies cfg now rnd g) = state g /\
  player (initEnemies cfg now rnd g) = player g.
Proof.
  unfold initEnemies. split.
  - rewrite (fold_left_keeps state); [reflexivity | reflexivity].
  - rewrite (fold_left_keeps player); [reflexivity | reflexivity].
Qed.

Lemma togglePause_alive cfg now rnd parse str sort g :
  aliveWhilePlayable g -> aliveWhilePlayable (togglePause cfg now rnd parse str sort g).
Proof.
  intros Halive. unfold togglePause.
  destruct (state g) eqn:E; try exact Halive.
  - right; right. destruct Halive as [H|[H|H]]; [congruence | congruence | exact H].
  - apply gameLoop_alive. right; right.
    destruct Halive as [H|[H|H]]; [congruence | congruence | exact H].
Qed.

Lemma restart_alive cfg now rnd parse str sort g :
  (1 <= playerLives cfg)%Z -> aliveWhilePlayable (restart cfg now rnd parse str sort g).
Proof.
  intros Hcfg. unfold restart, Date_now_call. apply gameLoop_alive.
  right; right. simpl.
  destruct (initEnemies_frame cfg now rnd (set_player (createPlayer cfg) g)) as (_ & Hp).
  rewrite Hp. exact Hcfg.
Qed.

Lemma handle_alive cfg now rnd parse str sort e g :
  (1 <= playerLives cfg)%Z ->
  aliveWhilePlayable g -> aliveWhilePlayable (handle cfg now rnd parse str sort e g).
Proof.
  intros Hcfg Halive. destruct e; simpl.
  - apply gameLoop_alive, Halive.
  - exact Halive.
  - exact Halive.
  - apply togglePause_alive, Halive.
  - apply togglePause_alive, Halive.
  - apply restart_alive, Hcfg.
Qed.

Lemma start_alive cfg now rnd parse str sort storage :
  (1 <= playerLives cfg)%Z ->
  aliveWhilePlayable (start cfg now rnd parse str sort (new_Game cfg now rnd storage)).
Proof.
  intros Hcfg. unfold start, Date_now_call. apply gameLoop_alive.
  right; right. simpl. unfold new_Game.
  match goal with
  | |- context [initEnemies cfg now rnd ?g0] =>
      destruct (initEnemies_frame cfg now rnd g0) as (_ & Hp)
  end.
  rewrite Hp. exact Hcfg.
Qed.

Lemma reachable_alive cfg now rnd parse str sort g :
  (1 <= playerLives cfg)%Z ->
  reachable cfg now rnd parse str sort g -> aliveWhilePlayable g.
Proof.
  intros Hcfg (storage & events & ->). unfold run.
  assert (Hstart := start_alive cfg now rnd parse str sort storage Hcfg).
  revert Hstart. generalize (start cfg now rnd parse str sort (new_Game cfg now rnd storage)).
  induction events as [|e events IH]; intros g Hg; simpl.
  - exact Hg.
  - apply IH, handle_alive; assumption.
Qed.

(** C2, amended.  Collision resolution takes one life for every enemy bullet
    that overlaps the player once the bullets have been resolved, with no
    floor at zero: [lives] decreases by the number of hits.  What holds in
    every reachable state, for a configuration with at least one life, is
    that [lives >= 1] as long as the state is [playing] or [paused]: the
    state is [gameOver], or it is [gameClear], or a life is left. *)
Theorem lives_accounting cfg now rnd parse str sort (g : Game) :
  (1 <= playerLives cfg)%Z ->
  lives (player (checkCollisions cfg parse str sort g))
  = (lives (player g)
     - Z.of_nat (hitsOn (player g) (enemyBullets (bulletsResolved cfg g))))%Z /\
  (reachable cfg now rnd parse str sort g ->
   state g = gameOver \/ state g = gameClear \/ (1 <= lives (player g))%Z).
Proof.
  intros Hcfg. split.
  - apply checkCollisions_lives.
  - intros Hreach. exact (reachable_alive cfg now rnd parse str sort g Hcfg Hreach).
Qed.

Lemma lives_accounting_sample :
  lives (player (checkCollisions sampleConfig value_of_text text_of_value sort_of_values sampleSession))
  = (lives (player sampleSession)
     - Z.of_nat (hitsOn (player sampleSession)
                        (enemyBullets (bulletsResolved sampleConfig sampleSession))))%Z /\
  (state sampleSession = gameOver \/ state sampleSession = gameClear \/
   (1 <= lives (player sampleSession))%Z).
Proof.
  destruct (lives_accounting sampleConfig (fun _ => 5000) (fun _ => 1 / 2)
              value_of_text text_of_value sort_of_values sampleSession) as [Hloss Hleft].
  - simpl. lia.
  - split; [exact Hloss|]. apply Hleft. exists ∅, []. unfold sampleSession, run. cbn [fold_left]. reflexivity.
Defined.

(** ** Clearing the round *)

Lemma checkCollision_horizontal (a b : GameObject) :
  y (position a) = y (position b) ->
  x (position b) <= x (position a) ->
  x (position a) - x (position b) < radius a + radius b ->
  checkCollision a b = true.
Proof.
  intros Hy Hx Hclose. unfold checkCollision.
  apply Rltb_true. rewrite distance_horizontal; assumption.
Qed.

(** C5, amended.  Take a collision resolution that starts in state
    [playing] and whose three loops leave no enemy.  If no hit of this frame
    has taken the last life, the state is still [playing] when the closing
    test runs: the state becomes [gameClear], and the storage is the one on
    entry after a single [saveHighScore] of [score + lives * 100]; the score
    itself is left as it is, and the list that this [saveHighScore] returned
    is handed to the display.  If a hit of this frame has taken the last
    life, the state is [gameOver] when the closing test runs and the test
    does nothing: the state stays [gameOver], and no bonus is saved. *)
Theorem roundClear_bonus cfg parse str sort (g : Game) :
  state g = playing ->
  enemies (resolveHits cfg parse str sort g) = [] ->
  let before := resolveHits cfg parse str sort g in
  let cleared := checkCollisions cfg parse str sort g in
  let hits := hitsOn (player g) (enemyBullets (bulletsResolved cfg g)) in
  let livesBonus := (lives (player before) * 100)%Z in
  let finalScore := (score before + livesBonus)%Z in
  (livesExhausted (player g) hits = false ->
   state before = playing /\
   state cleared = gameClear /\
   localStorage cleared
   = snd (saveHighScore parse str sort finalScore (localStorage g)) /\
   score cleared = score before /\
   player cleared = player before /\
   calls cleared
   = Dom_showOverlay (GameClearOverlay (score before) livesBonus finalScore) false
     :: Dom_updateHighScoresDisplay
          (fst (saveHighScore parse str sort finalScore (localStorage g)))
     :: Audio_playGameClear :: Audio_stopBGM :: calls before) /\
  (livesExhausted (player g) hits = true ->
   state before = gameOver /\
   cleared = before).
Proof.
  intros Hentry Hnone before cleared hits livesBonus finalScore.
  destruct (resolveHits_spec cfg parse str sort g) as (_ & Hs & Hl & _).
  cbn zeta in Hs, Hl. specialize (Hs Hentry).
  fold before in Hs, Hl. fold hits in Hs, Hl.
  subst cleared. unfold checkCollisions. cbn zeta. fold before.
  unfold roundClearCheck. fold before in Hnone.
  split; intros Hx; rewrite Hx in Hs.
  - specialize (Hl Hx). split; [exact Hs|].
    rewrite Hnone, Hs, bool_decide_eq_true_2 by reflexivity.
    cbn [andb GameState_eqb]. unfold gameClear_, saveHighScore.
    cbn. rewrite Hl. repeat split.
  - split; [exact Hs|]. rewrite Hs, andb_false_r. reflexivity.
Qed.

Lemma roundClear_bonus_sample :
  let before := resolveHits sampleConfig value_of_text text_of_value sort_of_values lastEnemyGame in
  let cleared := checkCollisions sampleConfig value_of_text text_of_value sort_of_values lastEnemyGame in
  let livesBonus := (lives (player before) * 100)%Z in
  let finalScore := (score before + livesBonus)%Z in
  state before = playing /\
  state cleared = gameClear /\
  localStorage cleared
  = snd (saveHighScore value_of_text text_of_value sort_of_values finalScore
           (localStorage lastEnemyGame)) /\
  score cleared = score before /\
  player cleared = player before /\
  calls cleared
  = Dom_showOverlay (GameClearOverlay (score before) livesBonus finalScore) false
    :: Dom_updateHighScoresDisplay
         (fst (saveHighScore value_of_text text_of_value sort_of_values finalScore
                 (localStorage lastEnemyGame)))
    :: Audio_playGameClear :: Audio_stopBGM :: calls before.
Proof.
  assert (Hhit :
    checkCollision
      (mkGameObject (mkVector2D 210 150) (mkVector2D 8 0) 4)
      (mkGameObject (mkVector2D 200 150) (mkVector2D 0 0) 15) = true).
  { apply checkCollision_horizontal; simpl; lra. }
  apply (roundClear_bonus sampleConfig value_of_text text_of_value sort_of_values lastEnemyGame).
  - reflexivity.
  - unfold resolveHits, lastEnemyGame.
    cbn -[checkCollision]. rewrite Hhit. reflexivity.
  - unfold bulletsResolved, lastEnemyGame.
    cbn -[checkCollision]. rewrite Hhit. reflexivity.
Defined.

(** The numbers of that scenario: 200 points and 100 for the last enemy,
    three lives, and a final score of 600 in the storage. *)
Example roundClear_sample_numbers :
  score (resolveHits sampleConfig value_of_text text_of_value sort_of_values lastEnemyGame) = 300%Z /\
  lives (player (resolveHits sampleConfig value_of_text text_of_value sort_of_values lastEnemyGame))
  = 3%Z /\
  localStorage (checkCollisions sampleConfig value_of_text text_of_value sort_of_values lastEnemyGame)
  = {[ HIGH_SCORES_KEY := "[600,0,0]"%string ]}.
Proof.
  assert (Hhit :
    checkCollision
      (mkGameObject (mkVector2D 210 150) (mkVector2D 8 0) 4)
      (mkGameObject (mkVector2D 200 150) (mkVector2D 0 0) 15) = true).
  { apply checkCollision_horizontal; simpl; lra. }
  assert (Hbefore :
    resolveHits sampleConfig value_of_text text_of_value sort_of_values lastEnemyGame
    = call Audio_playHit
        (call (Dom_updateScore 300)
           (set_score 300 (set_enemies [] (set_playerBullets [] lastEnemyGame))))).
  { unfold resolveHits, lastEnemyGame. cbn -[checkCollision]. rewrite Hhit. reflexivity. }
  split; [rewrite Hbefore; reflexivity|].
  split; [rewrite Hbefore; reflexivity|].
  unfold checkCollisions. cbn zeta. rewrite Hbefore.
  unfold roundClearCheck, gameClear_.
  cbn [enemies state call set_calls set_score set_enemies set_playerBullets lastEnemyGame
       bool_decide decide_rel GameState_eqb andb set_state player lives score localStorage
       createPlayer sampleConfig playerLives].
  rewrite bool_decide_eq_true_2 by reflexivity. cbn [andb].
  destruct (saveHighScore value_of_text text_of_value sort_of_values (300 + 3 * 100) ∅)
    as [highScores storage] eqn:Hsave.
  cbn [localStorage showOverlay call set_calls updateHighScoresDisplay set_localStorage].
  vm_compute in Hsave. injection Hsave as _ <-. reflexivity.
Qed.

(** ** Pausing, and the states in which nothing moves *)

Lemma gameLoop_state_after cfg now rnd parse str sort g :
  state g = playing ->
  state (gameLoop cfg now rnd parse str sort g) = playing \/
  state (gameLoop cfg now rnd parse str sort g) = gameOver \/
  state (gameLoop cfg now rnd parse str sort g) = gameClear.
Proof.
  intros Hplay. rewrite gameLoop_playing by exact Hplay.
  rewrite (standing_state _ _ (requestAnimationFrame_standing _)).
  rewrite (standing_state _ _ (render_standing now _)).
  set (g0 := updateBullets cfg _).
  assert (Hg0 : state g0 = playing).
  { subst g0. rewrite (standing_state _ _ (moved_standing cfg now rnd g)). exact Hplay. }
  unfold checkCollisions. cbn zeta. rewrite roundClearCheck_state.
  destruct (resolveHits_spec cfg parse str sort g0) as (_ & Hs & _). cbn zeta in Hs.
  rewrite (Hs Hg0).
  destruct (bool_decide _ && _); [right; right; reflexivity|].
  destruct (livesExhausted _ _); [right; left | left]; reflexivity.
Qed.

Lemma togglePause_playing cfg now rnd parse str sort g :
  state g = playing ->
  togglePause cfg now rnd parse str sort g
  = showOverlay (PauseOverlay (score g)) true (set_state paused g).
Proof. intros H. unfold togglePause. rewrite H. reflexivity. Qed.

Lemma togglePause_paused cfg now rnd parse str sort g :
  state g = paused ->
  togglePause cfg now rnd parse str sort g
  = gameLoop cfg now rnd parse str sort (hideOverlay (set_state playing g)).
Proof. intros H. unfold togglePause. rewrite H. reflexivity. Qed.

Lemma togglePause_twice cfg now rnd parse str sort g :
  state g = playing ->
  togglePause cfg now rnd parse str sort (togglePause cfg now rnd parse str sort g)
  = gameLoop cfg now rnd parse str sort
      (hideOverlay
         (set_state playing
            (showOverlay (PauseOverlay (score g)) true (set_state paused g)))).
Proof.
  intros H. rewrite (togglePause_playing _ _ _ _ _ _ g H).
  apply togglePause_paused. reflexivity.
Qed.

(** C3, amended.  The pause action is a toggle.  From [playing] it leads to
    [paused]; applied again it resumes: the state is set back to [playing]
    and one frame of the game loop runs at once, so that the state after the
    second call is [playing], [gameOver] or [gameClear], and not [paused]. *)
Theorem togglePause_toggles cfg now rnd parse str sort (g : Game) :
  state g = playing ->
  let once := togglePause cfg now rnd parse str sort g in
  let twice := togglePause cfg now rnd parse str sort once in
  state once = paused /\
  twice = gameLoop cfg now rnd parse str sort (hideOverlay (set_state playing once)) /\
  (state twice = playing \/ state twice = gameOver \/ state twice = gameClear).
Proof.
  intros Hplay once twice. subst twice once.
  split; [rewrite togglePause_playing by exact Hplay; reflexivity|].
  split.
  - apply togglePause_paused.
    rewrite togglePause_playing by exact Hplay. reflexivity.
  - rewrite togglePause_twice by exact Hplay.
    apply gameLoop_state_after. reflexivity.
Qed.

Lemma togglePause_toggles_sample :
  let once :=
    togglePause sampleConfig (fun _ => 0) (fun _ => 1 / 2)
      value_of_text text_of_value sort_of_values quietGame in
  let twice :=
    togglePause sampleConfig (fun _ => 0) (fun _ => 1 / 2)
      value_of_text text_of_value sort_of_values once in
  state once = paused /\
  twice
  = gameLoop sampleConfig (fun _ => 0) (fun _ => 1 / 2)
      value_of_text text_of_value sort_of_values (hideOverlay (set_state playing once)) /\
  (state twice = playing \/ state twice = gameOver \/ state twice = gameClear).
Proof.
  apply (togglePause_toggles sampleConfig (fun _ => 0) (fun _ => 1 / 2)
           value_of_text text_of_value sort_of_values quietGame).
  reflexivity.
Defined.

Lemma handle_final cfg now rnd parse str sort e g :
  state g = gameOver \/ state g = gameClear ->
  e = ClickRestart \/
  (handle cfg now rnd parse str sort e g
   = set_keys (keys (handle cfg now rnd parse str sort e g)) g /\
   state (handle cfg now rnd parse str sort e g) = state g).
Proof.
  intros Hfinal.
  assert (Hloop : gameLoop cfg now rnd parse str sort g = g).
  { apply gameLoop_not_playing. destruct Hfinal; congruence. }
  assert (Hpause : togglePause cfg now rnd parse str sort g = g).
  { unfold togglePause. destruct Hfinal as [H|H]; rewrite H; reflexivity. }
  assert (Hsame : g = set_keys (keys g) g) by (destruct g; reflexivity).
  destruct e; cbn [handle].
  - right. rewrite Hloop. split; [exact Hsame | reflexivity].
  - right. split; reflexivity.
  - right. split; reflexivity.
  - right. rewrite Hpause. split; [exact Hsame | reflexivity].
  - right. rewrite Hpause. split; [exact Hsame | reflexivity].
  - left. reflexivity.
Qed.

Lemma run_final cfg now rnd parse str sort events g :
  state g = gameOver \/ state g = gameClear ->
  Forall (fun e => e <> ClickRestart) events ->
  run cfg now rnd parse str sort events g
  = set_keys (keys (run cfg now rnd parse str sort events g)) g.
Proof.
  intros Hfinal Hevents. revert g Hfinal.
  induction Hevents as [|e events He _ IH]; intros g Hfinal.
  - destruct g; reflexivity.
  - change (run cfg now rnd parse str sort (e :: events) g)
      with (run cfg now rnd parse str sort events (handle cfg now rnd parse str sort e g)).
    destruct (handle_final cfg now rnd parse str sort e g Hfinal) as [Hr|(Hkeys & _)];
      [contradiction|].
    remember (keys (handle cfg now rnd parse str sort e g)) as held eqn:Hheld.
    rewrite Hkeys. clear Hkeys Hheld.
    rewrite (IH (set_keys held g) Hfinal) at 1. reflexivity.
Qed.

(** C4.  In the states [paused], [gameOver] and [gameClear] a frame changes
    nothing at all: the game loop returns the session as it found it.  In
    the states [gameOver] and [gameClear], any event other than a click on the
    restart button changes at most the set of held keys, so the state stays
    what it is; the same holds for any sequence of such events. *)
Theorem frozen_unless_playing cfg now rnd parse str sort (g : Game) :
  state g = paused \/ state g = gameOver \/ state g = gameClear ->
  gameLoop cfg now rnd parse str sort g = g /\
  (state g = gameOver \/ state g = gameClear ->
   (forall e : Event,
      e = ClickRestart \/
      (handle cfg now rnd parse str sort e g
       = set_keys (keys (handle cfg now rnd parse str sort e g)) g /\
       state (handle cfg now rnd parse str sort e g) = state g)) /\
   (forall events : list Event,
      Forall (fun e => e <> ClickRestart) events ->
      run cfg now rnd parse str sort events g
      = set_keys (keys (run cfg now rnd parse str sort events g)) g /\
      state (run cfg now rnd parse str sort events g) = state g)).
Proof.
  intros Hfrozen. split.
  - apply gameLoop_not_playing. destruct Hfrozen as [H|[H|H]]; congruence.
  - intros Hfinal. split.
    + intros e. apply handle_final, Hfinal.
    + intros events Hevents.
      pose proof (run_final cfg now rnd parse str sort events g Hfinal Hevents) as Hrun.
      split; [exact Hrun | rewrite Hrun; reflexivity].
Qed.

Lemma frozen_unless_playing_sample :
  gameLoop sampleConfig (fun _ => 0) (fun _ => 1 / 2) value_of_text text_of_value sort_of_values
    (set_state gameOver crowdedGame)
  = set_state gameOver crowdedGame /\
  forall e : Event,
    e = ClickRestart \/
    (handle sampleConfig (fun _ => 0) (fun _ => 1 / 2) value_of_text text_of_value sort_of_values e
       (set_state gameOver crowdedGame)
     = set_keys
         (keys (handle sampleConfig (fun _ => 0) (fun _ => 1 / 2)
                  value_of_text text_of_value sort_of_values e (set_state gameOver crowdedGame)))
         (set_state gameOver crowdedGame) /\
     state (handle sampleConfig (fun _ => 0) (fun _ => 1 / 2)
              value_of_text text_of_value sort_of_values e (set_state gameOver crowdedGame))
     = gameOver).
Proof.
  destruct (frozen_unless_playing sampleConfig (fun _ => 0) (fun _ => 1 / 2)
              value_of_text text_of_value sort_of_values (set_state gameOver crowdedGame))
    as [Hloop Hevents].
  - right; left. reflexivity.
  - split; [exact Hloop|].
    destruct Hevents as [Hone _]; [left; reflexivity | exact Hone].
Defined.

(** ** A frame in which nothing happens *)

Lemma updateEnemy_bystanders cfg rnd now interval ref g :
  playerBullets (updateEnemy cfg rnd now interval ref g) = playerBullets g /\
  enemies (updateEnemy cfg rnd now interval ref g) = enemies g.
Proof.
  unfold updateEnemy, Math_random_call.
  repeat match goal with
         | |- context [if ?c then _ else _] => destruct c
         end;
    rewrite ?shootEnemyBullets_eq; split; reflexivity.
Qed.

Lemma updateEnemy_holds_fire cfg rnd now interval ref g :
  now - Enemy_lastShotTime (deref (heap g) ref) <= interval ->
  enemyBullets (updateEnemy cfg rnd now interval ref g) = enemyBullets g.
Proof.
  intros Hearly. unfold updateEnemy, Math_random_call.
  repeat match goal with
         | |- context [if ?c then _ else _] => destruct c eqn:?
         end;
    try reflexivity;
    match goal with
    | H : Rltb interval _ = true |- _ =>
        apply Rltb_true in H; cbn [Enemy_lastShotTime Enemy_on] in H; lra
    end.
Qed.

Lemma updatePlayer_idle cfg now g :
  has "m" g = false -> exists p, updatePlayer cfg now g = set_player p g.
Proof.
  intros Hm. unfold updatePlayer.
  match goal with
  | |- context [let '(dx, dy) := ?c in _] => destruct c as [dx dy]
  end.
  match goal with
  | |- context [if has "m" ?g' then _ else _] =>
      change (has "m" g') with (has "m" g); rewrite Hm
  end.
  eexists. reflexivity.
Qed.

Lemma checkCollisions_nothing_flying cfg parse str sort g :
  playerBullets g = [] -> enemyBullets g = [] ->
  checkCollisions cfg parse str sort g = roundClearCheck parse str sort g.
Proof.
  intros Hpb Heb. unfold checkCollisions, resolveHits. cbn zeta.
  rewrite Hpb. cbn [length playerBulletsVsEnemies].
  rewrite Hpb. cbn [length playerBulletsVsEnemyBullets].
  rewrite Heb. reflexivity.
Qed.

Lemma quiet_frame rnd parse str sort (g : Game) :
  state g = playing ->
  keys g = ∅ ->
  playerBullets g = [] ->
  enemyBullets g = [] ->
  enemies g = [O] ->
  0 - Enemy_lastShotTime (deref (heap g) O) <= enemyShootInterval sampleConfig / 2 ->
  state (gameLoop sampleConfig (fun _ => 0) rnd parse str sort g) = playing.
Proof.
  intros Hplay Hkeys Hpb Heb Hen Hshot.
  rewrite gameLoop_playing by exact Hplay.
  rewrite (standing_state _ _ (requestAnimationFrame_standing _)).
  rewrite (standing_state _ _ (render_standing _ _)).
  destruct (updatePlayer_idle sampleConfig (fun _ => 0) g) as [p Hp].
  { unfold has. rewrite Hkeys. reflexivity. }
  rewrite Hp.
  set (g1 := updateEnemies _ _ _ _).
  assert (H1 : playerBullets g1 = [] /\ enemies g1 = [O] /\ enemyBullets g1 = []
               /\ state g1 = playing).
  { subst g1. unfold updateEnemies, Date_now_call.
    cbn [enemies set_clock set_player]. rewrite Hen. cbn [fold_left].
    match goal with
    | |- context [updateEnemy ?c ?r ?n ?i ?ref ?h] =>
        destruct (updateEnemy_bystanders c r n i ref h) as (Hb1 & Hb2);
        pose proof (updateEnemy_holds_fire c r n i ref h) as Hb3;
        pose proof (standing_state _ _ (updateEnemy_standing c r n i ref h)) as Hb4
    end.
    rewrite Hb1, Hb2, Hb3, Hb4.
    - cbn [playerBullets enemies enemyBullets state set_clock set_player].
      repeat split; assumption.
    - cbn [heap set_clock set_player gameStartTime].
      destruct (Rleb _ _); simpl in *; lra. }
  destruct H1 as (H1a & H1b & H1c & H1d).
  rewrite checkCollisions_nothing_flying.
  - rewrite roundClearCheck_state.
    change (enemies (updateBullets sampleConfig g1)) with (enemies g1).
    rewrite H1b. rewrite bool_decide_eq_false_2 by discriminate. 
    cbn [andb]. change (state (updateBullets sampleConfig g1)) with (state g1).
    exact H1d.
  - rewrite updateBullets_playerBullets, H1a. reflexivity.
  - change (enemyBullets (updateBullets sampleConfig g1))
      with (List.filter (enemyBulletOnScreen sampleConfig)
              (map updateEnemyBullet (enemyBullets g1))).
    rewrite H1c. reflexivity.
Qed.

(** C3, as stated, fails.  In [quietGame] the state is [playing]; one pause
    action leads to [paused], and a second one leads back to [playing]. *)
Lemma togglePause_twice_resumes :
  state quietGame = playing /\
  state (togglePause sampleConfig (fun _ => 0) (fun _ => 1 / 2)
           value_of_text text_of_value sort_of_values quietGame) = paused /\
  state (togglePause sampleConfig (fun _ => 0) (fun _ => 1 / 2)
           value_of_text text_of_value sort_of_values
           (togglePause sampleConfig (fun _ => 0) (fun _ => 1 / 2)
              value_of_text text_of_value sort_of_values quietGame)) = playing.
Proof.
  split; [reflexivity|]. split; [reflexivity|].
  rewrite togglePause_twice by reflexivity.
  apply quiet_frame; try reflexivity.
  cbn. lra.
Qed.

(** ** High scores *)

Lemma descending_first_occurrence (score : Z) (l : list Z) :
  StronglySorted descending l -> In score l ->
  exists j, l !! j = Some score /\ (j <= scoresAbove score l)%nat.
Proof.
  induction 1 as [|a l Hsorted IH Hall]; intros Hin; [destruct Hin|].
  destruct (Z.eq_dec a score) as [->|Hne].
  - exists O. split; [reflexivity | lia].
  - destruct Hin as [Heq|Hin]; [contradiction|].
    destruct (IH Hin) as (j & Hj & Hle).
    exists (S j). split; [exact Hj|].
    assert (Ha : (score < a)%Z).
    { rewrite Forall_forall in Hall. specialize (Hall score).
      unfold descending in Hall.
      assert (score <= a)%Z by (apply Hall, list_elem_of_In, Hin). lia. }
    unfold scoresAbove in *. rewrite filter_cons_True by exact Ha.
    simpl. lia.
Qed.

Lemma scoresAbove_sorted (score : Z) (l : list Z) :
  scoresAbove score (merge_sort descending (l ++ [score])) = scoresAbove score l.
Proof.
  unfold scoresAbove. rewrite merge_sort_Permutation.
  rewrite filter_app, filter_cons_False, filter_nil, app_nil_r by lia.
  reflexivity.
Qed.

Lemma ranked_score_is_kept (score : Z) (l : list Z) :
  (scoresAbove score l < 3)%nat ->
  In score (take 3 (merge_sort descending (l ++ [score]))).
Proof.
  intros Hfew.
  destruct (descending_first_occurrence score (merge_sort descending (l ++ [score])))
    as (j & Hj & Hle).
  - apply StronglySorted_merge_sort; apply _.
  - apply list_elem_of_In. rewrite merge_sort_Permutation.
    apply list_elem_of_In, in_or_app. right. left. reflexivity.
  - rewrite scoresAbove_sorted in Hle.
    apply list_elem_of_In, list_elem_of_lookup. exists j.
    rewrite lookup_take_lt by lia. exact Hj.
Qed.

Lemma getHighScores_default parse (storage : gmap string string) :
  storage !! HIGH_SCORES_KEY = None \/
  storage !! HIGH_SCORES_KEY = Some ""%string \/
  (exists s, storage !! HIGH_SCORES_KEY = Some s /\
             (parse s = None \/
              exists v, parse s = Some v /\ Array_isArray v = false)) ->
  getHighScores parse storage = noScores.
Proof.
  unfold getHighScores. intros [H|[H|(s & H & Hs)]]; rewrite H.
  - reflexivity.
  - reflexivity.
  - destruct (String.eqb s ""); [reflexivity|].
    destruct Hs as [Hs|(v & Hs & Hv)]; rewrite Hs; [reflexivity|].
    destruct v; try reflexivity. discriminate.
Qed.

Lemma getHighScores_array parse (storage : gmap string string) s elems :
  storage !! HIGH_SCORES_KEY = Some s -> String.eqb s "" = false ->
  parse s = Some (JArray elems) ->
  getHighScores parse storage = elems.
Proof.
  intros Hs Hne Hparse. unfold getHighScores. rewrite Hs, Hne, Hparse. reflexivity.
Qed.

(** On an array of integers, [saveHighScore] keeps the three highest of the
    stored scores and the new one. *)
Lemma saveHighScore_integers parse stringify sort storage (stored : list Z) newScore :
  sortsIntegers sort ->
  getHighScores parse storage = map JInt stored ->
  fst (saveHighScore parse stringify sort newScore storage)
  = map JInt (take 3 (merge_sort descending (stored ++ [newScore]))).
Proof.
  intros Hsort Hstored. unfold saveHighScore. cbn [fst]. rewrite Hstored.
  change [JInt newScore] with (map JInt [newScore]).
  rewrite <- map_app, Hsort. apply firstn_map.
Qed.



Lemma getMuteState_default : getMuteState ∅ = false.
Proof. reflexivity. Qed.

Lemma getMuteState_saveMuteState muted storage :
  getMuteState (saveMuteState muted storage) = muted.
Proof.
  unfold getMuteState, saveMuteState. rewrite lookup_insert_eq.
  destruct muted; reflexivity.
Qed.

Lemma getHighScores_saveMuteState parse muted storage :
  getHighScores parse (saveMuteState muted storage) = getHighScores parse storage.
Proof.
  unfold getHighScores, saveMuteState.
  rewrite lookup_insert_ne by discriminate. reflexivity.
Qed.




Example saveHighScore_ranked :
  saveHighScore value_of_text text_of_value sort_of_values 250
    {[ HIGH_SCORES_KEY := "[300,200,100]"%string ]}
  = ([JInt 300; JInt 250; JInt 200], {[ HIGH_SCORES_KEY := "[300,250,200]"%string ]}).
Proof. vm_compute. reflexivity. Qed.

Example saveHighScore_unparsable :
  saveHighScore value_of_text text_of_value sort_of_values 250
    {[ HIGH_SCORES_KEY := "{oops"%string ]}
  = ([JInt 250; JInt 0; JInt 0], {[ HIGH_SCORES_KEY := "[250,0,0]"%string ]}).
Proof. vm_compute. reflexivity. Qed.

(** Entries that are not numbers.  On an array of three texts and a number
    every comparison yields [NaN], and a sort that then leaves the array as
    it is puts the new score behind the three stored entries, where it is
    cut off: [saveHighScore] returns the stored entries. *)
Lemma saveHighScore_behind_three_entries parse stringify storage (a b c : JsonValue)
    (newScore : Z) :
  getHighScores parse storage = [a; b; c] ->
  fst (saveHighScore parse stringify (fun scores => scores) newScore storage) = [a; b; c].
Proof. intros Hstored. unfold saveHighScore. cbn [fst]. rewrite Hstored. reflexivity. Qed.

(** ** Starting a session *)

Lemma start_ready cfg now rnd parse stringify sort (g : Game) :
  exists ready : Game,
    start cfg now rnd parse stringify sort g
    = gameLoop cfg now rnd parse stringify sort ready /\
    localStorage ready = snd (saveHighScore parse stringify sort 0 (localStorage g)) /\
    score ready = score g /\
    player ready = player g /\
    enemies ready = enemies g /\
    playerBullets ready = playerBullets g /\
    enemyBullets ready = enemyBullets g /\
    state ready = state g.
Proof.
  unfold start, saveHighScore, Date_now_call.
  eexists. split; [reflexivity|].
  cbn. repeat split.
Qed.

(** C10.  [start] calls [saveHighScore(0)] before the first frame: the
    session that enters the game loop has the score, the lives and the
    entities it was constructed with, and a storage in which the high-score
    key has been overwritten.  When the text stored under the key parses to
    an array of integers, what is written is the text of the three highest of
    those integers and [0], in descending order, and that list holds a [0]
    whenever fewer than three stored scores exceed [0]; when nothing usable
    is stored, what is written is the text of [[0,0,0]]. *)
Theorem start_saves_zero cfg now rnd parse stringify sort (g : Game) :
  exists ready : Game,
    start cfg now rnd parse stringify sort g
    = gameLoop cfg now rnd parse stringify sort ready /\
    score ready = score g /\
    player ready = player g /\
    enemies ready = enemies g /\
    playerBullets ready = playerBullets g /\
    enemyBullets ready = enemyBullets g /\
    state ready = state g /\
    localStorage ready
    = <[HIGH_SCORES_KEY :=
          stringify
            (JArray (take 3 (sort (getHighScores parse (localStorage g) ++ [JInt 0]))))]>
        (localStorage g) /\
    (forall (text : string) (stored : list Z),
       sortsIntegers sort ->
       localStorage g !! HIGH_SCORES_KEY = Some text ->
       String.eqb text "" = false ->
       parse text = Some (JArray (map JInt stored)) ->
       let written := take 3 (merge_sort descending (stored ++ [0%Z])) in
       localStorage ready
       = <[HIGH_SCORES_KEY := stringify (JArray (map JInt written))]> (localStorage g) /\
       ((scoresAbove 0 stored < 3)%nat -> In 0%Z written)) /\
    (sortsIntegers sort ->
     localStorage g !! HIGH_SCORES_KEY = None \/
     localStorage g !! HIGH_SCORES_KEY = Some ""%string \/
     (exists text, localStorage g !! HIGH_SCORES_KEY = Some text /\
                   (parse text = None \/
                    exists v, parse text = Some v /\ Array_isArray v = false)) ->
     localStorage ready
     = <[HIGH_SCORES_KEY := stringify (JArray [JInt 0; JInt 0; JInt 0])]>
         (localStorage g)).
Proof.
  destruct (start_ready cfg now rnd parse stringify sort g)
    as (ready & Hstart & Hstorage & Hsc & Hp & He & Hpb & Heb & Hst).
  exists ready. do 7 (split; [assumption|]).
  split; [exact Hstorage|].
  split.
  - intros text stored Hsort Htext Hne Hparse written.
    split; [|apply ranked_score_is_kept].
    rewrite Hstorage. unfold saveHighScore. cbn [snd]. do 3 f_equal.
    apply (saveHighScore_integers parse stringify sort (localStorage g) stored 0 Hsort).
    apply (getHighScores_array parse (localStorage g) text); assumption.
  - intros Hsort Hdefault.
    rewrite Hstorage. unfold saveHighScore. cbn [snd]. do 3 f_equal.
    apply (saveHighScore_integers parse stringify sort (localStorage g) [0; 0; 0]%Z 0 Hsort).
    apply getHighScores_default, Hdefault.
Qed.

(** With the text [[500,20]] stored, [start] leaves the text [[500,20,0]]. *)
Lemma start_saves_zero_sample :
  exists ready : Game,
    start sampleConfig (fun _ => 5000) (fun _ => 1 / 2)
      value_of_text text_of_value sort_of_values
      (new_Game sampleConfig (fun _ => 5000) (fun _ => 1 / 2)
         {[ HIGH_SCORES_KEY := "[500,20]"%string ]})
    = gameLoop sampleConfig (fun _ => 5000) (fun _ => 1 / 2)
        value_of_text text_of_value sort_of_values ready /\
    localStorage ready = {[ HIGH_SCORES_KEY := "[500,20,0]"%string ]}.
Proof.
  destruct (start_saves_zero sampleConfig (fun _ => 5000) (fun _ => 1 / 2)
              value_of_text text_of_value sort_of_values
              (new_Game sampleConfig (fun _ => 5000) (fun _ => 1 / 2)
                 {[ HIGH_SCORES_KEY := "[500,20]"%string ]}))
    as (ready & Hstart & _ & _ & _ & _ & _ & _ & _ & Hwritten & _).
  exists ready. split; [exact Hstart|].
  destruct (Hwritten "[500,20]"%string [500; 20]%Z sort_of_values_integers)
    as [Hstorage _]; [reflexivity | reflexivity | reflexivity |].
  rewrite Hstorage. vm_compute. reflexivity.
Defined.

Example start_writes_zeros_to_empty_storage :
  saveHighScore value_of_text text_of_value sort_of_values 0 ∅
  = ([JInt 0; JInt 0; JInt 0], {[ HIGH_SCORES_KEY := "[0,0,0]"%string ]}).
Proof. vm_compute. reflexivity. Qed.

Example start_adds_zero_to_short_list :
  saveHighScore value_of_text text_of_value sort_of_values 0
    {[ HIGH_SCORES_KEY := "[500,20]"%string ]}
  = ([JInt 500; JInt 20; JInt 0], {[ HIGH_SCORES_KEY := "[500,20,0]"%string ]}).
Proof. vm_compute. reflexivity. Qed.

(** ** More geometry: distances, unit vectors, clamping *)

Lemma sum_squares_zero (a b : R) : a * a + b * b = 0 -> a = 0 /\ b = 0.
Proof.
  intros H. pose proof (Rle_0_sqr a) as Ha. pose proof (Rle_0_sqr b) as Hb.
  unfold Rsqr in Ha, Hb. split; apply Rsqr_0_uniq; unfold Rsqr; lra.
Qed.

Lemma distance_self (a : Vector2D) : distance a a = 0.
Proof.
  unfold distance.
  replace ((x a - x a) * (x a - x a) + (y a - y a) * (y a - y a)) with 0 by ring.
  apply sqrt_0.
Qed.

Lemma distance_zero_eq (a b : Vector2D) : distance a b = 0 -> a = b.
Proof.
  unfold distance. intros H.
  assert (Hsq : (x a - x b) * (x a - x b) + (y a - y b) * (y a - y b) = 0).
  { apply sqrt_eq_0; [|exact H].
    apply Rplus_le_le_0_compat; apply Rle_0_sqr. }
  apply sum_squares_zero in Hsq. destruct Hsq as [Hx Hy].
  destruct a, b; simpl in *. f_equal; lra.
Qed.

Lemma distance_triangle (a b c : Vector2D) :
  distance a c <= distance a b + distance b c.
Proof.
  pose proof (triangle (x a) (y a) (x c) (y c) (x b) (y b)) as H.
  unfold dist_euc, Rsqr in H. exact H.
Qed.

(** X1.  [distance] is a metric on the plane: it is never negative, it is
    zero from a point to itself, it does not depend on the order of its
    arguments, two points at distance zero are the same point, and the
    triangle inequality holds. *)
Theorem distance_metric (a b c : Vector2D) :
  0 <= distance a b /\
  distance a a = 0 /\
  distance a b = distance b a /\
  (distance a b = 0 -> a = b) /\
  distance a c <= distance a b + distance b c.
Proof.
  split; [apply distance_nonneg|].
  split; [apply distance_self|].
  split; [apply distance_sym|].
  split; [apply distance_zero_eq|].
  apply distance_triangle.
Qed.

Lemma norm_pos (v : Vector2D) :
  x v <> 0 \/ y v <> 0 -> 0 < sqrt (x v * x v + y v * y v).
Proof.
  intros H. apply sqrt_lt_R0.
  pose proof (Rle_0_sqr (x v)) as Ha. pose proof (Rle_0_sqr (y v)) as Hb.
  unfold Rsqr in Ha, Hb.
  destruct H as [H|H]; apply Rsqr_pos_lt in H; unfold Rsqr in H; lra.
Qed.

(** What [normalize] returns for a vector that is not the zero vector: the
    vector divided by its length, which is a unit vector. *)
Lemma normalize_nonzero (v : Vector2D) :
  x v <> 0 \/ y v <> 0 ->
  0 < sqrt (x v * x v + y v * y v) /\
  x (normalize v) * x (normalize v) + y (normalize v) * y (normalize v) = 1 /\
  x v = sqrt (x v * x v + y v * y v) * x (normalize v) /\
  y v = sqrt (x v * x v + y v * y v) * y (normalize v).
Proof.
  intros Hnz. pose proof (norm_pos v Hnz) as Hlen.
  set (len := sqrt (x v * x v + y v * y v)) in *.
  assert (Hu : normalize v = mkVector2D (x v / len) (y v / len)).
  { unfold normalize. fold len.
    destruct (Reqb len 0) eqn:E; [apply Reqb_true in E; lra | reflexivity]. }
  assert (Hsq : len * len = x v * x v + y v * y v).
  { subst len. apply sqrt_sqrt.
    apply Rplus_le_le_0_compat; apply Rle_0_sqr. }
  split; [exact Hlen|]. rewrite Hu. cbn [x y].
  split.
  - replace (x v / len * (x v / len) + y v / len * (y v / len))
      with ((x v * x v + y v * y v) / (len * len)) by (field; lra).
    rewrite <- Hsq. field. lra.
  - split; field; lra.
Qed.

(** X2.  [normalize] maps the zero vector to the zero vector (the guard
    against a division by zero) and every other vector to the unit vector of
    the same direction: the result has length 1 and the argument is the
    result scaled by the argument's length. *)
Theorem normalize_unit (v : Vector2D) :
  (x v = 0 /\ y v = 0 -> normalize v = mkVector2D 0 0) /\
  (x v <> 0 \/ y v <> 0 ->
   let len := sqrt (x v * x v + y v * y v) in
   let u := normalize v in
   0 < len /\
   sqrt (x u * x u + y u * y u) = 1 /\
   x v = len * x u /\ y v = len * y u).
Proof.
  split; [intros [Hx Hy]; apply normalize_zero; assumption|].
  intros Hnz len u.
  destruct (normalize_nonzero v Hnz) as (Hlen & Hunit & Hx & Hy).
  split; [exact Hlen|].
  split; [|split; assumption].
  subst u. rewrite Hunit. apply sqrt_1.
Qed.

Lemma clamp_between (v lo hi : R) : lo <= hi -> lo <= clamp v lo hi <= hi.
Proof.
  intros. unfold clamp, Rmax, Rmin.
  destruct (Rle_dec hi v); destruct (Rle_dec lo _); lra.
Qed.

Lemma clamp_below (v lo hi : R) : v <= lo -> clamp v lo hi = lo.
Proof.
  intros. unfold clamp, Rmax, Rmin.
  destruct (Rle_dec hi v); destruct (Rle_dec lo _); lra.
Qed.

Lemma clamp_crossed (v lo hi : R) : hi < lo -> clamp v lo hi = lo.
Proof.
  intros. unfold clamp, Rmax, Rmin.
  destruct (Rle_dec hi v); destruct (Rle_dec lo _); lra.
Qed.

(** X3.  [clamp value lo hi] = max(lo, min(hi, value)): for lo <= hi the
    result lies in [lo, hi], a value inside the interval is returned
    unchanged, a value below it gives lo and a value above it gives hi; for
    crossed bounds (hi < lo) the result is lo whatever the value; and clamping
    twice is the same as clamping once. *)
Theorem clamp_range (value lo hi : R) :
  (lo <= hi -> lo <= clamp value lo hi <= hi) /\
  (lo <= value <= hi -> clamp value lo hi = value) /\
  (value <= lo -> clamp value lo hi = lo) /\
  (lo <= hi -> hi <= value -> clamp value lo hi = hi) /\
  (hi < lo -> clamp value lo hi = lo) /\
  clamp (clamp value lo hi) lo hi = clamp value lo hi.
Proof.
  split; [apply clamp_between|].
  split; [intros []; apply clamp_inside; assumption|].
  split; [apply clamp_below|].
  split; [intros; apply clamp_above; assumption|].
  split; [apply clamp_crossed|].
  destruct (Rle_dec lo hi) as [Hle|Hgt].
  - apply clamp_inside; apply clamp_between, Hle.
  - rewrite !clamp_crossed by lra. reflexivity.
Qed.

(** The direction from a point to a different point is a unit vector, and
    the target is reached by going the distance along it. *)
Lemma direction_towards (from to : Vector2D) :
  0 < distance from to ->
  x (getDirectionVector from to) * x (getDirectionVector from to)
  + y (getDirectionVector from to) * y (getDirectionVector from to) = 1 /\
  x to - x from = distance from to * x (getDirectionVector from to) /\
  y to - y from = distance from to * y (getDirectionVector from to).
Proof.
  intros Hpos.
  assert (Hd : sqrt ((x to - x from) * (x to - x from) + (y to - y from) * (y to - y from))
               = distance from to).
  { unfold distance. f_equal. ring. }
  assert (Hnz : x (mkVector2D (x to - x from) (y to - y from)) <> 0 \/
                y (mkVector2D (x to - x from) (y to - y from)) <> 0).
  { cbn [x y]. destruct (Req_dec_T (x to) (x from)) as [Hx|Hx]; [|left; lra].
    destruct (Req_dec_T (y to) (y from)) as [Hy|Hy]; [|right; lra].
    exfalso. rewrite <- Hd, Hx, Hy in Hpos.
    replace ((x from - x from) * (x from - x from) + (y from - y from) * (y from - y from))
      with 0 in Hpos by ring.
    rewrite sqrt_0 in Hpos. lra. }
  destruct (normalize_nonzero _ Hnz) as (_ & Hunit & Hx & Hy).
  cbn [x y] in Hx, Hy. rewrite Hd in Hx, Hy.
  unfold getDirectionVector. repeat split; assumption.
Qed.

Lemma distance_pos (a b : Vector2D) : a <> b -> 0 < distance a b.
Proof.
  intros Hne. destruct (Rle_lt_or_eq_dec _ _ (distance_nonneg a b)) as [H|H];
    [exact H|]. exfalso. apply Hne, distance_zero_eq. symmetry. exact H.
Qed.

(** X4.  [getDirectionVector from to] is the zero vector when both points
    are the same, and otherwise the unit vector pointing from [from] to [to]:
    it has length 1 and [to] = [from] + distance(from, to) x direction. *)
Theorem getDirectionVector_unit (from to : Vector2D) :
  getDirectionVector from from = mkVector2D 0 0 /\
  (from <> to ->
   let d := getDirectionVector from to in
   sqrt (x d * x d + y d * y d) = 1 /\
   x to - x from = distance from to * x d /\
   y to - y from = distance from to * y d /\
   0 < distance from to).
Proof.
  split.
  { unfold getDirectionVector. apply normalize_zero; simpl; lra. }
  intros Hne d. pose proof (distance_pos from to Hne) as Hpos.
  destruct (direction_towards from to Hpos) as (Hunit & Hx & Hy).
  subst d. rewrite Hunit, sqrt_1. repeat split; assumption.
Qed.

(** X5.  [checkCollision] does not depend on the order of its arguments, and
    an object collides with itself exactly when its radius is positive (an
    object of radius 0 collides with nothing at its own position). *)
Theorem checkCollision_symmetric (a b : GameObject) :
  checkCollision a b = checkCollision b a /\
  (checkCollision a a = true <-> 0 < radius a).
Proof.
  split.
  - unfold checkCollision. rewrite distance_sym. f_equal. ring.
  - unfold checkCollision. rewrite Rltb_true, distance_self. split; lra.
Qed.

(** ** More on the persisted values *)


#[global] Instance descending_antisym : AntiSymm eq descending.
Proof. intros a b. unfold descending. lia. Qed.

(** X6.  The mute flag survives a save and a load: [getMuteState] after
    [saveMuteState muted] is [muted].  The two stored values do not disturb
    each other: saving the mute flag leaves the high scores as they are, and
    saving a high score leaves the mute flag as it is.  With nothing stored
    the flag is false, and a stored text counts as muted only if it is
    exactly the text true. *)
Theorem muteState_round_trip parse stringify sort (muted : bool)
    (storage : gmap string string) (newScore : Z) :
  getMuteState (saveMuteState muted storage) = muted /\
  getHighScores parse (saveMuteState muted storage) = getHighScores parse storage /\
  getMuteState (snd (saveHighScore parse stringify sort newScore storage))
  = getMuteState storage /\
  (storage !! MUTE_STATE_KEY = None -> getMuteState storage = false) /\
  (forall text, storage !! MUTE_STATE_KEY = Some text ->
     getMuteState storage = String.eqb text "true").
Proof.
  split; [apply getMuteState_saveMuteState|].
  split; [apply getHighScores_saveMuteState|].
  split.
  { unfold getMuteState, saveHighScore. cbn [snd].
    rewrite lookup_insert_ne by discriminate. reflexivity. }
  split; intros; unfold getMuteState.
  - rewrite H. reflexivity.
  - rewrite H. reflexivity.
Qed.

Lemma saveHighScore_read_back parse stringify sort
    (storage : gmap string string) (newScore : Z) :
  String.eqb
    (stringify (JArray (fst (saveHighScore parse stringify sort newScore storage)))) ""
  = false ->
  parse (stringify (JArray (fst (saveHighScore parse stringify sort newScore storage))))
  = Some (JArray (fst (saveHighScore parse stringify sort newScore storage))) ->
  getHighScores parse (snd (saveHighScore parse stringify sort newScore storage))
  = fst (saveHighScore parse stringify sort newScore storage).
Proof.
  intros Hne Hparse. unfold saveHighScore in *. cbn [fst snd] in *.
  unfold getHighScores at 1. rewrite lookup_insert_eq, Hne, Hparse. reflexivity.
Qed.

(** X7.  What [saveHighScore] returns is what [getHighScores] reads back
    afterwards, provided the host's JSON functions undo each other on the
    array that was written (and the text written is not empty); every other
    key of the storage is left as it is. *)
Theorem saveHighScore_then_getHighScores parse stringify sort
    (storage : gmap string string) (newScore : Z) :
  let topThree := fst (saveHighScore parse stringify sort newScore storage) in
  String.eqb (stringify (JArray topThree)) "" = false ->
  parse (stringify (JArray topThree)) = Some (JArray topThree) ->
  getHighScores parse (snd (saveHighScore parse stringify sort newScore storage))
  = topThree /\
  (forall key, key <> HIGH_SCORES_KEY ->
     snd (saveHighScore parse stringify sort newScore storage) !! key = storage !! key).
Proof.
  intros topThree Hne Hparse. split.
  - apply saveHighScore_read_back; assumption.
  - intros key Hkey. unfold saveHighScore. cbn [snd].
    apply lookup_insert_ne. congruence.
Qed.

Lemma saveHighScore_then_getHighScores_sample :
  getHighScores value_of_text
    (snd (saveHighScore value_of_text text_of_value sort_of_values 250
            {[ HIGH_SCORES_KEY := "[300,200,100]"%string ]}))
  = fst (saveHighScore value_of_text text_of_value sort_of_values 250
           {[ HIGH_SCORES_KEY := "[300,200,100]"%string ]}) /\
  (forall key, key <> HIGH_SCORES_KEY ->
     snd (saveHighScore value_of_text text_of_value sort_of_values 250
            {[ HIGH_SCORES_KEY := "[300,200,100]"%string ]}) !! key
     = ({[ HIGH_SCORES_KEY := "[300,200,100]"%string ]} : gmap string string) !! key).
Proof.
  apply (saveHighScore_then_getHighScores value_of_text text_of_value sort_of_values
           {[ HIGH_SCORES_KEY := "[300,200,100]"%string ]} 250).
  - vm_compute. reflexivity.
  - vm_compute. reflexivity.
Defined.

Lemma rank_in_Permutation score l : rank_in score l ≡ₚ l ++ [score].
Proof.
  induction l as [|s l IH]; simpl; [reflexivity|].
  destruct (s <? score)%Z.
  - change (s :: l ++ [score]) with ((s :: l) ++ [score]).
    rewrite <- Permutation_cons_append. reflexivity.
  - rewrite IH. reflexivity.
Qed.

Lemma rank_in_sorted score l :
  StronglySorted descending l -> StronglySorted descending (rank_in score l).
Proof.
  induction 1 as [|s l Hs IH Hall]; simpl.
  - repeat constructor.
  - destruct (s <? score)%Z eqn:E.
    + apply Z.ltb_lt in E. constructor; [constructor; assumption|].
      constructor; [unfold descending; lia|].
      eapply Forall_impl; [exact Hall|]. unfold descending. intros; lia.
    + apply Z.ltb_ge in E. constructor; [exact IH|].
      rewrite rank_in_Permutation. apply Forall_app. split; [exact Hall|].
      constructor; [exact E | constructor].
Qed.

Lemma sorted_is_rank_in score l :
  StronglySorted descending l ->
  merge_sort descending (l ++ [score]) = rank_in score l.
Proof.
  intros Hl. apply (StronglySorted_unique descending).
  - apply StronglySorted_merge_sort; apply _.
  - apply rank_in_sorted, Hl.
  - rewrite merge_sort_Permutation, rank_in_Permutation. reflexivity.
Qed.

Lemma take_cons_take {A} k (a : A) l : take k (a :: take k l) = take k (a :: l).
Proof.
  destruct k as [|k]; [reflexivity|]. simpl. f_equal.
  rewrite take_take. f_equal. lia.
Qed.

Lemma take_rank_in_take k score l :
  take k (rank_in score (take k l)) = take k (rank_in score l).
Proof.
  revert k. induction l as [|s l IH]; intros k.
  - rewrite take_nil. reflexivity.
  - destruct k as [|k]; [reflexivity|].
    cbn [take rank_in]. destruct (s <? score)%Z.
    + cbn [take]. f_equal. apply take_cons_take.
    + cbn [take]. f_equal. apply IH.
Qed.

Lemma top_three_of_top_three (l : list Z) (score : Z) :
  take 3 (merge_sort descending (take 3 (merge_sort descending l) ++ [score]))
  = take 3 (merge_sort descending (l ++ [score])).
Proof.
  assert (Hs : StronglySorted descending (merge_sort descending l))
    by (apply StronglySorted_merge_sort; apply _).
  rewrite sorted_is_rank_in.
  2:{ rewrite <- (take_drop 3 (merge_sort descending l)) in Hs.
      apply StronglySorted_app_1_l in Hs. exact Hs. }
  rewrite take_rank_in_take, <- sorted_is_rank_in by exact Hs.
  f_equal. apply (StronglySorted_unique descending).
  - apply StronglySorted_merge_sort; apply _.
  - apply StronglySorted_merge_sort; apply _.
  - rewrite !merge_sort_Permutation. reflexivity.
Qed.

Lemma top_three_dominates (l : list Z) (s : Z) :
  StronglySorted descending l -> In s l ->
  In s (take 3 l) \/
  (Forall (fun kept => (s <= kept)%Z) (take 3 l) /\ length (take 3 l) = 3%nat).
Proof.
  intros Hsorted Hin. rewrite <- (take_drop 3 l) in Hin, Hsorted.
  apply in_app_or in Hin. destruct Hin as [Hin|Hin]; [left; exact Hin|].
  right. split.
  - apply Forall_forall. intros kept Hkept.
    apply (StronglySorted_app_1_elem_of descending _ _ kept s Hsorted);
      [exact Hkept | apply list_elem_of_In, Hin].
  - rewrite length_take. destruct (le_lt_dec 3 (length l)) as [|Hshort]; [lia|].
    rewrite drop_ge in Hin by lia. destruct Hin.
Qed.

(** X8.  Saving two scores one after the other keeps the three best of the
    stored scores and both new ones, for a stored array of integers: the
    trimming to three entries at the first save loses nothing that the
    second save would have kept.  Each of the scores is either in the final
    list, or the final list has three entries that are all at least as
    high. *)
Theorem saveHighScore_keeps_three_best parse stringify sort
    (storage : gmap string string) (stored : list Z) (first second : Z) :
  let once := saveHighScore parse stringify sort first storage in
  let twice := saveHighScore parse stringify sort second (snd once) in
  sortsIntegers sort ->
  getHighScores parse storage = map JInt stored ->
  String.eqb (stringify (JArray (fst once))) "" = false ->
  parse (stringify (JArray (fst once))) = Some (JArray (fst once)) ->
  let best := take 3 (merge_sort descending (stored ++ [first; second])) in
  fst twice = map JInt best /\
  (forall s, In s stored \/ s = first \/ s = second ->
     In s best \/
     (Forall (fun kept => (s <= kept)%Z) best /\ length best = 3%nat)).
Proof.
  intros once twice Hsort Hstored Hne Hparse best.
  assert (Hread : getHighScores parse (snd once) = fst once).
  { apply saveHighScore_read_back; assumption. }
  assert (Honce : fst once = map JInt (take 3 (merge_sort descending (stored ++ [first])))).
  { apply saveHighScore_integers; assumption. }
  split.
  - subst twice. rewrite Honce in Hread.
    rewrite (saveHighScore_integers parse stringify sort (snd once) _ second Hsort Hread).
    subst best. rewrite top_three_of_top_three, <- app_assoc. reflexivity.
  - intros s Hs. apply top_three_dominates.
    + apply StronglySorted_merge_sort; apply _.
    + apply list_elem_of_In. rewrite merge_sort_Permutation.
      apply list_elem_of_In, in_or_app. destruct Hs as [Hs | [-> | ->]].
      * left; exact Hs.
      * right; left; reflexivity.
      * right; right; left; reflexivity.
Qed.

Lemma saveHighScore_keeps_three_best_sample :
  let once :=
    saveHighScore value_of_text text_of_value sort_of_values 250
      {[ HIGH_SCORES_KEY := "[300,200,100]"%string ]} in
  let twice := saveHighScore value_of_text text_of_value sort_of_values 400 (snd once) in
  let best := take 3 (merge_sort descending ([300; 200; 100] ++ [250; 400]))%Z in
  best = [400; 300; 250]%Z /\
  fst twice = map JInt best /\
  (forall s,
     In s [300; 200; 100]%Z \/ s = 250%Z \/ s = 400%Z ->
     In s best \/
     (Forall (fun kept => (s <= kept)%Z) best /\ length best = 3%nat)).
Proof.
  split; [vm_compute; reflexivity|].
  apply (saveHighScore_keeps_three_best value_of_text text_of_value sort_of_values
           {[ HIGH_SCORES_KEY := "[300,200,100]"%string ]} [300; 200; 100]%Z 250 400).
  - exact sort_of_values_integers.
  - vm_compute. reflexivity.
  - vm_compute. reflexivity.
  - vm_compute. reflexivity.
Defined.

(** ** What collision resolution conserves, and what it leaves behind *)


Lemma settled_refl cfg g : settled cfg g g.
Proof. unfold settled. repeat split; lia. Qed.

Lemma settled_trans cfg g1 g2 g3 :
  settled cfg g1 g2 -> settled cfg g2 g3 -> settled cfg g1 g3.
Proof. unfold settled. intros (?&?&?&?&?&?) (?&?&?&?&?&?). repeat split; lia. Qed.

Lemma bulletVsEnemies_settled cfg i b n g :
  is_Some (playerBullets g !! i) ->
  settled cfg g (bulletVsEnemies cfg i b n g).
Proof.
  intros Hi. induction n as [|j IH]; cbn [bulletVsEnemies].
  - apply settled_refl.
  - destruct (enemies g !! j) as [r|] eqn:Hj; [|apply settled_refl].
    destruct (checkCollision _ _); [|exact IH].
    unfold settled, scoreBalance, bulletBalance. cbn.
    rewrite !length_delete by (try exact Hi; exists r; exact Hj).
    apply lookup_lt_is_Some in Hi.
    assert (Hjlt : (j < length (enemies g))%nat)
      by (apply lookup_lt_is_Some; exists r; exact Hj).
    replace (Z.of_nat (length (enemies g) - 1))
      with (Z.of_nat (length (enemies g)) - 1)%Z by lia.
    repeat split; lia.
Qed.

Lemma playerBulletsVsEnemies_settled cfg n g :
  settled cfg g (playerBulletsVsEnemies cfg n g).
Proof.
  revert g. induction n as [|i IH]; intros g; cbn [playerBulletsVsEnemies].
  - apply settled_refl.
  - eapply settled_trans; [|apply IH].
    destruct (playerBullets g !! i) as [b|] eqn:Hi; [|apply settled_refl].
    apply bulletVsEnemies_settled. exists b. exact Hi.
Qed.

Lemma bulletVsEnemyBullets_settled cfg i b n g :
  is_Some (playerBullets g !! i) ->
  settled cfg g (bulletVsEnemyBullets i b n g).
Proof.
  intros Hi. induction n as [|j IH]; cbn [bulletVsEnemyBullets].
  - apply settled_refl.
  - destruct (enemyBullets g !! j) as [r|] eqn:Hj; [|apply settled_refl].
    destruct (checkCollision _ _); [|exact IH].
    unfold settled, scoreBalance, bulletBalance. cbn.
    rewrite !length_delete by (try exact Hi; exists r; exact Hj).
    apply lookup_lt_is_Some in Hi.
    assert (j < length (enemyBullets g))%nat by (apply lookup_lt_is_Some; exists r; exact Hj).
    repeat split; lia.
Qed.

Lemma playerBulletsVsEnemyBullets_settled cfg n g :
  settled cfg g (playerBulletsVsEnemyBullets n g).
Proof.
  revert g. induction n as [|i IH]; intros g; cbn [playerBulletsVsEnemyBullets].
  - apply settled_refl.
  - eapply settled_trans; [|apply IH].
    destruct (playerBullets g !! i) as [b|] eqn:Hi; [|apply settled_refl].
    apply bulletVsEnemyBullets_settled. exists b. exact Hi.
Qed.

Lemma hits_and_misses (p : Player) (bs : list Bullet) :
  (hitsOn p bs
   + length (List.filter (fun b => negb (overlapsPlayer p b)) bs))%nat = length bs.
Proof.
  unfold hitsOn. induction bs as [|b bs IH]; simpl; [reflexivity|].
  destruct (overlapsPlayer p b); simpl; lia.
Qed.

Lemma enemyBulletsVsPlayer_settled cfg parse str sort g :
  settled cfg g (enemyBulletsVsPlayer parse str sort (length (enemyBullets g)) g).
Proof.
  destruct (enemyBulletsVsPlayer_spec parse str sort (length (enemyBullets g)) g)
    as (Heb & Hp & _ & _ & Hen & Hsc & Hpb & _); [lia|].
  cbn zeta in Heb, Hp. rewrite take_ge in Heb, Hp by lia.
  rewrite drop_ge, app_nil_r in Heb by lia.
  pose proof (hits_and_misses (player g) (enemyBullets g)) as Hcount.
  unfold settled, scoreBalance, bulletBalance.
  rewrite Heb, Hp, Hen, Hsc, Hpb. cbn [lives].
  repeat split; lia.
Qed.

Lemma roundClearCheck_settled cfg parse str sort g :
  settled cfg g (roundClearCheck parse str sort g).
Proof.
  unfold roundClearCheck. destruct (_ && _); [|apply settled_refl].
  unfold settled, scoreBalance, bulletBalance. cbn. repeat split; lia.
Qed.

Lemma checkCollisions_settled cfg parse str sort g :
  settled cfg g (checkCollisions cfg parse str sort g).
Proof.
  unfold checkCollisions, resolveHits. cbn zeta.
  eapply settled_trans; [|apply roundClearCheck_settled].
  eapply settled_trans; [|apply enemyBulletsVsPlayer_settled].
  eapply settled_trans; [apply playerBulletsVsEnemies_settled|].
  apply playerBulletsVsEnemyBullets_settled.
Qed.

(** X9.  Collision resolution pays [scorePerEnemy] for every enemy it
    removes and changes the score in no other way: the score afterwards is
    the score before plus [scorePerEnemy] times the number of enemies removed
    (and enemies are only ever removed). *)
Theorem checkCollisions_score cfg parse str sort (g : Game) :
  let g' := checkCollisions cfg parse str sort g in
  (length (enemies g') <= length (enemies g))%nat /\
  score g'
  = (score g
     + scorePerEnemy cfg * Z.of_nat (length (enemies g) - length (enemies g')))%Z.
Proof.
  cbn zeta. destruct (checkCollisions_settled cfg parse str sort g) as (Hs & _ & _ & Hen & _).
  split; [exact Hen|]. unfold scoreBalance in Hs.
  rewrite Nat2Z.inj_sub by exact Hen. lia.
Qed.

(** X10.  Collision resolution only removes: the numbers of player bullets,
    enemies and enemy bullets and the number of lives never grow.  Every
    removal is a pair: the player bullets removed plus the lives lost equal
    the enemies removed plus the enemy bullets removed, so a player bullet
    is spent on exactly one enemy or one enemy bullet, and an enemy bullet
    that goes without a player bullet going with it costs exactly one life. *)
Theorem checkCollisions_conservation cfg parse str sort (g : Game) :
  let g' := checkCollisions cfg parse str sort g in
  (length (playerBullets g') <= length (playerBullets g))%nat /\
  (length (enemies g') <= length (enemies g))%nat /\
  (length (enemyBullets g') <= length (enemyBullets g))%nat /\
  (lives (player g') <= lives (player g))%Z /\
  (Z.of_nat (length (playerBullets g) - length (playerBullets g'))
   + (lives (player g) - lives (player g'))
   = Z.of_nat (length (enemies g) - length (enemies g'))
     + Z.of_nat (length (enemyBullets g) - length (enemyBullets g')))%Z.
Proof.
  cbn zeta.
  destruct (checkCollisions_settled cfg parse str sort g) as (_ & Hb & Hpb & Hen & Heb & Hl).
  repeat (split; [assumption|]). unfold bulletBalance in Hb. lia.
Qed.

Lemma Forall_delete_keeps {A} (P : A -> Prop) (l : list A) i :
  Forall P l -> Forall P (delete i l).
Proof.
  intros H. rewrite delete_take_drop. apply Forall_app. split.
  - apply Forall_take, H.
  - apply Forall_drop, H.
Qed.

Lemma bulletVsEnemies_cases cfg i b n g :
  (bulletVsEnemies cfg i b n g = g /\
   ((n <= length (enemies g))%nat ->
    Forall (fun r => checkCollision b (deref (heap g) r) = false)
           (take n (enemies g)))) \/
  (exists j,
     playerBullets (bulletVsEnemies cfg i b n g) = delete i (playerBullets g) /\
     enemies (bulletVsEnemies cfg i b n g) = delete j (enemies g) /\
     enemyBullets (bulletVsEnemies cfg i b n g) = enemyBullets g /\
     heap (bulletVsEnemies cfg i b n g) = heap g).
Proof.
  induction n as [|j IH]; cbn [bulletVsEnemies].
  - left. split; [reflexivity|]. intros _. constructor.
  - destruct (enemies g !! j) as [r|] eqn:Hj.
    + destruct (checkCollision b (deref (heap g) r)) eqn:Hhit.
      * right. exists j. repeat split.
      * destruct IH as [(Hsame & Hclear)|Hhit']; [|right; exact Hhit'].
        left. split; [exact Hsame|]. intros Hn.
        rewrite (take_S_r _ _ _ Hj). apply Forall_app. split.
        -- apply Hclear. lia.
        -- constructor; [exact Hhit | constructor].
    + left. split; [reflexivity|]. intros Hn.
      apply lookup_ge_None in Hj. lia.
Qed.

Lemma playerBulletsVsEnemies_clear cfg n g :
  (n <= length (playerBullets g))%nat ->
  Forall (clearOfEnemies (heap g) (enemies g)) (drop n (playerBullets g)) ->
  Forall (clearOfEnemies (heap (playerBulletsVsEnemies cfg n g))
                         (enemies (playerBulletsVsEnemies cfg n g)))
         (playerBullets (playerBulletsVsEnemies cfg n g)).
Proof.
  revert g. induction n as [|i IH]; intros g Hn Hdone; cbn [playerBulletsVsEnemies].
  - rewrite drop_0 in Hdone. exact Hdone.
  - destruct (lookup_lt_is_Some_2 (playerBullets g) i ltac:(lia)) as [b Hb].
    rewrite Hb.
    destruct (bulletVsEnemies_cases cfg i b (length (enemies g)) g)
      as [(Hsame & Hclear)|(j & Hpb & Hen & _ & Hh)].
    + rewrite Hsame. apply IH; [lia|].
      rewrite (drop_S _ _ _ Hb). constructor; [|exact Hdone].
      unfold clearOfEnemies. specialize (Hclear ltac:(lia)).
      rewrite take_ge in Hclear by lia. exact Hclear.
    + apply IH.
      * rewrite Hpb, length_delete by (exists b; exact Hb). lia.
      * rewrite Hpb, Hen, Hh.
        assert (Hdrop : drop i (delete i (playerBullets g)) = drop (S i) (playerBullets g)).
        { rewrite delete_take_drop. apply drop_app_length'.
          rewrite length_take_le; lia. }
        rewrite Hdrop. eapply Forall_impl; [exact Hdone|].
        intros b' Hb'. unfold clearOfEnemies in *.
        apply Forall_delete_keeps, Hb'.
Qed.

Lemma bulletVsEnemyBullets_cases i b n g :
  (bulletVsEnemyBullets i b n g = g /\
   ((n <= length (enemyBullets g))%nat ->
    Forall (fun other : Bullet => checkCollision b other = false)
           (take n (enemyBullets g)))) \/
  (exists j,
     playerBullets (bulletVsEnemyBullets i b n g) = delete i (playerBullets g) /\
     enemyBullets (bulletVsEnemyBullets i b n g) = delete j (enemyBullets g)).
Proof.
  induction n as [|j IH]; cbn [bulletVsEnemyBullets].
  - left. split; [reflexivity|]. intros _. constructor.
  - destruct (enemyBullets g !! j) as [other|] eqn:Hj.
    + destruct (checkCollision b other) eqn:Hhit.
      * right. exists j. repeat split.
      * destruct IH as [(Hsame & Hclear)|Hhit']; [|right; exact Hhit'].
        left. split; [exact Hsame|]. intros Hn.
        rewrite (take_S_r _ _ _ Hj). apply Forall_app. split.
        -- apply Hclear. lia.
        -- constructor; [exact Hhit | constructor].
    + left. split; [reflexivity|]. intros Hn.
      apply lookup_ge_None in Hj. lia.
Qed.

Lemma playerBulletsVsEnemyBullets_clear n g :
  (n <= length (playerBullets g))%nat ->
  Forall (clearOfBullets (enemyBullets g)) (drop n (playerBullets g)) ->
  Forall (clearOfBullets (enemyBullets (playerBulletsVsEnemyBullets n g)))
         (playerBullets (playerBulletsVsEnemyBullets n g)).
Proof.
  revert g. induction n as [|i IH]; intros g Hn Hdone; cbn [playerBulletsVsEnemyBullets].
  - rewrite drop_0 in Hdone. exact Hdone.
  - destruct (lookup_lt_is_Some_2 (playerBullets g) i ltac:(lia)) as [b Hb].
    rewrite Hb.
    destruct (bulletVsEnemyBullets_cases i b (length (enemyBullets g)) g)
      as [(Hsame & Hclear)|(j & Hpb & Heb)].
    + rewrite Hsame. apply IH; [lia|].
      rewrite (drop_S _ _ _ Hb). constructor; [|exact Hdone].
      unfold clearOfBullets. specialize (Hclear ltac:(lia)).
      rewrite take_ge in Hclear by lia. exact Hclear.
    + apply IH.
      * rewrite Hpb, length_delete by (exists b; exact Hb). lia.
      * rewrite Hpb, Heb.
        assert (Hdrop : drop i (delete i (playerBullets g)) = drop (S i) (playerBullets g)).
        { rewrite delete_take_drop. apply drop_app_length'.
          rewrite length_take_le; lia. }
        rewrite Hdrop. eapply Forall_impl; [exact Hdone|].
        intros b' Hb'. unfold clearOfBullets in *.
        apply Forall_delete_keeps, Hb'.
Qed.

Lemma playerBulletsVsEnemyBullets_keeps (P : Bullet -> Prop) n g :
  Forall P (playerBullets g) ->
  Forall P (playerBullets (playerBulletsVsEnemyBullets n g)).
Proof.
  revert g. induction n as [|i IH]; intros g HP; cbn [playerBulletsVsEnemyBullets].
  - exact HP.
  - apply IH. destruct (playerBullets g !! i) as [b|]; [|exact HP].
    destruct (bulletVsEnemyBullets_cases i b (length (enemyBullets g)) g)
      as [(Hsame & _)|(j & Hpb & _)].
    + rewrite Hsame. exact HP.
    + rewrite Hpb. apply Forall_delete_keeps, HP.
Qed.

(** X11.  Collision resolution is complete: afterwards no player bullet
    that is left overlaps an enemy that is left or an enemy bullet that is
    left, and no enemy bullet that is left overlaps the player. *)
Theorem checkCollisions_separates cfg parse str sort (g : Game) :
  let g' := checkCollisions cfg parse str sort g in
  (forall b : Bullet, In b (playerBullets g') ->
     (forall r, In r (enemies g') -> checkCollision b (deref (heap g') r) = false) /\
     (forall other : Bullet, In other (enemyBullets g') ->
        checkCollision b other = false)) /\
  (forall b : Bullet, In b (enemyBullets g') -> checkCollision b (player g') = false).
Proof.
  cbn zeta. unfold checkCollisions. cbn zeta.
  set (g3 := resolveHits cfg parse str sort g).
  assert (Hround :
    playerBullets (roundClearCheck parse str sort g3) = playerBullets g3 /\
    enemies (roundClearCheck parse str sort g3) = enemies g3 /\
    enemyBullets (roundClearCheck parse str sort g3) = enemyBullets g3 /\
    heap (roundClearCheck parse str sort g3) = heap g3 /\
    player (roundClearCheck parse str sort g3) = player g3).
  { unfold roundClearCheck. destruct (_ && _); repeat split. }
  destruct Hround as (-> & -> & -> & -> & ->).
  subst g3. unfold resolveHits. cbn zeta.
  set (g1 := playerBulletsVsEnemies cfg (length (playerBullets g)) g).
  set (g2 := playerBulletsVsEnemyBullets (length (playerBullets g1)) g1).
  assert (H1 : Forall (clearOfEnemies (heap g1) (enemies g1)) (playerBullets g1)).
  { apply playerBulletsVsEnemies_clear; [lia|]. rewrite drop_ge by lia. constructor. }
  destruct (playerBulletsVsEnemyBullets_untouched (length (playerBullets g1)) g1)
    as ((_ & _ & _ & Hh2) & He2 & _).
  fold g2 in Hh2, He2.
  assert (H2a : Forall (clearOfEnemies (heap g2) (enemies g2)) (playerBullets g2)).
  { rewrite Hh2, He2. apply playerBulletsVsEnemyBullets_keeps, H1. }
  assert (H2b : Forall (clearOfBullets (enemyBullets g2)) (playerBullets g2)).
  { apply playerBulletsVsEnemyBullets_clear; [lia|]. rewrite drop_ge by lia. constructor. }
  destruct (enemyBulletsVsPlayer_spec parse str sort (length (enemyBullets g2)) g2)
    as (Heb & Hp & _ & _ & Hen & _ & Hpb & Hh); [lia|].
  cbn zeta in Heb, Hp. rewrite take_ge in Heb, Hp by lia.
  rewrite drop_ge, app_nil_r in Heb by lia.
  rewrite Heb, Hp, Hen, Hpb, Hh. split.
  - intros b Hb. rewrite Forall_forall in H2a, H2b. split.
    + intros r Hr. specialize (H2a b (proj2 (list_elem_of_In _ _) Hb)).
      unfold clearOfEnemies in H2a. rewrite Forall_forall in H2a.
      apply H2a, list_elem_of_In, Hr.
    + intros other Hother. specialize (H2b b (proj2 (list_elem_of_In _ _) Hb)).
      unfold clearOfBullets in H2b. rewrite Forall_forall in H2b.
      apply H2b, list_elem_of_In. apply filter_In in Hother. apply Hother.
  - intros b Hb. apply filter_In in Hb. destruct Hb as [_ Hb].
    apply negb_true_iff in Hb. exact Hb.
Qed.

(** ** How often the end of the game is recorded *)

Lemma gameOver_storage parse str sort g :
  localStorage (gameOver_ parse str sort g)
  = snd (saveHighScore parse str sort (score g) (localStorage g)).
Proof.
  unfold gameOver_. cbn [score set_state call set_calls localStorage].
  destruct (saveHighScore _ _ _ _ _); reflexivity.
Qed.

Lemma fatalHits_step (l : Z) (hits : nat) :
  fatalHits l (hits + 1)
  = if (l - 1 <=? 0)%Z then S (fatalHits (l - 1) hits) else fatalHits (l - 1) hits.
Proof.
  unfold fatalHits. destruct (l - 1 <=? 0)%Z eqn:E; props_of_tests; lia.
Qed.

Lemma enemyBulletsVsPlayer_storage parse str sort n g :
  (n <= length (enemyBullets g))%nat ->
  localStorage (enemyBulletsVsPlayer parse str sort n g)
  = Nat.iter (fatalHits (lives (player g)) (hitsOn (player g) (take n (enemyBullets g))))
      (fun storage => snd (saveHighScore parse str sort (score g) storage))
      (localStorage g).
Proof.
  revert g. induction n as [|n IH]; intros g Hn.
  - reflexivity.
  - destruct (lookup_lt_is_Some_2 (enemyBullets g) n ltac:(lia)) as [b Hb].
    rewrite (take_S_r _ _ _ Hb), hitsOn_snoc.
    cbn [enemyBulletsVsPlayer]. unfold enemyBulletVsPlayer. rewrite Hb.
    change (checkCollision b (player g)) with (overlapsPlayer (player g) b).
    destruct (overlapsPlayer (player g) b) eqn:Hhit.
    + set (g1 := call Audio_playDamage _).
      assert (Hlen : (n <= length (enemyBullets g1))%nat).
      { subst g1; simpl. rewrite length_delete by (exists b; exact Hb). lia. }
      assert (Htake : take n (delete n (enemyBullets g)) = take n (enemyBullets g)).
      { rewrite delete_take_drop. apply take_app_length'.
        rewrite length_take_le; lia. }
      rewrite fatalHits_step.
      change (lives (player g1)) with (lives (player g) - 1)%Z.
      destruct (lives (player g) - 1 <=? 0)%Z.
      * rewrite (IH (gameOver_ parse str sort g1)) by exact Hlen.
        rewrite gameOver_storage.
        change (enemyBullets (gameOver_ parse str sort g1)) with (delete n (enemyBullets g)).
        change (player (gameOver_ parse str sort g1))
          with (mkPlayer (player g) (lives (player g) - 1) (lastShotTime (player g))).
        change (score (gameOver_ parse str sort g1)) with (score g).
        change (score g1) with (score g).
        change (localStorage g1) with (localStorage g).
        rewrite Htake, hitsOn_lives. cbn [lives].
        rewrite Nat.iter_succ_r. reflexivity.
      * rewrite (IH g1) by exact Hlen.
        change (enemyBullets g1) with (delete n (enemyBullets g)).
        change (player g1)
          with (mkPlayer (player g) (lives (player g) - 1) (lastShotTime (player g))).
        change (score g1) with (score g).
        change (localStorage g1) with (localStorage g).
        rewrite Htake, hitsOn_lives. reflexivity.
    + rewrite Nat.add_0_r. apply IH. lia.
Qed.

(** X12.  [gameOver] runs once for every hit that leaves the player without
    a life, not once per game: of the [hits] enemy bullets that overlap a
    player with [lives] lives, all but the first [lives - 1] call it.  Each
    call saves the score, so after the three loops of collision resolution
    the storage is the storage of before with the score (as it stands after
    the player bullets have been resolved) saved that many times; the score
    of one game can so take more than one place among the high scores.  In a
    frame that was entered in the state [playing] and has such a hit, the
    state afterwards is [gameOver] and the closing test for the cleared
    round saves nothing more. *)
Theorem gameOver_once_per_fatal_hit cfg parse str sort (g : Game) :
  let before := bulletsResolved cfg g in
  let hits := hitsOn (player g) (enemyBullets before) in
  let fatal := (hits - Z.to_nat (lives (player g) - 1))%nat in
  localStorage (resolveHits cfg parse str sort g)
  = Nat.iter fatal
      (fun storage => snd (saveHighScore parse str sort (score before) storage))
      (localStorage g) /\
  (state g = playing -> (0 < fatal)%nat ->
   state (checkCollisions cfg parse str sort g) = gameOver /\
   localStorage (checkCollisions cfg parse str sort g)
   = localStorage (resolveHits cfg parse str sort g)).
Proof.
  intros before hits fatal.
  destruct (bulletsResolved_untouched cfg g) as ((_ & Hp & Hls & _) & _ & _).
  fold before in Hp, Hls. split.
  - change (resolveHits cfg parse str sort g)
      with (enemyBulletsVsPlayer parse str sort (length (enemyBullets before)) before).
    rewrite enemyBulletsVsPlayer_storage by lia.
    rewrite take_ge by lia. rewrite Hp, Hls. reflexivity.
  - intros Hplay Hfatal.
    assert (Hx : livesExhausted (player g) hits = true).
    { unfold livesExhausted. apply andb_true_intro. subst fatal. split.
      - apply Nat.ltb_lt. lia.
      - apply Z.leb_le. lia. }
    destruct (resolveHits_spec cfg parse str sort g) as (_ & Hs & _). cbn zeta in Hs.
    fold before in Hs. fold hits in Hs. rewrite Hx in Hs. specialize (Hs Hplay).
    unfold checkCollisions. cbn zeta. unfold roundClearCheck.
    rewrite Hs, andb_false_r. split; [exact Hs | reflexivity].
Qed.

(** ** The player's movement *)


Lemma clamp_contracts v d lo hi :
  lo <= v <= hi ->
  (clamp (v + d) lo hi - v) * (clamp (v + d) lo hi - v) <= d * d.
Proof.
  intros. unfold clamp, Rmax, Rmin.
  destruct (Rle_dec hi (v + d)); destruct (Rle_dec lo _); nra.
Qed.

Lemma unit_step (a b s : R) :
  a <> 0 \/ b <> 0 ->
  a / sqrt (a * a + b * b) * s * (a / sqrt (a * a + b * b) * s)
  + b / sqrt (a * a + b * b) * s * (b / sqrt (a * a + b * b) * s)
  = s * s.
Proof.
  intros Hnz.
  assert (Hpos : 0 < a * a + b * b).
  { pose proof (Rle_0_sqr a) as Ha. pose proof (Rle_0_sqr b) as Hb.
    unfold Rsqr in Ha, Hb.
    destruct Hnz as [H|H]; apply Rsqr_pos_lt in H; unfold Rsqr in H; lra. }
  assert (Hlen : 0 < sqrt (a * a + b * b)) by (apply sqrt_lt_R0, Hpos).
  assert (Hsq : sqrt (a * a + b * b) * sqrt (a * a + b * b) = a * a + b * b)
    by (apply sqrt_sqrt; lra).
  set (len := sqrt (a * a + b * b)) in *.
  replace (a / len * s * (a / len * s) + b / len * s * (b / len * s))
    with (s * s * ((a * a + b * b) / (len * len))) by (field; lra).
  rewrite Hsq. field. lra.
Qed.

Lemma step_length (a b s : R) :
  let '(dx, dy) :=
    if negb (Reqb a 0) || negb (Reqb b 0) then
      let length := sqrt (a * a + b * b) in (a / length * s, b / length * s)
    else (a, b) in
  dx * dx + dy * dy <= s * s.
Proof.
  pose proof (Rle_0_sqr s) as Hs. unfold Rsqr in Hs.
  destruct (Reqb a 0) eqn:Ea; destruct (Reqb b 0) eqn:Eb; cbn [negb orb];
    cbv beta iota zeta.
  - apply Reqb_true in Ea, Eb. subst. lra.
  - apply (proj1 (Reqb_false _ _)) in Eb. rewrite unit_step by (right; exact Eb). lra.
  - apply (proj1 (Reqb_false _ _)) in Ea. rewrite unit_step by (left; exact Ea). lra.
  - apply (proj1 (Reqb_false _ _)) in Ea. rewrite unit_step by (left; exact Ea). lra.
Qed.

Lemma shootPlayerBullet_player cfg now g :
  Player_obj (player (shootPlayerBullet cfg now g)) = Player_obj (player g) /\
  lives (player (shootPlayerBullet cfg now g)) = lives (player g).
Proof.
  unfold shootPlayerBullet, Date_now_call.
  destruct (Rltb _ _); [split; reflexivity|].
  destruct (getClosestEnemy _); split; reflexivity.
Qed.

Lemma updatePlayer_shape cfg now g :
  exists dx dy,
    dx * dx + dy * dy <= playerSpeed cfg * playerSpeed cfg /\
    Player_obj (player (updatePlayer cfg now g))
    = mkGameObject
        (mkVector2D
           (clamp (x (position (player g)) + dx) (radius (player g))
                  (canvasWidth cfg - radius (player g)))
           (clamp (y (position (player g)) + dy) (radius (player g))
                  (canvasHeight cfg - radius (player g))))
        (velocity (player g)) (radius (player g)) /\
    lives (player (updatePlayer cfg now g)) = lives (player g).
Proof.
  unfold updatePlayer.
  match goal with
  | |- context [let '(dx, dy) := (if negb (Reqb ?a 0) || negb (Reqb ?b 0) then _ else _) in _] =>
      pose proof (step_length a b (playerSpeed cfg)) as Hstep;
      destruct (if negb (Reqb a 0) || negb (Reqb b 0) then _ else _) as [dx dy]
  end.
  exists dx, dy. split; [exact Hstep|].
  match goal with
  | |- context [if has "m" ?g' then _ else _] => destruct (has "m" g')
  end.
  - match goal with
    | |- context [shootPlayerBullet cfg now ?g'] =>
        destruct (shootPlayerBullet_player cfg now g') as (-> & ->)
    end.
    split; reflexivity.
  - split; reflexivity.
Qed.

Lemma shootPlayerBullet_outcome cfg now g :
  ((now (clock g) - lastShotTime (player g) < playerShootCooldown cfg \/ enemies g = []) ->
   shootPlayerBullet cfg now g = set_clock (S (clock g)) g /\
   playerBullets (shootPlayerBullet cfg now g) = playerBullets g /\
   player (shootPlayerBullet cfg now g) = player g /\
   calls (shootPlayerBullet cfg now g) = calls g) /\
  (playerShootCooldown cfg <= now (clock g) - lastShotTime (player g) ->
   enemies g <> [] ->
   exists target : EnemyRef,
     In target (enemies g) /\
     (forall e, In e (enemies g) ->
        distance (position (player g)) (position (deref (heap g) target))
        <= distance (position (player g)) (position (deref (heap g) e))) /\
     playerBullets (shootPlayerBullet cfg now g)
     = playerBullets g
       ++ [mkBullet (mkGameObject (position (player g)) (mkVector2D 0 0) 4)
                    true (Some target)] /\
     lastShotTime (player (shootPlayerBullet cfg now g)) = now (clock g) /\
     lives (player (shootPlayerBullet cfg now g)) = lives (player g) /\
     Player_obj (player (shootPlayerBullet cfg now g)) = Player_obj (player g) /\
     calls (shootPlayerBullet cfg now g) = Audio_playShoot :: calls g).
Proof.
  unfold shootPlayerBullet, Date_now_call.
  cbn [lastShotTime player set_clock]. split.
  - intros [Hcool|Hnone].
    + rewrite (proj2 (Rltb_true _ _) Hcool). repeat split; reflexivity.
    + destruct (Rltb _ _); [repeat split; reflexivity|].
      unfold getClosestEnemy. cbn [enemies set_clock]. rewrite Hnone.
      repeat split; reflexivity.
  - intros Hready Hne. rewrite (proj2 (Rltb_false _ _) Hready).
    destruct (getClosestEnemy_nearest (set_clock (S (clock g)) g) Hne)
      as (target & Hsome & Hin & Hnear).
    rewrite Hsome. exists target.
    split; [exact Hin|]. split; [exact Hnear|].
    simpl. rewrite Vector2D_eta. repeat split; reflexivity.
Qed.

Lemma updatePlayer_steps cfg now g :
  exists moved : Game,
    updatePlayer cfg now g
    = (if has "m" g then shootPlayerBullet cfg now moved else moved) /\
    lives (player moved) = lives (player g) /\
    lastShotTime (player moved) = lastShotTime (player g) /\
    (enemies moved, playerBullets moved, enemyBullets moved, state moved, score moved,
     keys moved, animationId moved, gameStartTime moved, heap moved,
     localStorage moved, clock moved, entropy moved, frameRequests moved, calls moved)
    = (enemies g, playerBullets g, enemyBullets g, state g, score g,
       keys g, animationId g, gameStartTime g, heap g,
       localStorage g, clock g, entropy g, frameRequests g, calls g).
Proof.
  unfold updatePlayer.
  match goal with
  | |- context [let '(dx, dy) := ?c in _] => destruct c as [dx dy]
  end.
  eexists. split; [reflexivity|]. repeat split.
Qed.

(** X13.  [updatePlayer] moves the player and, when the fire key [m] is
    held, lets it shoot.  Radius, velocity and lives of the player are as
    before, and the new position is clamped into the playfield: at least one
    radius away from the left and right edges, and from the top and bottom
    edges, whenever the canvas is wide (high) enough for the player to fit.
    The enemies, the enemy bullets, the state, the score, the keys, the
    store of enemies and the storage are left as they are.  Without the fire
    key nothing else changes.  With the fire key the clock is read once and
    either nothing is fired ([lastShotTime] and the player bullets are as
    before: the cooldown has not elapsed, or there is no enemy), or one
    bullet is appended at the new position of the player, aimed at an enemy
    of the collection, [lastShotTime] becomes the time read and the shot is
    played. *)
Theorem updatePlayer_in_playfield cfg now (g : Game) :
  let p := player g in
  let g' := updatePlayer cfg now g in
  let p' := player g' in
  radius p' = radius p /\
  velocity p' = velocity p /\
  lives p' = lives p /\
  (radius p <= canvasWidth cfg - radius p ->
   radius p <= x (position p') <= canvasWidth cfg - radius p) /\
  (radius p <= canvasHeight cfg - radius p ->
   radius p <= y (position p') <= canvasHeight cfg - radius p) /\
  (enemies g', enemyBullets g', state g', score g', keys g', animationId g',
   gameStartTime g', heap g', localStorage g', entropy g', frameRequests g')
  = (enemies g, enemyBullets g, state g, score g, keys g, animationId g,
     gameStartTime g, heap g, localStorage g, entropy g, frameRequests g) /\
  ("m" ∉ keys g ->
   playerBullets g' = playerBullets g /\ lastShotTime p' = lastShotTime p /\
   clock g' = clock g /\ calls g' = calls g) /\
  ("m" ∈ keys g ->
   clock g' = S (clock g) /\
   ((playerBullets g' = playerBullets g /\ lastShotTime p' = lastShotTime p /\
     calls g' = calls g /\
     (now (clock g) - lastShotTime p < playerShootCooldown cfg \/ enemies g = [])) \/
    (exists target : EnemyRef,
       In target (enemies g) /\
       playerShootCooldown cfg <= now (clock g) - lastShotTime p /\
       playerBullets g'
       = playerBullets g
         ++ [mkBullet (mkGameObject (position p') (mkVector2D 0 0) 4)
                      true (Some target)] /\
       lastShotTime p' = now (clock g) /\
       calls g' = Audio_playShoot :: calls g))).
Proof.
  cbn zeta.
  destruct (updatePlayer_shape cfg now g) as (dx & dy & _ & Hobj & Hlives).
  split; [rewrite Hobj; reflexivity|].
  split; [rewrite Hobj; reflexivity|].
  split; [exact Hlives|].
  split; [rewrite Hobj; intros; apply clamp_between; assumption|].
  split; [rewrite Hobj; intros; apply clamp_between; assumption|].
  clear dx dy Hobj Hlives.
  destruct (updatePlayer_steps cfg now g) as (moved & Hsteps & _ & Hshot & Hrest).
  injection Hrest as Hen Hpb Heb Hst Hsc Hk Ha Hg Hh Hl Hc He Hf Hcalls.
  rewrite Hsteps. unfold has.
  destruct (decide ("m" ∈ keys g)) as [Hheld|Hfree].
  - rewrite bool_decide_eq_true_2 by exact Hheld.
    pose proof (shootPlayerBullet_outcome cfg now moved) as [Hnone Hfires].
    rewrite Hc, Hshot, Hen in Hnone, Hfires.
    assert (Hquiet :
      (enemies (shootPlayerBullet cfg now moved),
       enemyBullets (shootPlayerBullet cfg now moved),
       state (shootPlayerBullet cfg now moved), score (shootPlayerBullet cfg now moved),
       heap (shootPlayerBullet cfg now moved),
       keys (shootPlayerBullet cfg now moved), animationId (shootPlayerBullet cfg now moved),
       gameStartTime (shootPlayerBullet cfg now moved),
       localStorage (shootPlayerBullet cfg now moved),
       entropy (shootPlayerBullet cfg now moved),
       frameRequests (shootPlayerBullet cfg now moved),
       clock (shootPlayerBullet cfg now moved))
      = (enemies moved, enemyBullets moved, state moved, score moved, heap moved,
         keys moved, animationId moved, gameStartTime moved, localStorage moved,
         entropy moved, frameRequests moved, S (clock moved))).
    { unfold shootPlayerBullet, Date_now_call.
      destruct (Rltb _ _); [reflexivity|].
      destruct (getClosestEnemy _); reflexivity. }
    injection Hquiet as Hen' Heb' Hst' Hsc' Hh' Hk' Ha' Hg' Hl' He'' Hf' Hc'.
    split.
    { rewrite Hen', Heb', Hst', Hsc', Hk', Ha', Hg', Hh', Hl', He'', Hf'.
      rewrite Hen, Heb, Hst, Hsc, Hk, Ha, Hg, Hh, Hl, He, Hf. reflexivity. }
    split; [intros Hfree; contradiction|].
    intros _. split; [congruence|].
    destruct (Rlt_dec (now (clock g) - lastShotTime (player g)) (playerShootCooldown cfg))
      as [Hcool|Hready].
    + left. destruct (Hnone (or_introl Hcool)) as (_ & Hpb' & Hp' & Hcalls').
      rewrite Hpb', Hp', Hcalls'. repeat split; try congruence. left. exact Hcool.
    + destruct (enemies g) as [|first rest] eqn:Hes.
      * left. destruct (Hnone (or_intror eq_refl)) as (_ & Hpb' & Hp' & Hcalls').
        rewrite Hpb', Hp', Hcalls'. repeat split; try congruence. right. reflexivity.
      * right. destruct Hfires as (target & Hin & _ & Hpb' & Hp' & _ & Hobj' & Hcalls');
          [lra | discriminate |].
        exists target. split; [exact Hin|]. split; [lra|].
        rewrite Hpb', Hp', Hcalls', Hobj', Hpb, Hcalls. repeat split.
  - rewrite bool_decide_eq_false_2 by exact Hfree.
    split; [rewrite Hen, Heb, Hst, Hsc, Hk, Ha, Hg, Hh, Hl, He, Hf; reflexivity|].
    split; [intros _; repeat split; assumption | intros Hheld; contradiction].
Qed.

(** With the fire key held, the cooldown elapsed and an enemy in sight, the
    player of [quietGame] fires at that enemy. *)
Lemma updatePlayer_in_playfield_sample :
  let g := set_keys {[ "m"%string ]} quietGame in
  let g' := updatePlayer sampleConfig (fun _ => 5000) g in
  playerBullets g'
  = [mkBullet (mkGameObject (position (player g')) (mkVector2D 0 0) 4) true (Some O)] /\
  lastShotTime (player g') = 5000 /\
  calls g' = [Audio_playShoot].
Proof.
  cbn zeta.
  destruct (updatePlayer_in_playfield sampleConfig (fun _ => 5000)
              (set_keys {[ "m"%string ]} quietGame))
    as (_ & _ & _ & _ & _ & _ & _ & Hheld).
  destruct Hheld as (_ & [(_ & _ & _ & [Hcool|Hnone]) | (target & Hin & _ & Hpb & Hshot & Hcalls)]).
  - cbn [keys set_keys]. apply elem_of_singleton_2. reflexivity.
  - exfalso. cbn in Hcool. lra.
  - discriminate Hnone.
  - destruct Hin as [<-|[]]. repeat split; assumption.
Defined.

(** X14.  A player inside the playfield moves at most [playerSpeed] per
    frame, whatever keys are held: the diagonal is normalised, and clamping
    at the edges only shortens the step. *)
Theorem updatePlayer_speed_limit cfg now (g : Game) :
  0 <= playerSpeed cfg ->
  radius (player g) <= x (position (player g)) <= canvasWidth cfg - radius (player g) ->
  radius (player g) <= y (position (player g)) <= canvasHeight cfg - radius (player g) ->
  distance (position (player (updatePlayer cfg now g))) (position (player g))
  <= playerSpeed cfg.
Proof.
  intros Hspeed Hx Hy.
  destruct (updatePlayer_shape cfg now g) as (dx & dy & Hstep & Hobj & _).
  rewrite Hobj. cbn [position]. unfold distance. cbn [x y].
  pose proof (clamp_contracts _ dx _ _ Hx) as Hcx.
  pose proof (clamp_contracts _ dy _ _ Hy) as Hcy.
  apply Rle_trans with (sqrt (playerSpeed cfg * playerSpeed cfg)).
  - apply sqrt_le_1_alt. lra.
  - rewrite sqrt_square by exact Hspeed. lra.
Qed.

(** With [w] and [d] held the player moves up and to the right. *)
Lemma updatePlayer_speed_limit_sample :
  has "w" (set_keys {[ "w"; "d" ]} emptyGame) = true /\
  has "d" (set_keys {[ "w"; "d" ]} emptyGame) = true /\
  distance
    (position (player (updatePlayer sampleConfig (fun _ => 0)
                         (set_keys {[ "w"; "d" ]} emptyGame))))
    (position (player (set_keys {[ "w"; "d" ]} emptyGame)))
  <= 5.
Proof.
  split; [apply bool_decide_eq_true_2; set_solver|].
  split; [apply bool_decide_eq_true_2; set_solver|].
  apply (updatePlayer_speed_limit sampleConfig (fun _ => 0)
           (set_keys {[ "w"; "d" ]} emptyGame)); simpl; lra.
Defined.

(** ** The target of a shot *)

Lemma closest_fold_first (d : EnemyRef -> R) (rest seen after : list EnemyRef)
    (c : EnemyRef) :
  (forall e, In e seen -> d c < d e) ->
  (forall e, In e after -> d c <= d e) ->
  exists before' after',
    seen ++ c :: after ++ rest
    = before' ++ fold_left (fun c e => if Rltb (d e) (d c) then e else c) rest c
      :: after' /\
    (forall e, In e before' ->
       d (fold_left (fun c e => if Rltb (d e) (d c) then e else c) rest c) < d e) /\
    (forall e, In e after' ->
       d (fold_left (fun c e => if Rltb (d e) (d c) then e else c) rest c) <= d e).
Proof.
  revert seen after c. induction rest as [|e rest IH]; intros seen after c Hseen Hafter.
  - exists seen, after. rewrite app_nil_r. cbn [fold_left]. repeat split; assumption.
  - cbn [fold_left]. destruct (Rltb (d e) (d c)) eqn:E.
    + apply Rltb_true in E.
      destruct (IH (seen ++ c :: after) [] e) as (before' & after' & Heq & Hb & Ha).
      * intros e' He'. apply in_app_or in He'. destruct He' as [He'|[<-|He']].
        -- specialize (Hseen e' He'). lra.
        -- exact E.
        -- specialize (Hafter e' He'). lra.
      * intros e' [].
      * exists before', after'. split; [|split; assumption].
        rewrite <- Heq, <- !app_assoc. reflexivity.
    + apply Rltb_false in E.
      destruct (IH seen (after ++ [e]) c) as (before' & after' & Heq & Hb & Ha).
      * exact Hseen.
      * intros e' He'. apply in_app_or in He'. destruct He' as [He'|[<-|[]]].
        -- apply Hafter, He'.
        -- exact E.
      * exists before', after'. split; [|split; assumption].
        rewrite <- Heq, <- !app_assoc. reflexivity.
Qed.

(** X15.  [getClosestEnemy] finds no enemy exactly when the collection is
    empty.  Otherwise it returns an enemy of the collection that is nearest
    to the player, and of several that are equally near the one that comes
    first in the collection: every enemy before it is strictly farther away,
    every enemy after it at least as far. *)
Theorem getClosestEnemy_first_nearest (g : Game) :
  (getClosestEnemy g = None <-> enemies g = []) /\
  (forall target : EnemyRef,
     getClosestEnemy g = Some target ->
     exists before after : list EnemyRef,
       enemies g = before ++ target :: after /\
       (forall e, In e before ->
          distance (position (player g)) (position (deref (heap g) target))
          < distance (position (player g)) (position (deref (heap g) e))) /\
       (forall e, In e after ->
          distance (position (player g)) (position (deref (heap g) target))
          <= distance (position (player g)) (position (deref (heap g) e)))).
Proof.
  unfold getClosestEnemy. destruct (enemies g) as [|first rest].
  - split; [split; reflexivity|]. intros target H. discriminate.
  - split; [split; intros H; discriminate|].
    intros target H. injection H as <-.
    destruct (closest_fold_first
      (fun e => distance (position (player g)) (position (deref (heap g) e)))
      rest [] [] first) as (before & after & Heq & Hb & Ha).
    + intros e [].
    + intros e [].
    + exists before, after. cbn [app] in Heq. split; [exact Heq|]. split; assumption.
Qed.

(** ** The enemies' movement and fire *)


Lemma deref_insert_eq h ref e : (ref < length h)%nat -> deref (<[ref := e]> h) ref = e.
Proof.
  intros H. unfold deref. rewrite nth_lookup, list_lookup_insert_eq by exact H.
  reflexivity.
Qed.

Lemma deref_insert_ne h ref r e : r <> ref -> deref (<[ref := e]> h) r = deref h r.
Proof.
  intros H. unfold deref. rewrite !nth_lookup, list_lookup_insert_ne by congruence.
  reflexivity.
Qed.

Lemma updateEnemy_shape cfg rnd now interval ref g :
  exists (e' : Enemy) (extra : list Bullet),
    heap (updateEnemy cfg rnd now interval ref g) = <[ref := e']> (heap g) /\
    radius e' = radius (deref (heap g) ref) /\
    enemyInBounds cfg e' /\
    enemyBullets (updateEnemy cfg rnd now interval ref g) = enemyBullets g ++ extra /\
    (extra = [] \/ length extra = enemyBulletDirections cfg) /\
    Forall (fun b : Bullet => enemyShot b /\ position b = position e') extra.
Proof.
  unfold updateEnemy, Math_random_call.
  repeat match goal with
         | |- context [if ?c then _ else _] => destruct c
         end;
    rewrite ?shootEnemyBullets_eq;
    cbn [heap set_heap set_enemyBullets set_entropy enemyBullets];
    eexists; eexists;
    (split; [reflexivity|]);
    (split; [reflexivity|]);
    (split; [unfold enemyInBounds; cbn; split; intros; apply clamp_between; assumption|]);
    first
      [ split; [symmetry; apply app_nil_r|];
        split; [left; reflexivity | constructor]
      | split; [reflexivity|];
        split; [right; rewrite length_map, length_seq; reflexivity|];
        apply Forall_forall; intros b Hb;
        apply list_elem_of_fmap in Hb; destruct Hb as (i & -> & _);
        unfold enemyShot, enemyBullet; cbn; repeat split ].
Qed.

Lemma updateEnemy_heap_frame cfg rnd now interval ref g r :
  length (heap (updateEnemy cfg rnd now interval ref g)) = length (heap g) /\
  radius (deref (heap (updateEnemy cfg rnd now interval ref g)) r)
  = radius (deref (heap g) r).
Proof.
  destruct (updateEnemy_shape cfg rnd now interval ref g)
    as (e' & extra & Hheap & Hrad & _).
  rewrite Hheap, length_insert. split; [reflexivity|].
  destruct (decide (r = ref)) as [->|Hne].
  - destruct (le_lt_dec (length (heap g)) ref) as [Hout|Hin].
    + rewrite list_insert_ge by exact Hout. reflexivity.
    + rewrite deref_insert_eq by exact Hin. exact Hrad.
  - rewrite deref_insert_ne by exact Hne. reflexivity.
Qed.

Lemma updateEnemy_keeps_bounds cfg rnd now interval ref g r :
  (r < length (heap g))%nat ->
  r = ref \/ enemyInBounds cfg (deref (heap g) r) ->
  enemyInBounds cfg (deref (heap (updateEnemy cfg rnd now interval ref g)) r).
Proof.
  intros Hr Hin.
  destruct (updateEnemy_shape cfg rnd now interval ref g)
    as (e' & extra & Hheap & Hrad & Hbounds & _).
  rewrite Hheap.
  destruct (decide (r = ref)) as [->|Hne].
  - rewrite deref_insert_eq by exact Hr. exact Hbounds.
  - rewrite deref_insert_ne by exact Hne.
    destruct Hin as [Heq|Hin]; [contradiction | exact Hin].
Qed.

Lemma updateEnemies_fold_bounds cfg rnd now interval (es : list EnemyRef) g r :
  (r < length (heap g))%nat ->
  In r es \/ enemyInBounds cfg (deref (heap g) r) ->
  let g' := fold_left (fun g enemy => updateEnemy cfg rnd now interval enemy g) es g in
  enemyInBounds cfg (deref (heap g') r) /\
  radius (deref (heap g') r) = radius (deref (heap g) r).
Proof.
  revert g. induction es as [|e es IH]; intros g Hr Hin; cbn [fold_left].
  - destruct Hin as [[]|Hin]. split; [exact Hin | reflexivity].
  - set (g1 := updateEnemy cfg rnd now interval e g).
    destruct (updateEnemy_heap_frame cfg rnd now interval e g r) as (Hlen & Hrad).
    fold g1 in Hlen, Hrad.
    destruct (IH g1) as (Hb & Hr'); [lia| |split; [exact Hb | congruence]].
    destruct Hin as [[->|Hin]|Hin].
    + right. apply updateEnemy_keeps_bounds; [exact Hr | left; reflexivity].
    + left. exact Hin.
    + right. apply updateEnemy_keeps_bounds; [exact Hr | right; exact Hin].
Qed.

(** X16.  [updateEnemies] keeps every enemy of the collection in the upper
    half of the canvas: after the update its radius is as before and its
    position is at least one radius from the left, right and top edges and
    not below the middle of the canvas (whenever the canvas is large enough
    for that region not to be empty), wherever the enemy was before and
    whatever target it was given. *)
Theorem updateEnemies_in_upper_half cfg now rnd (g : Game) (r : EnemyRef) :
  In r (enemies g) -> (r < length (heap g))%nat ->
  let e := deref (heap g) r in
  let e' := deref (heap (updateEnemies cfg now rnd g)) r in
  radius e' = radius e /\
  (radius e <= canvasWidth cfg - radius e ->
   radius e <= x (position e') <= canvasWidth cfg - radius e) /\
  (radius e <= canvasHeight cfg / 2 ->
   radius e <= y (position e') <= canvasHeight cfg / 2).
Proof.
  intros Hin Hr e e'. subst e e'. unfold updateEnemies, Date_now_call.
  match goal with
  | |- context [fold_left _ ?es ?g0] =>
      destruct (updateEnemies_fold_bounds cfg rnd (now (clock g))
                  (if Rleb 10000 (now (clock g) - gameStartTime g)
                   then enemyShootInterval cfg / 2 else enemyShootInterval cfg)
                  es g0 r) as ((Hx & Hy) & Hrad)
  end.
  - exact Hr.
  - left. exact Hin.
  - cbn [gameStartTime set_clock] in *. rewrite Hrad in Hx, Hy.
    split; [exact Hrad|]. split; assumption.
Qed.

(** The first enemy of [chaseGame] is at [(200, 500)], below the middle of
    the canvas. *)
Lemma updateEnemies_in_upper_half_sample :
  position (deref (heap chaseGame) O) = mkVector2D 200 500 /\
  let e := deref (heap chaseGame) O in
  let e' :=
    deref (heap (updateEnemies sampleConfig (fun _ => 0) (fun _ => 1 / 2) chaseGame)) O in
  radius e' = radius e /\
  (radius e <= canvasWidth sampleConfig - radius e ->
   radius e <= x (position e') <= canvasWidth sampleConfig - radius e) /\
  (radius e <= canvasHeight sampleConfig / 2 ->
   radius e <= y (position e') <= canvasHeight sampleConfig / 2).
Proof.
  split; [reflexivity|].
  apply (updateEnemies_in_upper_half sampleConfig (fun _ => 0) (fun _ => 1 / 2)
           chaseGame O).
  - left. reflexivity.
  - cbn [chaseGame heap length]. lia.
Defined.

Lemma updateEnemy_frame cfg rnd now interval ref g :
  bystanders (updateEnemy cfg rnd now interval ref g) = bystanders g.
Proof.
  unfold updateEnemy, Math_random_call.
  repeat match goal with
         | |- context [if ?c then _ else _] => destruct c
         end;
    rewrite ?shootEnemyBullets_eq; reflexivity.
Qed.

Lemma updateEnemies_fold_shots cfg rnd now interval (es : list EnemyRef) g :
  let g' := fold_left (fun g enemy => updateEnemy cfg rnd now interval enemy g) es g in
  exists (extra : list Bullet) (k : nat),
    enemyBullets g' = enemyBullets g ++ extra /\
    (k <= length es)%nat /\
    length extra = (k * enemyBulletDirections cfg)%nat /\
    Forall enemyShot extra.
Proof.
  revert g. induction es as [|e es IH]; intros g; cbn [fold_left].
  - exists [], O. rewrite app_nil_r. repeat split; [simpl; lia | constructor].
  - destruct (updateEnemy_shape cfg rnd now interval e g)
      as (e' & first & _ & _ & _ & Heb & Hlen & Hshots).
    destruct (IH (updateEnemy cfg rnd now interval e g)) as (rest & k & Hrest & Hk & Hn & Hall).
    cbn zeta in Hrest.
    assert (Hfirst : Forall enemyShot first).
    { eapply Forall_impl; [exact Hshots|]. intros b [Hb _]. exact Hb. }
    destruct Hlen as [->|Hlen].
    + exists rest, k. rewrite Hrest, Heb, app_nil_r.
      repeat split; [simpl; lia | exact Hn | exact Hall].
    + exists (first ++ rest), (S k). rewrite Hrest, Heb, <- app_assoc.
      repeat split.
      * simpl; lia.
      * rewrite length_app, Hlen, Hn. simpl. lia.
      * apply Forall_app. split; assumption.
Qed.

Lemma updateEnemies_shape cfg now rnd g :
  bystanders (updateEnemies cfg now rnd g) = bystanders g /\
  length (heap (updateEnemies cfg now rnd g)) = length (heap g) /\
  exists (volleys : list Bullet) (k : nat),
    enemyBullets (updateEnemies cfg now rnd g) = enemyBullets g ++ volleys /\
    (k <= length (enemies g))%nat /\
    length volleys = (k * enemyBulletDirections cfg)%nat /\
    Forall enemyShot volleys.
Proof.
  unfold updateEnemies, Date_now_call.
  match goal with
  | |- context [fold_left ?f ?es ?g0] =>
      assert (Hframe : bystanders (fold_left f es g0) = bystanders g0)
        by (apply fold_left_keeps; intros; apply updateEnemy_frame);
      assert (Hheap : length (heap (fold_left f es g0)) = length (heap g0))
        by (apply (fold_left_keeps (fun g => length (heap g))); intros;
            apply updateEnemy_heap_frame; exact O);
      destruct (updateEnemies_fold_shots cfg rnd (now (clock g))
                  (if Rleb 10000 (now (clock g) - gameStartTime g)
                   then enemyShootInterval cfg / 2 else enemyShootInterval cfg)
                  es g0) as (volleys & k & Heb & Hk & Hn & Hall)
  end.
  cbn zeta in Heb. cbn [gameStartTime set_clock] in *.
  split; [exact Hframe|]. split; [exact Hheap|].
  exists volleys, k. repeat split; assumption.
Qed.

(** X17.  [updateEnemies] touches nothing but the enemies and their
    bullets: the player, the collection of enemies, the player bullets, the
    state, the score and the storage are as before.  The enemy bullets in
    flight are kept, in their order, and whole volleys are appended behind
    them: [k] volleys of [enemyBulletDirections] bullets each for some [k]
    that is at most the number of enemies, every new bullet being an enemy
    bullet of radius 3 without a target. *)
Theorem updateEnemies_only_adds_shots cfg now rnd (g : Game) :
  let g' := updateEnemies cfg now rnd g in
  player g' = player g /\
  enemies g' = enemies g /\
  playerBullets g' = playerBullets g /\
  state g' = state g /\
  score g' = score g /\
  localStorage g' = localStorage g /\
  exists (volleys : list Bullet) (k : nat),
    enemyBullets g' = enemyBullets g ++ volleys /\
    (k <= length (enemies g))%nat /\
    length volleys = (k * enemyBulletDirections cfg)%nat /\
    (forall b : Bullet, In b volleys ->
       isPlayerBullet b = false /\ targetEnemy b = None /\ radius b = 3).
Proof.
  cbn zeta.
  destruct (updateEnemies_shape cfg now rnd g)
    as (Hframe & _ & volleys & k & Heb & Hk & Hn & Hall).
  unfold bystanders in Hframe. injection Hframe as Hp He Hpb Hs Hsc _ Hls _.
  repeat (split; [assumption|]).
  exists volleys, k. repeat (split; [assumption|]).
  intros b Hb. rewrite Forall_forall in Hall. apply Hall, list_elem_of_In, Hb.
Qed.

Lemma direction_length_le_1 (from to : Vector2D) :
  x (getDirectionVector from to) * x (getDirectionVector from to)
  + y (getDirectionVector from to) * y (getDirectionVector from to) <= 1.
Proof.
  destruct (Rle_lt_or_eq_dec _ _ (distance_nonneg from to)) as [Hpos|Hzero].
  - destruct (direction_towards from to Hpos) as (Hunit & _). lra.
  - symmetry in Hzero. apply distance_zero_eq in Hzero. subst to.
    unfold getDirectionVector. rewrite normalize_zero by (simpl; lra).
    simpl. lra.
Qed.

(** Where [updateEnemy] puts the enemy it updates: one step of length
    [enemySpeed] towards some target, clamped. *)
Lemma updateEnemy_step cfg rnd now interval ref g :
  (ref < length (heap g))%nat ->
  exists target : Vector2D,
    x (position (deref (heap (updateEnemy cfg rnd now interval ref g)) ref))
    = clamp (x (position (deref (heap g) ref))
             + x (getDirectionVector (position (deref (heap g) ref)) target)
               * enemySpeed cfg)
            (radius (deref (heap g) ref))
            (canvasWidth cfg - radius (deref (heap g) ref)) /\
    y (position (deref (heap (updateEnemy cfg rnd now interval ref g)) ref))
    = clamp (y (position (deref (heap g) ref))
             + y (getDirectionVector (position (deref (heap g) ref)) target)
               * enemySpeed cfg)
            (radius (deref (heap g) ref))
            (canvasHeight cfg / 2).
Proof.
  intros Href. unfold updateEnemy, Math_random_call.
  repeat match goal with
         | |- context [if ?c then _ else _] => destruct c
         end;
    rewrite ?shootEnemyBullets_eq;
    cbn [heap set_heap set_enemyBullets set_entropy enemyBullets];
    rewrite deref_insert_eq by exact Href;
    eexists; split; reflexivity.
Qed.

Lemma updateEnemy_other cfg rnd now interval ref g r :
  r <> ref ->
  deref (heap (updateEnemy cfg rnd now interval ref g)) r = deref (heap g) r.
Proof.
  intros Hne.
  destruct (updateEnemy_shape cfg rnd now interval ref g) as (e' & extra & Hheap & _).
  rewrite Hheap. apply deref_insert_ne, Hne.
Qed.

Lemma updateEnemies_fold_other cfg rnd now interval (es : list EnemyRef) g r :
  ~ In r es ->
  deref (heap (fold_left (fun g enemy => updateEnemy cfg rnd now interval enemy g) es g)) r
  = deref (heap g) r.
Proof.
  revert g. induction es as [|e es IH]; intros g Hr; cbn [fold_left]; [reflexivity|].
  rewrite IH by (intros H; apply Hr; right; exact H).
  apply updateEnemy_other. intros ->. apply Hr. left. reflexivity.
Qed.

Lemma updateEnemy_speed cfg rnd now interval ref g :
  (ref < length (heap g))%nat ->
  radius (deref (heap g) ref) <= x (position (deref (heap g) ref))
  <= canvasWidth cfg - radius (deref (heap g) ref) ->
  radius (deref (heap g) ref) <= y (position (deref (heap g) ref))
  <= canvasHeight cfg / 2 ->
  distance (position (deref (heap (updateEnemy cfg rnd now interval ref g)) ref))
           (position (deref (heap g) ref))
  <= Rabs (enemySpeed cfg).
Proof.
  intros Href Hx Hy.
  destruct (updateEnemy_step cfg rnd now interval ref g Href) as (target & Hx' & Hy').
  unfold distance. rewrite Hx', Hy'.
  pose proof (direction_length_le_1 (position (deref (heap g) ref)) target) as Hdir.
  set (dx := x (getDirectionVector (position (deref (heap g) ref)) target)) in *.
  set (dy := y (getDirectionVector (position (deref (heap g) ref)) target)) in *.
  pose proof (clamp_contracts _ (dx * enemySpeed cfg) _ _ Hx) as Hcx.
  pose proof (clamp_contracts _ (dy * enemySpeed cfg) _ _ Hy) as Hcy.
  rewrite <- sqrt_Rsqr_abs. apply sqrt_le_1_alt. unfold Rsqr.
  pose proof (Rle_0_sqr (enemySpeed cfg)) as Hs. unfold Rsqr in Hs. nra.
Qed.

Lemma updateEnemies_fold_speed cfg rnd now interval (es : list EnemyRef) g r :
  NoDup es -> In r es -> (r < length (heap g))%nat ->
  radius (deref (heap g) r) <= x (position (deref (heap g) r))
  <= canvasWidth cfg - radius (deref (heap g) r) ->
  radius (deref (heap g) r) <= y (position (deref (heap g) r))
  <= canvasHeight cfg / 2 ->
  distance
    (position (deref (heap (fold_left
                              (fun g enemy => updateEnemy cfg rnd now interval enemy g)
                              es g)) r))
    (position (deref (heap g) r))
  <= Rabs (enemySpeed cfg).
Proof.
  revert g. induction es as [|e es IH]; intros g Hnd Hin Hr Hx Hy; [destruct Hin|].
  apply NoDup_cons in Hnd. destruct Hnd as [Hfresh Hnd].
  cbn [fold_left]. destruct (decide (r = e)) as [->|Hne].
  - rewrite updateEnemies_fold_other
      by (intros H; apply Hfresh, list_elem_of_In, H).
    apply updateEnemy_speed; assumption.
  - destruct Hin as [Heq|Hin]; [congruence|].
    destruct (updateEnemy_heap_frame cfg rnd now interval e g r) as (Hlen & _).
    rewrite <- (updateEnemy_other cfg rnd now interval e g r Hne).
    apply IH; try assumption.
    + lia.
    + rewrite (updateEnemy_other cfg rnd now interval e g r Hne). exact Hx.
    + rewrite (updateEnemy_other cfg rnd now interval e g r Hne). exact Hy.
Qed.

(** X18.  An enemy of the collection that is inside the region the enemies
    are kept in moves at most [|enemySpeed|] in one [updateEnemies], whatever
    target it has or is given, as long as no enemy is in the collection
    twice (an enemy listed twice would be moved twice). *)
Theorem updateEnemies_speed_limit cfg now rnd (g : Game) (r : EnemyRef) :
  NoDup (enemies g) -> In r (enemies g) -> (r < length (heap g))%nat ->
  radius (deref (heap g) r) <= x (position (deref (heap g) r))
  <= canvasWidth cfg - radius (deref (heap g) r) ->
  radius (deref (heap g) r) <= y (position (deref (heap g) r))
  <= canvasHeight cfg / 2 ->
  distance (position (deref (heap (updateEnemies cfg now rnd g)) r))
           (position (deref (heap g) r))
  <= Rabs (enemySpeed cfg).
Proof.
  intros Hnd Hin Hr Hx Hy. unfold updateEnemies, Date_now_call.
  apply (updateEnemies_fold_speed cfg rnd (now (clock g))
           (if Rleb 10000 (now (clock g) - gameStartTime g)
            then enemyShootInterval cfg / 2 else enemyShootInterval cfg)
           (enemies g) (set_clock (S (clock g)) g) r); assumption.
Qed.

(** The second enemy of [chaseGame] is at [(400, 150)] and heads for
    [(500, 150)]; the first enemy is updated before it. *)
Lemma updateEnemies_speed_limit_sample :
  enemies chaseGame = [O; 1%nat] /\
  position (deref (heap chaseGame) 1%nat) = mkVector2D 400 150 /\
  targetPosition (deref (heap chaseGame) 1%nat) = mkVector2D 500 150 /\
  distance
    (position (deref (heap (updateEnemies sampleConfig (fun _ => 0) (fun _ => 1 / 2)
                              chaseGame)) 1%nat))
    (position (deref (heap chaseGame) 1%nat))
  <= Rabs (enemySpeed sampleConfig).
Proof.
  split; [reflexivity|]. split; [reflexivity|]. split; [reflexivity|].
  apply (updateEnemies_speed_limit sampleConfig (fun _ => 0) (fun _ => 1 / 2)
           chaseGame 1%nat).
  - cbn [chaseGame enemies]. apply NoDup_cons.
    split; [apply not_elem_of_cons; split; [discriminate | apply not_elem_of_nil]|].
    apply NoDup_singleton.
  - right. left. reflexivity.
  - cbn [chaseGame heap length]. lia.
  - simpl. lra.
  - simpl. lra.
Defined.

(** ** Bullets in flight *)

Lemma filter_length_le {A} (f : A -> bool) (l : list A) :
  (length (List.filter f l) <= length l)%nat.
Proof.
  induction l as [|a l IH]; simpl; [lia|]. destruct (f a); simpl; lia.
Qed.

Lemma playerBulletOnScreen_inside cfg (b : Bullet) :
  playerBulletOnScreen cfg b = true ->
  0 <= x (position b) <= canvasWidth cfg /\
  0 <= y (position b) <= canvasHeight cfg.
Proof.
  unfold playerBulletOnScreen. rewrite !andb_true_iff, !Rleb_true. tauto.
Qed.

Lemma enemyBulletOnScreen_inside cfg (b : Bullet) :
  enemyBulletOnScreen cfg b = true <->
  (-10 <= x (position b) <= canvasWidth cfg + 10 /\
   -10 <= y (position b) <= canvasHeight cfg + 10).
Proof.
  unfold enemyBulletOnScreen. rewrite !andb_true_iff, !Rleb_true. tauto.
Qed.

(** X19.  [updateBullets] touches nothing but the two collections of
    bullets, and it adds no bullet.  Every player bullet that is left lies on
    the canvas, and every enemy bullet that is left lies on the canvas
    widened by a margin of 10 on each side.  An enemy bullet that is left is
    a bullet of before, moved by its velocity: velocity, radius and kind are
    unchanged. *)
Theorem updateBullets_on_screen cfg (g : Game) :
  let g' := updateBullets cfg g in
  (player g' = player g /\ enemies g' = enemies g /\ heap g' = heap g /\
   state g' = state g /\ score g' = score g /\ localStorage g' = localStorage g) /\
  (length (playerBullets g') <= length (playerBullets g))%nat /\
  (length (enemyBullets g') <= length (enemyBullets g))%nat /\
  (forall b : Bullet, In b (playerBullets g') ->
     0 <= x (position b) <= canvasWidth cfg /\
     0 <= y (position b) <= canvasHeight cfg) /\
  (forall b' : Bullet, In b' (enemyBullets g') ->
     (-10 <= x (position b') <= canvasWidth cfg + 10 /\
      -10 <= y (position b') <= canvasHeight cfg + 10) /\
     exists b : Bullet,
       In b (enemyBullets g) /\
       velocity b' = velocity b /\ radius b' = radius b /\
       isPlayerBullet b' = isPlayerBullet b /\ targetEnemy b' = targetEnemy b /\
       x (position b') = x (position b) + x (velocity b) /\
       y (position b') = y (position b) + y (velocity b)).
Proof.
  cbn zeta. unfold updateBullets.
  cbn [player enemies heap state score localStorage playerBullets enemyBullets
       set_playerBullets set_enemyBullets].
  split; [repeat split|].
  split; [etransitivity; [apply filter_length_le|]; rewrite length_map; lia|].
  split; [etransitivity; [apply filter_length_le|]; rewrite length_map; lia|].
  split.
  - intros b Hb. apply filter_In in Hb. destruct Hb as [_ Hb].
    apply playerBulletOnScreen_inside, Hb.
  - intros b' Hb'. apply filter_In in Hb'. destruct Hb' as [Hin Hon].
    split; [apply enemyBulletOnScreen_inside, Hon|].
    apply in_map_iff in Hin. destruct Hin as (b & <- & Hb).
    exists b. repeat split. exact Hb.
Qed.

Lemma Rsqr_scaled_unit (u v k : R) :
  u * u + v * v = 1 -> sqrt (k * u * (k * u) + k * v * (k * v)) = Rabs k.
Proof.
  intros Hunit.
  replace (k * u * (k * u) + k * v * (k * v)) with ((u * u + v * v) * Rsqr k)
    by (unfold Rsqr; ring).
  rewrite Hunit, Rmult_1_l. apply sqrt_Rsqr_abs.
Qed.

(** X20.  One update of a player bullet that carries a target.  If the bullet
    is at distance d > 0 from the position read through its reference, it
    turns towards it and moves [playerBulletSpeed] along the straight line to
    it: its velocity has length |playerBulletSpeed| and its new distance is
    |d - playerBulletSpeed|, so a bullet nearer than the speed overshoots and
    is not held at the target.  A bullet exactly on that position gets the
    velocity zero and stays where it is.  Radius, kind and target reference
    are unchanged. *)
Theorem updatePlayerBullet_closes_in cfg (h : list Enemy) (bullet : Bullet)
    (target : EnemyRef) :
  targetEnemy bullet = Some target ->
  let goal := position (deref h target) in
  let d := distance (position bullet) goal in
  let bullet' := updatePlayerBullet cfg h bullet in
  (radius bullet' = radius bullet /\
   isPlayerBullet bullet' = isPlayerBullet bullet /\
   targetEnemy bullet' = targetEnemy bullet) /\
  (0 < d ->
   sqrt (x (velocity bullet') * x (velocity bullet')
         + y (velocity bullet') * y (velocity bullet'))
   = Rabs (playerBulletSpeed cfg) /\
   distance (position bullet') goal = Rabs (d - playerBulletSpeed cfg)) /\
  (d = 0 ->
   velocity bullet' = mkVector2D 0 0 /\ position bullet' = position bullet).
Proof.
  intros Ht goal d bullet'.
  assert (Hb : bullet'
    = mkBullet
        (mkGameObject
           (mkVector2D
              (x (position bullet)
               + x (getDirectionVector (position bullet) goal) * playerBulletSpeed cfg)
              (y (position bullet)
               + y (getDirectionVector (position bullet) goal) * playerBulletSpeed cfg))
           (mkVector2D
              (x (getDirectionVector (position bullet) goal) * playerBulletSpeed cfg)
              (y (getDirectionVector (position bullet) goal) * playerBulletSpeed cfg))
           (radius bullet))
        (isPlayerBullet bullet) (targetEnemy bullet)).
  { subst bullet'. unfold updatePlayerBullet. rewrite Ht.
    unfold Bullet_on, GameObject_at, GameObject_moving. cbn. rewrite ?Ht. reflexivity. }
  rewrite Hb. cbn [Bullet_obj radius velocity position isPlayerBullet targetEnemy x y].
  split; [repeat split|]. split.
  - intros Hd. destruct (direction_towards (position bullet) goal Hd) as (Hunit & Hx & Hy).
    fold d in Hx, Hy.
    set (u := x (getDirectionVector (position bullet) goal)) in *.
    set (v := y (getDirectionVector (position bullet) goal)) in *.
    set (s := playerBulletSpeed cfg). split.
    + replace (u * s * (u * s) + v * s * (v * s))
        with (s * u * (s * u) + s * v * (s * v)) by ring.
      apply Rsqr_scaled_unit, Hunit.
    + unfold distance. cbn [x y].
      replace (x (position bullet) + u * s - x goal) with ((s - d) * u) by lra.
      replace (y (position bullet) + v * s - y goal) with ((s - d) * v) by lra.
      rewrite (Rsqr_scaled_unit u v (s - d) Hunit). apply Rabs_minus_sym.
  - intros Hd. apply distance_zero_eq in Hd. rewrite <- Hd.
    assert (Hzero : getDirectionVector (position bullet) (position bullet) = mkVector2D 0 0).
    { unfold getDirectionVector. apply normalize_zero; simpl; lra. }
    rewrite Hzero. cbn [x y]. split.
    + f_equal; ring.
    + destruct (position bullet) as [px py]. cbn [x y]. f_equal; ring.
Qed.

Lemma updatePlayerBullet_closes_in_sample :
  (radius (updatePlayerBullet sampleConfig (heap staleTargetGame) staleBullet)
   = radius staleBullet /\
   isPlayerBullet (updatePlayerBullet sampleConfig (heap staleTargetGame) staleBullet)
   = isPlayerBullet staleBullet /\
   targetEnemy (updatePlayerBullet sampleConfig (heap staleTargetGame) staleBullet)
   = targetEnemy staleBullet) /\
  (0 < distance (position staleBullet) (position (deref (heap staleTargetGame) O)) ->
   sqrt (x (velocity (updatePlayerBullet sampleConfig (heap staleTargetGame) staleBullet))
         * x (velocity (updatePlayerBullet sampleConfig (heap staleTargetGame) staleBullet))
         + y (velocity (updatePlayerBullet sampleConfig (heap staleTargetGame) staleBullet))
           * y (velocity (updatePlayerBullet sampleConfig (heap staleTargetGame) staleBullet)))
   = Rabs (playerBulletSpeed sampleConfig) /\
   distance (position (updatePlayerBullet sampleConfig (heap staleTargetGame) staleBullet))
            (position (deref (heap staleTargetGame) O))
   = Rabs (distance (position staleBullet) (position (deref (heap staleTargetGame) O))
           - playerBulletSpeed sampleConfig)) /\
  (distance (position staleBullet) (position (deref (heap staleTargetGame) O)) = 0 ->
   velocity (updatePlayerBullet sampleConfig (heap staleTargetGame) staleBullet)
   = mkVector2D 0 0 /\
   position (updatePlayerBullet sampleConfig (heap staleTargetGame) staleBullet)
   = position staleBullet).
Proof.
  apply (updatePlayerBullet_closes_in sampleConfig (heap staleTargetGame) staleBullet O).
  reflexivity.
Defined.

(** The bullet after [n] updates of an enemy bullet. *)
Lemma updateEnemyBullet_iter (b : Bullet) (n : nat) :
  Nat.iter n updateEnemyBullet b
  = mkBullet
      (mkGameObject
         (mkVector2D (x (position b) + INR n * x (velocity b))
                     (y (position b) + INR n * y (velocity b)))
         (velocity b) (radius b))
      (isPlayerBullet b) (targetEnemy b).
Proof.
  induction n as [|n IH].
  - destruct b as [[[px py] v r] k t]. cbn. do 3 f_equal; ring.
  - change (Nat.iter (S n) updateEnemyBullet b)
      with (updateEnemyBullet (Nat.iter n updateEnemyBullet b)).
    rewrite IH, S_INR. unfold updateEnemyBullet, Bullet_on, GameObject_at.
    cbn. do 3 f_equal; ring.
Qed.

Lemma leaves_interval (p v lo hi : R) :
  v <> 0 -> exists n : nat, forall m : nat, (n <= m)%nat ->
    ~ (lo <= p + INR m * v <= hi).
Proof.
  intros Hv. destruct (Rtotal_order v 0) as [Hneg | [Hzero | Hpos]]; [|contradiction|].
  - destruct (INR_archimed (- v) (p - lo) ltac:(lra)) as [n Hn].
    exists n. intros m Hm. apply le_INR in Hm. nra.
  - destruct (INR_archimed v (hi - p) ltac:(lra)) as [n Hn].
    exists n. intros m Hm. apply le_INR in Hm. nra.
Qed.

(** X21.  An enemy bullet flies in a straight line at constant velocity:
    after [n] updates it is at its first position plus [n] times its
    velocity, with velocity, radius and kind unchanged.  A bullet whose
    velocity is not zero therefore leaves the widened canvas for good: from
    some number of updates on, the test that keeps a bullet in the
    collection fails for it. *)
Theorem enemyBullet_flight cfg (b : Bullet) :
  (forall n : nat,
     let b' := Nat.iter n updateEnemyBullet b in
     x (position b') = x (position b) + INR n * x (velocity b) /\
     y (position b') = y (position b) + INR n * y (velocity b) /\
     velocity b' = velocity b /\ radius b' = radius b /\
     isPlayerBullet b' = isPlayerBullet b /\ targetEnemy b' = targetEnemy b) /\
  (x (velocity b) <> 0 \/ y (velocity b) <> 0 ->
   exists n : nat, forall m : nat, (n <= m)%nat ->
     enemyBulletOnScreen cfg (Nat.iter m updateEnemyBullet b) = false).
Proof.
  split.
  - intros n. cbn zeta. rewrite updateEnemyBullet_iter. repeat split.
  - intros Hv.
    assert (Hout : exists n : nat, forall m : nat, (n <= m)%nat ->
      ~ (-10 <= x (position b) + INR m * x (velocity b) <= canvasWidth cfg + 10 /\
         -10 <= y (position b) + INR m * y (velocity b) <= canvasHeight cfg + 10)).
    { destruct Hv as [Hv|Hv].
      - destruct (leaves_interval (x (position b)) _ (-10) (canvasWidth cfg + 10) Hv)
          as [n Hn].
        exists n. intros m Hm [Hx _]. exact (Hn m Hm Hx).
      - destruct (leaves_interval (y (position b)) _ (-10) (canvasHeight cfg + 10) Hv)
          as [n Hn].
        exists n. intros m Hm [_ Hy]. exact (Hn m Hm Hy). }
    destruct Hout as [n Hn]. exists n. intros m Hm.
    apply not_true_is_false. intros Hon.
    apply enemyBulletOnScreen_inside in Hon.
    rewrite updateEnemyBullet_iter in Hon. cbn [Bullet_obj position x y] in Hon.
    exact (Hn m Hm Hon).
Qed.

(** ** Setting up the enemies *)

Lemma initEnemy_fold cfg now rnd (n k : nat) (g : Game) :
  let g' := fold_left (fun g i => initEnemy cfg now rnd i g) (seq k n) g in
  heap g'
  = heap g ++ map (fun j => enemyPlaced cfg (k + j) (rnd (entropy g + j)%nat)
                                         (now (clock g + j)%nat)) (seq 0 n) /\
  enemies g' = enemies g ++ seq (length (heap g)) n /\
  clock g' = (clock g + n)%nat /\
  entropy g' = (entropy g + n)%nat /\
  (player g', playerBullets g', enemyBullets g', state g', score g', localStorage g')
  = (player g, playerBullets g, enemyBullets g, state g, score g, localStorage g).
Proof.
  revert k g. induction n as [|n IH]; intros k g; cbn [seq fold_left map].
  - rewrite !app_nil_r, !Nat.add_0_r. repeat split.
  - destruct (IH (S k) (initEnemy cfg now rnd k g)) as (Hh & He & Hc & Hr & Hrest).
    cbn zeta in Hh, He, Hc, Hr, Hrest.
    rewrite Hh, He, Hc, Hr, Hrest. clear Hh He Hc Hr Hrest IH.
    unfold initEnemy, Math_random_call, Date_now_call.
    cbn [heap enemies clock entropy player playerBullets enemyBullets state score
         localStorage set_heap set_enemies set_clock set_entropy].
    rewrite <- !app_assoc, length_app. cbn [app length].
    rewrite !Nat.add_0_r, Nat.add_1_r.
    split; [|repeat split; lia].
    f_equal. f_equal.
    rewrite <- seq_shift, map_map. apply map_ext. intros j.
    rewrite <- !plus_n_Sm. reflexivity.
Qed.

(** X22.  [initEnemies] replaces the collection of enemies by
    [enemyCount] newly allocated enemies, whatever the collection held: the
    references are the next [enemyCount] free ones, in order and without
    repetition; the objects allocated before are untouched.  The [i]-th new
    enemy is placed at x = canvasWidth / (enemyCount + 1) * (i + 1), so the
    enemies are spread evenly and strictly inside a canvas of positive
    width, and at y = 100 + 100 x the [i]-th random number read, which is in
    [100, 200) for a random number in [0, 1).  It stands still, has radius
    15, has never shot, and its first target is its own position.  Player,
    bullets, state, score and storage are left as they are. *)
Theorem initEnemies_spec cfg now rnd (g : Game) :
  let g' := initEnemies cfg now rnd g in
  let base := length (heap g) in
  enemies g' = seq base (enemyCount cfg) /\
  NoDup (enemies g') /\
  length (heap g') = (base + enemyCount cfg)%nat /\
  (forall r : EnemyRef, (r < base)%nat -> deref (heap g') r = deref (heap g) r) /\
  (forall i : nat, (i < enemyCount cfg)%nat ->
     let e := deref (heap g') (base + i)%nat in
     e = enemyPlaced cfg i (rnd (entropy g + i)%nat) (now (clock g + i)%nat) /\
     velocity e = mkVector2D 0 0 /\ radius e = 15 /\
     Enemy_lastShotTime e = 0 /\ targetPosition e = position e /\
     (0 < canvasWidth cfg -> 0 < x (position e) < canvasWidth cfg) /\
     (0 <= rnd (entropy g + i)%nat < 1 -> 100 <= y (position e) < 200)) /\
  (player g', playerBullets g', enemyBullets g', state g', score g', localStorage g')
  = (player g, playerBullets g, enemyBullets g, state g, score g, localStorage g).
Proof.
  cbn zeta. unfold initEnemies.
  destruct (initEnemy_fold cfg now rnd (enemyCount cfg) 0 (set_enemies [] g))
    as (Hh & He & _ & _ & Hrest).
  cbn zeta in Hh, He, Hrest.
  cbn [heap enemies clock entropy player playerBullets enemyBullets state score
       localStorage set_enemies app] in Hh, He, Hrest.
  rewrite Hh, He, Hrest.
  split; [reflexivity|].
  split; [apply NoDup_seq|].
  split; [rewrite length_app, length_map, length_seq; reflexivity|].
  split.
  { intros r Hr. unfold deref. rewrite app_nth1 by exact Hr. reflexivity. }
  split; [|reflexivity].
  intros i Hi.
  assert (He' : deref (heap g ++ map (fun j => enemyPlaced cfg (0 + j)
                  (rnd (entropy g + j)%nat) (now (clock g + j)%nat))
                  (seq 0 (enemyCount cfg))) (length (heap g) + i)%nat
                = enemyPlaced cfg i (rnd (entropy g + i)%nat) (now (clock g + i)%nat)).
  { unfold deref. rewrite app_nth2 by lia.
    replace (length (heap g) + i - length (heap g))%nat with i by lia.
    rewrite nth_lookup, list_lookup_fmap, lookup_seq_lt by exact Hi.
    reflexivity. }
  rewrite He'. split; [reflexivity|].
  unfold enemyPlaced. cbn [Enemy_obj position velocity radius Enemy_lastShotTime
                           targetPosition x y].
  repeat (split; [reflexivity|]).
  split.
  - intros Hw.
    assert (Hn : 0 < INR (enemyCount cfg) + 1) by (pose proof (pos_INR (enemyCount cfg)); lra).
    assert (Hi' : INR i + 1 < INR (enemyCount cfg) + 1).
    { apply lt_INR in Hi. lra. }
    assert (Hi0 : 0 < INR i + 1) by (pose proof (pos_INR i); lra).
    split.
    + apply Rmult_lt_0_compat; [apply Rdiv_lt_0_compat; lra | exact Hi0].
    + replace (canvasWidth cfg) with
        (canvasWidth cfg / (INR (enemyCount cfg) + 1) * (INR (enemyCount cfg) + 1)) at 2
        by (field; lra).
      apply Rmult_lt_compat_l; [apply Rdiv_lt_0_compat; lra | exact Hi'].
  - intros Hr. lra.
Qed.

(** ** What holds of every session *)

Lemma wellFormed_core cfg g g' :
  core g' = core g -> wellFormed cfg g -> wellFormed cfg g'.
Proof.
  unfold core, wellFormed, scoreBalance. intros H.
  injection H as -> -> -> -> -> -> ->. tauto.
Qed.

Lemma lively_core g g' : core g' = core g -> lively g -> lively g'.
Proof.
  unfold core, lively. intros H. injection H as -> _ _ _ -> _ _. tauto.
Qed.

Lemma Forall_sublist {A} (P : A -> Prop) (l k : list A) :
  sublist l k -> Forall P k -> Forall P l.
Proof.
  intros Hsub Hk. rewrite Forall_forall in *. intros a Ha.
  apply Hk. eapply elem_of_sublist; eassumption.
Qed.

Lemma sublist_List_filter {A} (f : A -> bool) (l : list A) :
  sublist (List.filter f l) l.
Proof.
  induction l as [|a l IH]; simpl; [constructor|].
  destruct (f a); [apply sublist_skip | apply sublist_cons]; exact IH.
Qed.

Lemma pruned_refl g : pruned g g.
Proof. repeat split; reflexivity. Qed.

Lemma pruned_trans g1 g2 g3 : pruned g1 g2 -> pruned g2 g3 -> pruned g1 g3.
Proof.
  intros (?&?&?&?) (?&?&?&?).
  repeat split; try (etransitivity; eassumption); congruence.
Qed.

Lemma playerBulletsVsEnemies_pruned cfg n g :
  pruned g (playerBulletsVsEnemies cfg n g).
Proof.
  revert g. induction n as [|i IH]; intros g; cbn [playerBulletsVsEnemies].
  - apply pruned_refl.
  - eapply pruned_trans; [|apply IH].
    destruct (playerBullets g !! i) as [b|]; [|apply pruned_refl].
    destruct (bulletVsEnemies_cases cfg i b (length (enemies g)) g)
      as [(-> & _)|(j & Hpb & Hen & Heb & Hh)]; [apply pruned_refl|].
    unfold pruned. rewrite Hpb, Hen, Heb, Hh.
    repeat split; try apply sublist_delete; reflexivity.
Qed.

Lemma playerBulletsVsEnemyBullets_pruned n g :
  pruned g (playerBulletsVsEnemyBullets n g).
Proof.
  revert g. induction n as [|i IH]; intros g; cbn [playerBulletsVsEnemyBullets].
  - apply pruned_refl.
  - eapply pruned_trans; [|apply IH].
    destruct (playerBullets g !! i) as [b|]; [|apply pruned_refl].
    destruct (bulletVsEnemyBullets_untouched i b (length (enemyBullets g)) g)
      as ((_ & _ & _ & Hh) & He & _).
    destruct (bulletVsEnemyBullets_cases i b (length (enemyBullets g)) g)
      as [(-> & _)|(j & Hpb & Heb)]; [apply pruned_refl|].
    unfold pruned. rewrite Hpb, Heb, He, Hh.
    repeat split; try apply sublist_delete; reflexivity.
Qed.

Lemma roundClearCheck_frame parse str sort g :
  playerBullets (roundClearCheck parse str sort g) = playerBullets g /\
  enemies (roundClearCheck parse str sort g) = enemies g /\
  enemyBullets (roundClearCheck parse str sort g) = enemyBullets g /\
  heap (roundClearCheck parse str sort g) = heap g /\
  player (roundClearCheck parse str sort g) = player g.
Proof. unfold roundClearCheck. destruct (_ && _); repeat split. Qed.

Lemma checkCollisions_pruned cfg parse str sort g :
  pruned g (checkCollisions cfg parse str sort g).
Proof.
  unfold checkCollisions, resolveHits. cbn zeta.
  set (g1 := playerBulletsVsEnemies cfg (length (playerBullets g)) g).
  set (g2 := playerBulletsVsEnemyBullets (length (playerBullets g1)) g1).
  eapply pruned_trans; [apply playerBulletsVsEnemies_pruned|]. fold g1.
  eapply pruned_trans; [apply playerBulletsVsEnemyBullets_pruned|]. fold g2.
  destruct (roundClearCheck_frame parse str sort
              (enemyBulletsVsPlayer parse str sort (length (enemyBullets g2)) g2))
    as (Hpb & Hen & Heb & Hh & _).
  destruct (enemyBulletsVsPlayer_spec parse str sort (length (enemyBullets g2)) g2)
    as (Heb' & _ & _ & _ & Hen' & _ & Hpb' & Hh'); [lia|].
  cbn zeta in Heb'. rewrite take_ge, drop_ge, app_nil_r in Heb' by lia.
  unfold pruned. rewrite Hpb, Hen, Heb, Hh, Heb', Hen', Hpb', Hh'.
  repeat split; try reflexivity; apply sublist_List_filter.
Qed.

(** The state in which collision resolution leaves a frame that it entered
    in the state [playing]. *)
Lemma checkCollisions_outcome cfg parse str sort g :
  state g = playing ->
  let g' := checkCollisions cfg parse str sort g in
  (state g' = gameOver /\ (lives (player g') <= 0)%Z /\
   (lives (player g') < lives (player g))%Z) \/
  (state g' = gameClear /\ enemies g' = [] /\
   ((1 <= lives (player g))%Z -> (1 <= lives (player g'))%Z)) \/
  (state g' = playing /\
   ((1 <= lives (player g))%Z -> (1 <= lives (player g'))%Z)).
Proof.
  intros Hplay. cbn zeta. rewrite checkCollisions_lives.
  unfold checkCollisions. cbn zeta. rewrite roundClearCheck_state.
  destruct (roundClearCheck_frame parse str sort (resolveHits cfg parse str sort g))
    as (_ & -> & _).
  destruct (resolveHits_spec cfg parse str sort g) as (_ & Hs & _). cbn zeta in Hs.
  rewrite (Hs Hplay).
  set (hits := hitsOn (player g) (enemyBullets (bulletsResolved cfg g))).
  destruct (livesExhausted (player g) hits) eqn:Hx.
  - left. rewrite andb_false_r. split; [reflexivity|].
    unfold livesExhausted in Hx. apply andb_true_iff in Hx.
    destruct Hx as [Hx1 Hx2]. props_of_tests. lia.
  - assert (Hleft : (1 <= lives (player g))%Z ->
                    (1 <= lives (player g) - Z.of_nat hits)%Z).
    { intros Hl. unfold livesExhausted in Hx. apply andb_false_iff in Hx.
      destruct Hx as [Hx|Hx]; props_of_tests; lia. }
    right. destruct (bool_decide (enemies (resolveHits cfg parse str sort g) = [])) eqn:Hnone.
    + left. apply bool_decide_eq_true in Hnone. cbn. repeat split; assumption.
    + right. cbn. split; [reflexivity | exact Hleft].
Qed.

Lemma shootPlayerBullet_shape cfg now g :
  (enemies (shootPlayerBullet cfg now g), enemyBullets (shootPlayerBullet cfg now g),
   state (shootPlayerBullet cfg now g), score (shootPlayerBullet cfg now g),
   heap (shootPlayerBullet cfg now g), lives (player (shootPlayerBullet cfg now g)))
  = (enemies g, enemyBullets g, state g, score g, heap g, lives (player g)) /\
  (playerBullets (shootPlayerBullet cfg now g) = playerBullets g \/
   exists (target : EnemyRef) (o : GameObject),
     In target (enemies g) /\
     playerBullets (shootPlayerBullet cfg now g)
     = playerBullets g ++ [mkBullet o true (Some target)]).
Proof.
  unfold shootPlayerBullet, Date_now_call.
  destruct (Rltb _ _); [split; [reflexivity | left; reflexivity]|].
  destruct (getClosestEnemy (set_clock (S (clock g)) g)) as [target|] eqn:Hc;
    [|split; [reflexivity | left; reflexivity]].
  split; [reflexivity|]. right. exists target. eexists. split; [|reflexivity].
  destruct (enemies g) as [|first rest] eqn:He.
  - unfold getClosestEnemy in Hc. cbn [enemies set_clock] in Hc.
    rewrite He in Hc. discriminate.
  - destruct (getClosestEnemy_nearest (set_clock (S (clock g)) g)) as (t & Ht & Hin & _).
    + cbn [enemies set_clock]. rewrite He. discriminate.
    + cbn [enemies set_clock] in Hin. rewrite He in Hin. congruence.
Qed.

Lemma updatePlayer_core cfg now g :
  (enemies (updatePlayer cfg now g), enemyBullets (updatePlayer cfg now g),
   state (updatePlayer cfg now g), score (updatePlayer cfg now g),
   heap (updatePlayer cfg now g), lives (player (updatePlayer cfg now g)))
  = (enemies g, enemyBullets g, state g, score g, heap g, lives (player g)) /\
  (playerBullets (updatePlayer cfg now g) = playerBullets g \/
   exists (target : EnemyRef) (o : GameObject),
     In target (enemies g) /\
     playerBullets (updatePlayer cfg now g)
     = playerBullets g ++ [mkBullet o true (Some target)]).
Proof.
  unfold updatePlayer.
  match goal with
  | |- context [let '(dx, dy) := ?c in _] => destruct c as [dx dy]
  end.
  match goal with
  | |- context [if has "m" ?g' then _ else _] =>
      destruct (has "m" g'); [|split; [reflexivity | left; reflexivity]];
      destruct (shootPlayerBullet_shape cfg now g') as (Hsame & Hshot)
  end.
  split; [rewrite Hsame; reflexivity | exact Hshot].
Qed.

Lemma updatePlayer_wellFormed cfg now g :
  wellFormed cfg g -> wellFormed cfg (updatePlayer cfg now g).
Proof.
  destruct (updatePlayer_core cfg now g) as (Hsame & Hshot).
  injection Hsame as Hen Heb Hst Hsc Hh Hl.
  unfold wellFormed, scoreBalance. rewrite Hen, Heb, Hst, Hsc, Hh, Hl.
  intros (Hnd & Hrefs & Hpb & Hebs & Hbal & Hlen & Hclear & Hover).
  repeat (split; [assumption|]).
  split; [|repeat (split; [assumption|]); assumption].
  destruct Hshot as [-> | (target & o & Hin & ->)]; [exact Hpb|].
  apply Forall_app. split; [exact Hpb|].
  constructor; [|constructor]. split; [reflexivity|].
  unfold validTarget. cbn [targetEnemy].
  rewrite Forall_forall in Hrefs. apply Hrefs, list_elem_of_In, Hin.
Qed.

Lemma updateEnemies_wellFormed cfg now rnd g :
  wellFormed cfg g -> wellFormed cfg (updateEnemies cfg now rnd g).
Proof.
  destruct (updateEnemies_shape cfg now rnd g)
    as (Hframe & Hheap & volleys & k & Heb & _ & _ & Hall).
  unfold bystanders in Hframe. injection Hframe as Hp Hen Hpb Hst Hsc _ _ _.
  unfold wellFormed, scoreBalance, validTarget.
  rewrite Hp, Hen, Hpb, Hst, Hsc, Hheap, Heb.
  intros (Hnd & Hrefs & Hpbs & Hebs & Hrest).
  repeat (split; [assumption|]).
  split; [apply Forall_app; split; assumption | exact Hrest].
Qed.

Lemma updateBullets_wellFormed cfg g :
  wellFormed cfg g -> wellFormed cfg (updateBullets cfg g).
Proof.
  unfold wellFormed, scoreBalance, updateBullets.
  cbn [player enemies heap state score playerBullets enemyBullets
       set_playerBullets set_enemyBullets].
  intros (Hnd & Hrefs & Hpbs & Hebs & Hrest).
  repeat (split; [assumption|]).
  split; [|split; [|exact Hrest]].
  - eapply Forall_sublist; [apply sublist_List_filter|].
    rewrite Forall_forall in *. intros b' Hb'.
    apply list_elem_of_In, in_map_iff in Hb'. destruct Hb' as (b & <- & Hb).
    apply list_elem_of_In, Hpbs in Hb. destruct Hb as [Hkind Htarget].
    unfold validTarget, updatePlayerBullet in *.
    destruct (targetEnemy b) eqn:Ht; cbn; rewrite ?Ht; split; assumption.
  - eapply Forall_sublist; [apply sublist_List_filter|].
    rewrite Forall_forall in *. intros b' Hb'.
    apply list_elem_of_In, in_map_iff in Hb'. destruct Hb' as (b & <- & Hb).
    apply list_elem_of_In, Hebs in Hb. exact Hb.
Qed.

Lemma checkCollisions_wellFormed cfg parse str sort g :
  state g = playing ->
  wellFormed cfg g -> wellFormed cfg (checkCollisions cfg parse str sort g).
Proof.
  intros Hplay (Hnd & Hrefs & Hpbs & Hebs & Hbal & Hlen & _ & _).
  destruct (checkCollisions_pruned cfg parse str sort g) as (Hen & Hpb & Heb & Hh).
  destruct (checkCollisions_settled cfg parse str sort g) as (Hscore & _ & _ & Hfewer & _).
  pose proof (checkCollisions_outcome cfg parse str sort g Hplay) as Hout. cbn zeta in Hout.
  unfold wellFormed. rewrite Hh.
  split; [eapply sublist_NoDup; eassumption|].
  split; [eapply Forall_sublist; eassumption|].
  split; [eapply Forall_sublist; eassumption|].
  split; [eapply Forall_sublist; eassumption|].
  split; [congruence|].
  split; [lia|].
  destruct Hout as [(Hs & Hl & _) | [(Hs & He & _) | (Hs & _)]]; rewrite Hs;
    split; intros; try discriminate; assumption.
Qed.

Lemma gameLoop_wellFormed cfg now rnd parse str sort g :
  wellFormed cfg g -> wellFormed cfg (gameLoop cfg now rnd parse str sort g).
Proof.
  intros Hg. destruct (GameState_eqb (state g) playing) eqn:E.
  - apply GameState_eqb_eq in E. rewrite gameLoop_playing by exact E.
    set (moved := updateBullets cfg (updateEnemies cfg now rnd (updatePlayer cfg now g))).
    apply (wellFormed_core cfg (checkCollisions cfg parse str sort moved)); [reflexivity|].
    subst moved. apply checkCollisions_wellFormed.
    + rewrite (standing_state _ _ (moved_standing cfg now rnd g)). exact E.
    + apply updateBullets_wellFormed, updateEnemies_wellFormed,
        updatePlayer_wellFormed, Hg.
  - rewrite gameLoop_not_playing; [exact Hg|].
    intros H. apply GameState_eqb_eq in H. congruence.
Qed.

Lemma checkCollisions_lively cfg parse str sort g :
  state g = playing -> (1 <= lives (player g))%Z ->
  lively (checkCollisions cfg parse str sort g).
Proof.
  intros Hplay Hl.
  pose proof (checkCollisions_outcome cfg parse str sort g Hplay) as Hout. cbn zeta in Hout.
  unfold lively.
  destruct Hout as [(Hs & _) | [(_ & _ & Hleft) | (_ & Hleft)]];
    [left; exact Hs | right; apply Hleft, Hl | right; apply Hleft, Hl].
Qed.

Lemma gameLoop_lively cfg now rnd parse str sort g :
  lively g -> lively (gameLoop cfg now rnd parse str sort g).
Proof.
  intros Hg. destruct (GameState_eqb (state g) playing) eqn:E.
  - apply GameState_eqb_eq in E. rewrite gameLoop_playing by exact E.
    pose proof (moved_standing cfg now rnd g) as Hmoved.
    set (moved := updateBullets cfg (updateEnemies cfg now rnd (updatePlayer cfg now g)))
      in *.
    apply (lively_core (checkCollisions cfg parse str sort moved)); [reflexivity|].
    apply checkCollisions_lively.
    + rewrite (standing_state _ _ Hmoved). exact E.
    + rewrite (standing_lives _ _ Hmoved).
      destruct Hg as [H|H]; [congruence | exact H].
  - rewrite gameLoop_not_playing; [exact Hg|].
    intros H. apply GameState_eqb_eq in H. congruence.
Qed.

Lemma initEnemies_shape cfg now rnd g :
  enemies (initEnemies cfg now rnd g) = seq (length (heap g)) (enemyCount cfg) /\
  length (heap (initEnemies cfg now rnd g)) = (length (heap g) + enemyCount cfg)%nat /\
  (player (initEnemies cfg now rnd g), playerBullets (initEnemies cfg now rnd g),
   enemyBullets (initEnemies cfg now rnd g), state (initEnemies cfg now rnd g),
   score (initEnemies cfg now rnd g), localStorage (initEnemies cfg now rnd g))
  = (player g, playerBullets g, enemyBullets g, state g, score g, localStorage g).
Proof.
  unfold initEnemies.
  destruct (initEnemy_fold cfg now rnd (enemyCount cfg) 0 (set_enemies [] g))
    as (Hh & He & _ & _ & Hrest).
  cbn zeta in Hh, He, Hrest.
  cbn [heap enemies player playerBullets enemyBullets state score localStorage
       set_enemies app] in Hh, He, Hrest.
  rewrite Hh, He, Hrest, length_app, length_map, length_seq. repeat split.
Qed.

(** A session whose enemies were just set up, with no bullet in flight and
    no points yet. *)
Lemma fresh_wellFormed cfg now rnd g0 g :
  enemies g = enemies (initEnemies cfg now rnd g0) ->
  heap g = heap (initEnemies cfg now rnd g0) ->
  playerBullets g = [] -> enemyBullets g = [] ->
  score g = 0%Z -> state g = playing ->
  wellFormed cfg g.
Proof.
  intros Hen Hh Hpb Heb Hsc Hst.
  destruct (initEnemies_shape cfg now rnd g0) as (Hseq & Hlen & _).
  unfold wellFormed, scoreBalance.
  rewrite Hen, Hh, Hpb, Heb, Hsc, Hst, Hseq, Hlen, length_seq.
  split; [apply NoDup_seq|].
  split.
  { apply Forall_forall. intros r Hr. apply elem_of_seq in Hr. lia. }
  repeat split; try constructor; try lia; intros; discriminate.
Qed.

Lemma togglePause_wellFormed cfg now rnd parse str sort g :
  wellFormed cfg g -> wellFormed cfg (togglePause cfg now rnd parse str sort g).
Proof.
  intros Hg. unfold togglePause. destruct (state g) eqn:E; try exact Hg.
  - unfold wellFormed, scoreBalance in *. cbn. rewrite E in Hg.
    destruct Hg as (?&?&?&?&?&?&_&_).
    repeat (split; [assumption|]). split; intros; discriminate.
  - apply gameLoop_wellFormed.
    unfold wellFormed, scoreBalance in *. cbn. rewrite E in Hg.
    destruct Hg as (?&?&?&?&?&?&_&_).
    repeat (split; [assumption|]). split; intros; discriminate.
Qed.

Lemma togglePause_lively cfg now rnd parse str sort g :
  lively g -> lively (togglePause cfg now rnd parse str sort g).
Proof.
  intros Hg. unfold togglePause. destruct (state g) eqn:E; try exact Hg.
  - right. destruct Hg as [H|H]; [congruence | exact H].
  - apply gameLoop_lively. right. destruct Hg as [H|H]; [congruence | exact H].
Qed.

Lemma restart_wellFormed cfg now rnd parse str sort g :
  wellFormed cfg (restart cfg now rnd parse str sort g).
Proof.
  unfold restart, Date_now_call. apply gameLoop_wellFormed.
  apply (fresh_wellFormed cfg now rnd (set_player (createPlayer cfg) g)); reflexivity.
Qed.

Lemma restart_lively cfg now rnd parse str sort g :
  (1 <= playerLives cfg)%Z -> lively (restart cfg now rnd parse str sort g).
Proof.
  intros Hcfg. unfold restart, Date_now_call. apply gameLoop_lively.
  right. cbn [player set_state set_score set_enemyBullets set_playerBullets
              set_gameStartTime set_clock hideOverlay updateScore call set_calls].
  destruct (initEnemies_frame cfg now rnd (set_player (createPlayer cfg) g)) as (_ & Hp).
  rewrite Hp. exact Hcfg.
Qed.

Lemma start_wellFormed cfg now rnd parse str sort storage :
  wellFormed cfg (start cfg now rnd parse str sort (new_Game cfg now rnd storage)).
Proof.
  unfold start, Date_now_call, new_Game.
  destruct (saveHighScore _ _ _ _ _) as [highScores storage'].
  apply gameLoop_wellFormed.
  match goal with
  | |- context [initEnemies cfg now rnd ?g0] =>
      destruct (initEnemies_shape cfg now rnd g0) as (_ & _ & Hrest);
      injection Hrest as _ Hpb Heb Hst Hsc _;
      apply (fresh_wellFormed cfg now rnd g0)
  end; [reflexivity | reflexivity | exact Hpb | exact Heb | exact Hsc | exact Hst].
Qed.

Lemma start_lively cfg now rnd parse str sort storage :
  (1 <= playerLives cfg)%Z ->
  lively (start cfg now rnd parse str sort (new_Game cfg now rnd storage)).
Proof.
  intros Hcfg. unfold start, Date_now_call, new_Game.
  destruct (saveHighScore _ _ _ _ _) as [highScores storage'].
  apply gameLoop_lively. right.
  match goal with
  | |- context [initEnemies cfg now rnd ?g0] =>
      destruct (initEnemies_frame cfg now rnd g0) as (_ & Hp)
  end.
  cbn. rewrite Hp. exact Hcfg.
Qed.

Lemma handle_wellFormed cfg now rnd parse str sort e g :
  wellFormed cfg g -> wellFormed cfg (handle cfg now rnd parse str sort e g).
Proof.
  intros Hg. destruct e; cbn [handle].
  - apply gameLoop_wellFormed, Hg.
  - exact Hg.
  - exact Hg.
  - apply togglePause_wellFormed, Hg.
  - apply togglePause_wellFormed, Hg.
  - apply restart_wellFormed.
Qed.

Lemma handle_lively cfg now rnd parse str sort e g :
  (1 <= playerLives cfg)%Z ->
  lively g -> lively (handle cfg now rnd parse str sort e g).
Proof.
  intros Hcfg Hg. destruct e; cbn [handle].
  - apply gameLoop_lively, Hg.
  - exact Hg.
  - exact Hg.
  - apply togglePause_lively, Hg.
  - apply togglePause_lively, Hg.
  - apply restart_lively, Hcfg.
Qed.

(** What holds at the start and is kept by every event holds in every
    session that can be reached. *)
Lemma reachable_invariant cfg now rnd parse str sort (P : Game -> Prop) :
  (forall storage, P (start cfg now rnd parse str sort (new_Game cfg now rnd storage))) ->
  (forall e g, P g -> P (handle cfg now rnd parse str sort e g)) ->
  forall g, reachable cfg now rnd parse str sort g -> P g.
Proof.
  intros Hstart Hstep g (storage & events & ->). unfold run.
  specialize (Hstart storage). revert Hstart.
  generalize (start cfg now rnd parse str sort (new_Game cfg now rnd storage)).
  induction events as [|e events IH]; intros g Hg; cbn [fold_left].
  - exact Hg.
  - apply IH, Hstep, Hg.
Qed.

Lemma reachable_wellFormed cfg now rnd parse str sort g :
  reachable cfg now rnd parse str sort g -> wellFormed cfg g.
Proof.
  apply reachable_invariant.
  - apply start_wellFormed.
  - apply handle_wellFormed.
Qed.

Lemma reachable_lively cfg now rnd parse str sort g :
  (1 <= playerLives cfg)%Z -> reachable cfg now rnd parse str sort g -> lively g.
Proof.
  intros Hcfg. apply reachable_invariant.
  - intros storage. apply start_lively, Hcfg.
  - intros e g'. apply handle_lively, Hcfg.
Qed.

Lemma sampleSession_reachable :
  reachable sampleConfig (fun _ => 5000) (fun _ => 1 / 2) value_of_text text_of_value sort_of_values
    sampleSession.
Proof.
  exists ∅, []. unfold sampleSession, run. cbn [fold_left]. reflexivity.
Qed.

(** X23.  In every session that can be reached, every reference that the
    game holds is a reference to an enemy that was allocated, so reading an
    enemy through a reference never goes wrong: no enemy is in the
    collection twice, every enemy of the collection and every target of a
    player bullet was allocated (the target need not be in the collection
    any more).  The two collections of bullets hold what their names say:
    player bullets are marked as such, enemy bullets are not, carry no
    target and have radius 3. *)
Theorem references_stay_valid cfg now rnd parse str sort (g : Game) :
  reachable cfg now rnd parse str sort g ->
  NoDup (enemies g) /\
  (forall r : EnemyRef, In r (enemies g) -> (r < length (heap g))%nat) /\
  (forall (b : Bullet) (target : EnemyRef),
     In b (playerBullets g) -> targetEnemy b = Some target ->
     (target < length (heap g))%nat) /\
  (forall b : Bullet, In b (playerBullets g) -> isPlayerBullet b = true) /\
  (forall b : Bullet, In b (enemyBullets g) ->
     isPlayerBullet b = false /\ targetEnemy b = None /\ radius b = 3).
Proof.
  intros Hreach.
  destruct (reachable_wellFormed cfg now rnd parse str sort g Hreach)
    as (Hnd & Hrefs & Hpbs & Hebs & _).
  rewrite Forall_forall in Hrefs. rewrite Forall_forall in Hpbs.
  rewrite Forall_forall in Hebs.
  split; [exact Hnd|].
  split; [intros r Hr; apply Hrefs, list_elem_of_In, Hr|].
  split.
  { intros b target Hb Ht. apply list_elem_of_In, Hpbs in Hb.
    destruct Hb as [_ Hvalid]. unfold validTarget in Hvalid.
    rewrite Ht in Hvalid. exact Hvalid. }
  split.
  { intros b Hb. apply list_elem_of_In, Hpbs in Hb. apply Hb. }
  intros b Hb. apply list_elem_of_In, Hebs in Hb. exact Hb.
Qed.

Lemma references_stay_valid_sample :
  NoDup (enemies sampleSession) /\
  (forall r : EnemyRef, In r (enemies sampleSession) ->
     (r < length (heap sampleSession))%nat) /\
  (forall (b : Bullet) (target : EnemyRef),
     In b (playerBullets sampleSession) -> targetEnemy b = Some target ->
     (target < length (heap sampleSession))%nat) /\
  (forall b : Bullet, In b (playerBullets sampleSession) -> isPlayerBullet b = true) /\
  (forall b : Bullet, In b (enemyBullets sampleSession) ->
     isPlayerBullet b = false /\ targetEnemy b = None /\ radius b = 3).
Proof.
  apply (references_stay_valid sampleConfig (fun _ => 5000) (fun _ => 1 / 2)
           value_of_text text_of_value sort_of_values sampleSession).
  apply sampleSession_reachable.
Defined.

(** X24.  In every session that can be reached the score is exactly
    [scorePerEnemy] times the number of enemies destroyed since the enemies
    were last set up: there are never more than [enemyCount] enemies, and
    score = scorePerEnemy x (enemyCount - number of enemies left). *)
Theorem score_counts_destroyed_enemies cfg now rnd parse str sort (g : Game) :
  reachable cfg now rnd parse str sort g ->
  (length (enemies g) <= enemyCount cfg)%nat /\
  score g
  = (scorePerEnemy cfg * Z.of_nat (enemyCount cfg - length (enemies g)))%Z.
Proof.
  intros Hreach.
  destruct (reachable_wellFormed cfg now rnd parse str sort g Hreach)
    as (_ & _ & _ & _ & Hbal & Hlen & _).
  split; [exact Hlen|]. unfold scoreBalance in Hbal.
  rewrite Nat2Z.inj_sub by exact Hlen. lia.
Qed.

(** X25.  For a configuration with at least one life, in every session that
    can be reached the state is [gameOver] exactly when no life is left
    (lives <= 0), and the state [gameClear] means that no enemy is left, that
    the score is the full [scorePerEnemy] x [enemyCount], and that the
    player has a life left. *)
Theorem final_states cfg now rnd parse str sort (g : Game) :
  (1 <= playerLives cfg)%Z ->
  reachable cfg now rnd parse str sort g ->
  (state g = gameOver <-> (lives (player g) <= 0)%Z) /\
  (state g = gameClear ->
   enemies g = [] /\
   score g = (scorePerEnemy cfg * Z.of_nat (enemyCount cfg))%Z /\
   (1 <= lives (player g))%Z).
Proof.
  intros Hcfg Hreach.
  destruct (reachable_wellFormed cfg now rnd parse str sort g Hreach)
    as (_ & _ & _ & _ & Hbal & _ & Hclear & Hover).
  pose proof (reachable_lively cfg now rnd parse str sort g Hcfg Hreach) as Hlive.
  unfold lively in Hlive. split.
  - split; [exact Hover|]. intros Hl. destruct Hlive as [H|H]; [exact H | lia].
  - intros Hs. specialize (Hclear Hs). split; [exact Hclear|].
    unfold scoreBalance in Hbal. rewrite Hclear in Hbal. cbn [length] in Hbal.
    split; [lia|]. destruct Hlive as [H|H]; [congruence | exact H].
Qed.

(** ** An enemy that was removed

    The store keeps every enemy that was ever allocated.  What is written
    in it under a reference that is not in the collection of enemies stays
    as it is. *)

Lemma retired_same r e g g' :
  heap g' = heap g -> enemies g' = enemies g -> retired r e g -> retired r e g'.
Proof. unfold retired. intros -> ->. tauto. Qed.

Lemma updatePlayer_retired cfg now r e g :
  retired r e g -> retired r e (updatePlayer cfg now g).
Proof.
  destruct (updatePlayer_core cfg now g) as (Hsame & _).
  injection Hsame as Hen _ _ _ Hh _.
  apply retired_same; assumption.
Qed.

Lemma updateEnemies_retired cfg now rnd r e g :
  retired r e g -> retired r e (updateEnemies cfg now rnd g).
Proof.
  intros (Hr & Hout & He).
  destruct (updateEnemies_shape cfg now rnd g) as (Hframe & Hlen & _).
  unfold bystanders in Hframe. injection Hframe as _ Hen _ _ _ _ _ _.
  unfold retired. rewrite Hlen, Hen.
  split; [exact Hr|]. split; [exact Hout|].
  rewrite <- He. unfold updateEnemies, Date_now_call.
  apply (updateEnemies_fold_other cfg rnd (now (clock g))
           (if Rleb 10000 (now (clock g) - gameStartTime (set_clock (S (clock g)) g))
            then enemyShootInterval cfg / 2 else enemyShootInterval cfg)
           (enemies (set_clock (S (clock g)) g)) (set_clock (S (clock g)) g) r).
  exact Hout.
Qed.

Lemma checkCollisions_retired cfg parse str sort r e g :
  retired r e g -> retired r e (checkCollisions cfg parse str sort g).
Proof.
  intros (Hr & Hout & He).
  destruct (checkCollisions_pruned cfg parse str sort g) as (Hen & _ & _ & Hh).
  unfold retired. rewrite Hh.
  split; [exact Hr|]. split; [|exact He].
  intros Hin. apply Hout, list_elem_of_In.
  eapply elem_of_sublist; [apply list_elem_of_In, Hin | exact Hen].
Qed.

Lemma updateBullets_retired cfg r e g :
  retired r e g -> retired r e (updateBullets cfg g).
Proof. apply retired_same; reflexivity. Qed.

Lemma frame_end_retired now r e g :
  retired r e g -> retired r e (requestAnimationFrame (render now g)).
Proof. apply retired_same; reflexivity. Qed.

Lemma gameLoop_retired cfg now rnd parse str sort r e g :
  retired r e g -> retired r e (gameLoop cfg now rnd parse str sort g).
Proof.
  intros Hg. destruct (GameState_eqb (state g) playing) eqn:E.
  - apply GameState_eqb_eq in E. rewrite gameLoop_playing by exact E.
    apply frame_end_retired, checkCollisions_retired, updateBullets_retired,
      updateEnemies_retired, updatePlayer_retired, Hg.
  - rewrite gameLoop_not_playing; [exact Hg|].
    intros H. apply GameState_eqb_eq in H. congruence.
Qed.

Lemma togglePause_retired cfg now rnd parse str sort r e g :
  retired r e g -> retired r e (togglePause cfg now rnd parse str sort g).
Proof.
  intros Hg. unfold togglePause. destruct (state g); try exact Hg.
  apply gameLoop_retired. exact Hg.
Qed.

Lemma restart_retired cfg now rnd parse str sort r e g :
  retired r e g -> retired r e (restart cfg now rnd parse str sort g).
Proof.
  intros (Hr & _ & He). unfold restart, Date_now_call. apply gameLoop_retired.
  set (g0 := set_player (createPlayer cfg) g).
  destruct (initEnemies_shape cfg now rnd g0) as (Hseq & _).
  destruct (initEnemy_fold cfg now rnd (enemyCount cfg) 0 (set_enemies [] g0))
    as (Hh & _).
  cbn zeta in Hh. fold (initEnemies cfg now rnd g0) in Hh.
  unfold retired.
  cbn [heap enemies set_player set_playerBullets set_enemyBullets set_score set_clock
       set_gameStartTime updateScore set_state hideOverlay call set_calls].
  rewrite Hseq, Hh. cbn [heap set_enemies set_player g0].
  split; [rewrite length_app; lia|].
  split.
  - intros Hin. apply list_elem_of_In, elem_of_seq in Hin.
    cbn [heap set_player g0] in Hin. lia.
  - unfold deref. rewrite app_nth1 by exact Hr. exact He.
Qed.

Lemma handle_retired cfg now rnd parse str sort event r e g :
  retired r e g -> retired r e (handle cfg now rnd parse str sort event g).
Proof.
  intros Hg. destruct event; cbn [handle].
  - apply gameLoop_retired, Hg.
  - exact Hg.
  - exact Hg.
  - apply togglePause_retired, Hg.
  - apply togglePause_retired, Hg.
  - apply restart_retired, Hg.
Qed.

Lemma run_retired cfg now rnd parse str sort events r e g :
  retired r e g -> retired r e (run cfg now rnd parse str sort events g).
Proof.
  unfold run. revert g. induction events as [|event events IH]; intros g Hg;
    cbn [fold_left]; [exact Hg|].
  apply IH, handle_retired, Hg.
Qed.

(** C1, amended.  The update recomputes the velocity of every player bullet
    that carries a target reference, as the direction from the bullet to the
    position read through that reference times [playerBulletSpeed]; whether
    the target is still in [enemies] plays no part (the fifth conjunct: the
    result is the same for any content of [enemies]).  A bullet without a
    target reference keeps its velocity.  Every bullet then moves by its
    velocity, and the bullets that left the canvas are dropped.

    What is read through the reference of a removed enemy is the enemy as it
    was when it was removed.  Collision resolution, the only place where
    enemies are removed, takes them out of the collection and leaves the
    store as it is.  An enemy of the store that is not in the collection is
    never written again and never put back into the collection, whatever
    events follow: so a bullet aimed at it is steered, in every later
    update, to the position it had when it was removed. *)
Theorem updateBullets_homing cfg now rnd parse str sort (g : Game) :
  playerBullets (updateBullets cfg g)
  = List.filter (playerBulletOnScreen cfg)
      (map (updatePlayerBullet cfg (heap g)) (playerBullets g)) /\
  (forall (b : Bullet) (target : EnemyRef),
     targetEnemy b = Some target ->
     let direction :=
       getDirectionVector (position b) (position (deref (heap g) target)) in
     velocity (updatePlayerBullet cfg (heap g) b)
     = mkVector2D (x direction * playerBulletSpeed cfg)
                  (y direction * playerBulletSpeed cfg)) /\
  (forall b : Bullet,
     targetEnemy b = None ->
     velocity (updatePlayerBullet cfg (heap g) b) = velocity b) /\
  (forall b : Bullet,
     position (updatePlayerBullet cfg (heap g) b)
     = mkVector2D
         (x (position b) + x (velocity (updatePlayerBullet cfg (heap g) b)))
         (y (position b) + y (velocity (updatePlayerBullet cfg (heap g) b)))) /\
  (forall others : list EnemyRef,
     playerBullets (updateBullets cfg (set_enemies others g))
     = playerBullets (updateBullets cfg g)) /\
  heap (checkCollisions cfg parse str sort g) = heap g /\
  sublist (enemies (checkCollisions cfg parse str sort g)) (enemies g) /\
  (forall (target : EnemyRef) (events : list Event),
     (target < length (heap g))%nat -> ~ In target (enemies g) ->
     let later := run cfg now rnd parse str sort events g in
     (target < length (heap later))%nat /\
     ~ In target (enemies later) /\
     deref (heap later) target = deref (heap g) target /\
     forall b : Bullet,
       targetEnemy b = Some target ->
       let direction :=
         getDirectionVector (position b) (position (deref (heap g) target)) in
       velocity (updatePlayerBullet cfg (heap later) b)
       = mkVector2D (x direction * playerBulletSpeed cfg)
                    (y direction * playerBulletSpeed cfg)).
Proof.
  destruct (updateBullets_velocities cfg g) as (H1 & H2 & H3 & H4 & H5).
  do 5 (split; [assumption|]).
  destruct (checkCollisions_pruned cfg parse str sort g) as (Hen & _ & _ & Hh).
  split; [exact Hh|]. split; [exact Hen|].
  intros target events Hr Hout later.
  destruct (run_retired cfg now rnd parse str sort events target (deref (heap g) target) g)
    as (Hr' & Hout' & He').
  { repeat split; assumption. }
  fold later in Hr', Hout', He'.
  split; [exact Hr'|]. split; [exact Hout'|]. split; [exact He'|].
  intros b Ht. cbn zeta. rewrite <- He'.
  unfold updatePlayerBullet. rewrite Ht. reflexivity.
Qed.

(** In [staleTargetGame] the enemy with the reference [0] has been removed.
    After a frame, a restart and another frame it is still out of the
    collection, and it is still read at [(100, 100)]. *)
Lemma updateBullets_homing_sample :
  let later :=
    run duoConfig (fun _ => 0) (fun _ => 1 / 2)
      value_of_text text_of_value sort_of_values
      [Frame; ClickRestart; Frame] staleTargetGame in
  (0 < length (heap later))%nat /\
  ~ In O (enemies later) /\
  position (deref (heap later) O) = mkVector2D 100 100.
Proof.
  cbn zeta.
  destruct (updateBullets_homing duoConfig (fun _ => 0) (fun _ => 1 / 2)
              value_of_text text_of_value sort_of_values staleTargetGame)
    as (_ & _ & _ & _ & _ & _ & _ & Hlater).
  destruct (Hlater O [Frame; ClickRestart; Frame]) as (Hin & Hout & Hsame & _).
  - cbn [staleTargetGame heap length]. lia.
  - cbn [staleTargetGame enemies]. intros [H|[]]. discriminate H.
  - split; [exact Hin|]. split; [exact Hout|]. rewrite Hsame. reflexivity.
Defined.

(** ** A session that ends its first frame with a negative number of lives *)

#[local] Arguments Rltb : simpl never.
#[local] Arguments Rleb : simpl never.
#[local] Arguments Reqb : simpl never.
#[local] Arguments clamp : simpl never.
#[local] Arguments normalize : simpl never.
#[local] Arguments getDirectionVector : simpl never.
#[local] Arguments checkCollision : simpl never.
#[local] Arguments saveHighScore : simpl never.
#[local] Arguments hitsOn : simpl never.
#[local] Arguments bulletsResolved : simpl never.
#[local] Arguments updatePlayer : simpl never.
#[local] Arguments updateEnemies : simpl never.
#[local] Arguments updateBullets : simpl never.
#[local] Arguments shootEnemyBullets : simpl never.

Lemma updatePlayer_at_rest cfg now g :
  keys g = ∅ ->
  radius (player g) <= x (position (player g)) <= canvasWidth cfg - radius (player g) ->
  radius (player g) <= y (position (player g)) <= canvasHeight cfg - radius (player g) ->
  updatePlayer cfg now g = g.
Proof.
  intros Hkeys Hx Hy. unfold updatePlayer, has. rewrite Hkeys.
  rewrite !bool_decide_eq_false_2 by set_solver.
  rewrite (proj2 (Reqb_true 0 0) eq_refl). cbn [negb orb].
  cbv beta iota zeta.
  cbn [keys set_player Player_on GameObject_at position velocity x y radius Player_obj
       lives lastShotTime].
  rewrite Hkeys, bool_decide_eq_false_2 by set_solver.
  rewrite !clamp_inside by lra.
  destruct g as [[[[px py] pv pr] pl pt] ? ? ? ? ? ? ? ? ? ? ? ? ? ?].
  clear Hkeys Hx Hy. unfold set_player, Player_on, GameObject_at; cbn.
  repeat f_equal; lra.
Qed.

Lemma tightReady_updateEnemies storage shown :
  updateEnemies tightConfig (fun _ => 5000) (fun _ => 1 / 2) (tightReady storage shown)
  = tightVolley storage shown.
Proof.
  unfold updateEnemies, Date_now_call, tightReady.
  cbn [clock gameStartTime enemies fold_left set_clock enemyShootInterval tightConfig].
  rewrite (proj2 (Rleb_false 10000 (5000 - 5000))) by lra.
  unfold updateEnemy.
  cbn [deref nth heap set_clock targetChangeTime].
  rewrite (proj2 (Rltb_false 2000 (5000 - 5000))) by lra.
  cbv beta iota zeta.
  cbn [position targetPosition Enemy_obj Enemy_on GameObject_moving GameObject_at velocity radius x y
       Enemy_lastShotTime canvasWidth canvasHeight enemySpeed tightConfig].
  unfold getDirectionVector. rewrite normalize_zero by (cbn; lra).
  cbn [x y].
  rewrite (proj2 (Rltb_true 1000 (5000 - 0))) by lra.
  rewrite shootEnemyBullets_eq.
  unfold enemyBullet, Enemy_on, GameObject_at, GameObject_moving, set_heap, set_enemyBullets,
    set_clock, tightVolley.
  cbn.
  rewrite !clamp_inside by lra. rewrite !clamp_above by lra.
  replace (PI * 2 / (1 + 1) * 0) with 0 by lra.
  replace (PI * 2 / (1 + 1) * 1) with PI by lra.
  rewrite cos_0, sin_0, cos_PI, sin_PI.
  repeat f_equal; lra.
Qed.

Lemma overlapsPlayer_left (p : Player) (b : Bullet) :
  y (position b) = y (position p) ->
  x (position b) <= x (position p) ->
  x (position p) - x (position b) < radius b + radius p ->
  overlapsPlayer p b = true.
Proof.
  intros Hy Hx Hclose. unfold overlapsPlayer, checkCollision.
  apply Rltb_true. rewrite distance_sym, distance_horizontal; auto.
Qed.

Lemma tightVolley_updateBullets storage shown :
  playerBullets (updateBullets tightConfig (tightVolley storage shown)) = [] /\
  player (updateBullets tightConfig (tightVolley storage shown)) = createPlayer tightConfig /\
  enemyBullets (updateBullets tightConfig (tightVolley storage shown))
  = [mkBullet (mkGameObject (mkVector2D (50 + 1) (50 + 0)) (mkVector2D 1 0) 3) false None;
     mkBullet (mkGameObject (mkVector2D (50 + -1) (50 + 0)) (mkVector2D (-1) 0) 3) false None].
Proof.
  split; [reflexivity|]. split; [reflexivity|].
  unfold updateBullets, tightVolley.
  cbn [enemyBullets set_enemyBullets set_playerBullets map List.filter].
  unfold updateEnemyBullet, Bullet_on, GameObject_at, enemyBulletOnScreen.
  cbn [position velocity radius x y Bullet_obj isPlayerBullet targetEnemy
       canvasWidth canvasHeight tightConfig].
  rewrite !(proj2 (Rleb_true _ _)) by lra.
  reflexivity.
Qed.

Lemma bulletsResolved_no_playerBullets cfg g :
  playerBullets g = [] -> bulletsResolved cfg g = g.
Proof.
  intros H. unfold bulletsResolved. cbn zeta. rewrite H.
  cbn [length playerBulletsVsEnemies]. rewrite H. reflexivity.
Qed.

Lemma tightSession_ready :
  exists storage shown,
    tightSession
    = gameLoop tightConfig (fun _ => 5000) (fun _ => 1 / 2) value_of_text text_of_value sort_of_values
        (tightReady storage shown).
Proof.
  unfold tightSession, start.
  destruct (saveHighScore _ _ _ _ _) as [highScores storage].
  exists storage. eexists. apply f_equal. reflexivity.
Qed.

(** C2, as stated, fails.  [tightSession] is reachable: it is the session
    right after [start], on a playfield whose values are all positive and
    with one life.  In its first frame the enemy, placed on the player by the
    confinement to the upper half, fires two bullets; both overlap the
    player, and the session ends the frame with [lives = -1]. *)
Lemma lives_negative_is_reachable :
  reachable tightConfig (fun _ => 5000) (fun _ => 1 / 2) value_of_text text_of_value sort_of_values
    tightSession /\
  (1 <= playerLives tightConfig)%Z /\
  lives (player tightSession) = (-1)%Z.
Proof.
  split; [exists ∅, []; unfold tightSession, run; cbn [fold_left]; reflexivity|].
  split; [cbn; lia|].
  destruct tightSession_ready as (storage & shown & ->).
  rewrite gameLoop_playing by reflexivity.
  rewrite (standing_lives _ _ (requestAnimationFrame_standing _)).
  rewrite (standing_lives _ _ (render_standing _ _)).
  rewrite checkCollisions_lives.
  rewrite updatePlayer_at_rest by (try reflexivity; cbn; lra).
  rewrite tightReady_updateEnemies.
  destruct (tightVolley_updateBullets storage shown) as (Hpb & Hp & Heb).
  rewrite bulletsResolved_no_playerBullets by exact Hpb.
  rewrite Hp, Heb.
  unfold hitsOn. cbn [List.filter].
  rewrite overlapsPlayer_right by (cbn; lra).
  rewrite overlapsPlayer_left by (cbn; lra).
  reflexivity.
Qed.

(** ** That frame, field by field *)

Ltac game_fields :=
  cbn [player enemies playerBullets enemyBullets state score keys animationId
       gameStartTime heap localStorage clock entropy frameRequests calls
       lives lastShotTime Player_obj
       set_player set_enemies set_playerBullets set_enemyBullets set_state set_score
       set_localStorage set_clock set_frameRequests set_animationId set_calls call
       length delete list_delete GameState_eqb fst snd
       playerBulletsVsEnemies playerBulletsVsEnemyBullets enemyBulletsVsPlayer].

Lemma tightVolley_flying storage shown :
  updateBullets tightConfig (tightVolley storage shown)
  = set_enemyBullets
      [mkBullet (mkGameObject (mkVector2D (50 + 1) (50 + 0)) (mkVector2D 1 0) 3) false None;
       mkBullet (mkGameObject (mkVector2D (50 + -1) (50 + 0)) (mkVector2D (-1) 0) 3) false None]
      (tightVolley storage shown).
Proof.
  unfold updateBullets, tightVolley.
  cbn [enemyBullets playerBullets heap set_enemyBullets set_playerBullets map List.filter].
  unfold updateEnemyBullet, Bullet_on, GameObject_at, enemyBulletOnScreen.
  cbn [position velocity radius x y Bullet_obj isPlayerBullet targetEnemy
       canvasWidth canvasHeight tightConfig].
  rewrite !(proj2 (Rleb_true _ _)) by lra.
  reflexivity.
Qed.

(** The two bullets of a volley fired at [(50, 50)], one step on, overlap a
    player that stands there. *)
Lemma volley_hits_right (v : Vector2D) :
  checkCollision (mkGameObject (mkVector2D (50 + 1) (50 + 0)) v 3)
                 (createPlayer tightConfig) = true.
Proof.
  apply checkCollision_horizontal; cbn; lra.
Qed.

Lemma volley_hits_left (v : Vector2D) :
  checkCollision (mkGameObject (mkVector2D (50 + -1) (50 + 0)) v 3)
                 (createPlayer tightConfig) = true.
Proof.
  unfold checkCollision. apply Rltb_true.
  rewrite distance_sym, distance_horizontal; cbn; lra.
Qed.

(** What [gameOver] does, field by field. *)
Lemma gameOver_record parse str sort g :
  gameOver_ parse str sort g
  = mkGame (player g) (enemies g) (playerBullets g) (enemyBullets g) gameOver (score g)
      (keys g) (animationId g) (gameStartTime g) (heap g)
      (snd (saveHighScore parse str sort (score g) (localStorage g)))
      (clock g) (entropy g) (frameRequests g)
      (Dom_showOverlay (GameOverOverlay (score g)) false
       :: Dom_updateHighScoresDisplay
            (fst (saveHighScore parse str sort (score g) (localStorage g)))
       :: Audio_playGameOver :: Audio_stopBGM :: calls g).
Proof.
  unfold gameOver_.
  cbn [score localStorage set_state call set_calls].
  destruct (saveHighScore parse str sort (score g) (localStorage g)) as [highScores storage].
  reflexivity.
Qed.

(** A hit that leaves the player without a life: the bullet is removed,
    the life is taken and the game is over; the score is saved. *)
Lemma enemyBulletVsPlayer_fatal parse str sort i g (b : Bullet) :
  enemyBullets g !! i = Some b ->
  checkCollision b (player g) = true ->
  (lives (player g) - 1 <= 0)%Z ->
  exists shown,
    enemyBulletVsPlayer parse str sort i g
    = mkGame (mkPlayer (player g) (lives (player g) - 1)%Z (lastShotTime (player g)))
        (enemies g) (playerBullets g) (delete i (enemyBullets g)) gameOver (score g)
        (keys g) (animationId g) (gameStartTime g) (heap g)
        (snd (saveHighScore parse str sort (score g) (localStorage g)))
        (clock g) (entropy g) (frameRequests g) shown.
Proof.
  intros Hb Hhit Hlast. unfold enemyBulletVsPlayer. rewrite Hb, Hhit.
  cbn [player lives set_player call set_calls set_enemyBullets].
  rewrite (proj2 (Z.leb_le _ _) Hlast). rewrite gameOver_record.
  eexists. reflexivity.
Qed.

Lemma zeroScores_saved :
  saveHighScore value_of_text text_of_value sort_of_values 0 zeroScores
  = ([JInt 0; JInt 0; JInt 0], zeroScores).
Proof. vm_compute. reflexivity. Qed.

Lemma zeroScores_beaten :
  saveHighScore value_of_text text_of_value sort_of_values 100 zeroScores
  = ([JInt 100; JInt 0; JInt 0], {[ HIGH_SCORES_KEY := "[100,0,0]"%string ]}).
Proof. vm_compute. reflexivity. Qed.

Lemma zeroScores_beaten_again :
  saveHighScore value_of_text text_of_value sort_of_values 100
    {[ HIGH_SCORES_KEY := "[100,0,0]"%string ]}
  = ([JInt 100; JInt 100; JInt 0], {[ HIGH_SCORES_KEY := "[100,100,0]"%string ]}).
Proof. vm_compute. reflexivity. Qed.

Lemma tightSession_ready_zeroScores :
  exists shown,
    tightSession
    = gameLoop tightConfig (fun _ => 5000) (fun _ => 1 / 2)
        value_of_text text_of_value sort_of_values (tightReady zeroScores shown).
Proof.
  unfold tightSession, start.
  change (localStorage (updateHighScoresDisplay noScores
            (new_Game tightConfig (fun _ => 5000) (fun _ => 1 / 2) ∅)))
    with (∅ : gmap string string).
  rewrite start_writes_zeros_to_empty_storage.
  eexists. apply f_equal. reflexivity.
Qed.

Lemma tightSession_over : exists shown, tightSession = tightOver shown.
Proof.
  destruct tightSession_ready_zeroScores as (shown & ->).
  rewrite gameLoop_playing by reflexivity.
  rewrite updatePlayer_at_rest by (try reflexivity; cbn; lra).
  rewrite tightReady_updateEnemies, tightVolley_flying.
  unfold checkCollisions, resolveHits, tightVolley.
  game_fields.
  match goal with
  | |- context [enemyBulletVsPlayer ?p ?s ?t 1%nat ?g] =>
      destruct (enemyBulletVsPlayer_fatal p s t 1%nat g
                  (mkBullet (mkGameObject (mkVector2D (50 + -1) (50 + 0))
                                          (mkVector2D (-1) 0) 3) false None))
        as (shown1 & ->);
      [reflexivity | apply volley_hits_left | cbn; lia |]
  end.
  game_fields. rewrite zeroScores_saved. game_fields.
  match goal with
  | |- context [enemyBulletVsPlayer ?p ?s ?t O ?g] =>
      destruct (enemyBulletVsPlayer_fatal p s t O g
                  (mkBullet (mkGameObject (mkVector2D (50 + 1) (50 + 0))
                                          (mkVector2D 1 0) 3) false None))
        as (shown2 & ->);
      [reflexivity | apply volley_hits_right | cbn; lia |]
  end.
  game_fields. rewrite zeroScores_saved. game_fields.
  unfold roundClearCheck. game_fields. rewrite andb_false_r.
  unfold render, Date_now_call. game_fields.
  unfold requestAnimationFrame. game_fields.
  eexists. reflexivity.
Qed.

Lemma tightSession_reachable :
  reachable tightConfig (fun _ => 5000) (fun _ => 1 / 2)
    value_of_text text_of_value sort_of_values tightSession.
Proof. exists ∅, []. unfold tightSession, run. cbn [fold_left]. reflexivity. Qed.

(** [tightSession] has ended its first frame in the state [gameOver], with
    [lives = -1]. *)
Lemma final_states_sample :
  state tightSession = gameOver /\
  lives (player tightSession) = (-1)%Z /\
  (state tightSession = gameOver <-> (lives (player tightSession) <= 0)%Z) /\
  (state tightSession = gameClear ->
   enemies tightSession = [] /\
   score tightSession
   = (scorePerEnemy tightConfig * Z.of_nat (enemyCount tightConfig))%Z /\
   (1 <= lives (player tightSession))%Z).
Proof.
  split; [destruct tightSession_over as (shown & ->); reflexivity|].
  split; [destruct tightSession_over as (shown & ->); reflexivity|].
  apply (final_states tightConfig (fun _ => 5000) (fun _ => 1 / 2)
           value_of_text text_of_value sort_of_values tightSession).
  - simpl. lia.
  - apply tightSession_reachable.
Defined.

(** ** The last enemy and the last life in one frame

    [lastStand] is [tightSession] after the fire key has been pressed and
    the game restarted.  In the frame that [restart] runs, the player fires
    at the new enemy, which is moved onto the player and fires its volley;
    the player bullet destroys the enemy and both enemy bullets hit the
    player. *)

Lemma lastStand_ready :
  exists shown,
    lastStand
    = gameLoop tightConfig (fun _ => 5000) (fun _ => 1 / 2)
        value_of_text text_of_value sort_of_values (lastStandReady shown).
Proof.
  unfold lastStand, run. cbn [fold_left handle].
  destruct tightSession_over as (shown & ->).
  unfold restart.
  eexists. apply f_equal. reflexivity.
Qed.

Lemma updatePlayer_fires cfg now g :
  "m" ∈ keys g ->
  "w" ∉ keys g -> "s" ∉ keys g -> "a" ∉ keys g -> "d" ∉ keys g ->
  radius (player g) <= x (position (player g)) <= canvasWidth cfg - radius (player g) ->
  radius (player g) <= y (position (player g)) <= canvasHeight cfg - radius (player g) ->
  updatePlayer cfg now g = shootPlayerBullet cfg now g.
Proof.
  intros Hm Hw Hs Ha Hd Hx Hy. unfold updatePlayer, has.
  rewrite !bool_decide_eq_false_2 by assumption.
  rewrite (proj2 (Reqb_true 0 0) eq_refl). cbn [negb orb].
  cbv beta iota zeta.
  cbn [keys set_player Player_on GameObject_at position velocity x y radius Player_obj
       lives lastShotTime].
  rewrite bool_decide_eq_true_2 by exact Hm.
  rewrite !clamp_inside by lra.
  f_equal.
  destruct g as [[[[px py] pv pr] pl pt] ? ? ? ? ? ? ? ? ? ? ? ? ? ?].
  unfold set_player, Player_on, GameObject_at; cbn.
  repeat f_equal; lra.
Qed.

Lemma only_fire_key_held (key : string) :
  key <> "m"%string -> key ∉ ({["m"%string]} ∪ ∅ : gset string).
Proof.
  intros Hkey Hin. apply elem_of_union in Hin.
  destruct Hin as [Hin|Hin].
  - apply elem_of_singleton in Hin. contradiction.
  - apply elem_of_empty in Hin. exact Hin.
Qed.

Lemma lastStandReady_aimed shown :
  updatePlayer tightConfig (fun _ => 5000) (lastStandReady shown)
  = mkGame (mkPlayer (createPlayer tightConfig) 1%Z 5000) [1%nat]
      [mkBullet (mkGameObject (mkVector2D (100 / 2) (100 - 50)) (mkVector2D 0 0) 4)
                true (Some 1%nat)]
      [] playing 0%Z ({["m"]} ∪ ∅) 1%nat 5000
      (heap (lastStandReady shown))
      zeroScores 7%nat 2%nat 1%nat (Audio_playShoot :: shown).
Proof.
  rewrite updatePlayer_fires;
    [| apply elem_of_union_l, elem_of_singleton; reflexivity
     | apply only_fire_key_held; discriminate ..
     | cbn; lra | cbn; lra].
  unfold shootPlayerBullet, Date_now_call, lastStandReady.
  cbn [clock player lastShotTime set_clock createPlayer tightConfig playerShootCooldown].
  rewrite (proj2 (Rltb_false (5000 - 0) 200)) by lra.
  reflexivity.
Qed.

Lemma lastStandReady_volley shown :
  updateEnemies tightConfig (fun _ => 5000) (fun _ => 1 / 2)
    (updatePlayer tightConfig (fun _ => 5000) (lastStandReady shown))
  = mkGame (mkPlayer (createPlayer tightConfig) 1%Z 5000) [1%nat]
      [mkBullet (mkGameObject (mkVector2D (100 / 2) (100 - 50)) (mkVector2D 0 0) 4)
                true (Some 1%nat)]
      [mkBullet (mkGameObject (mkVector2D 50 50) (mkVector2D 1 0) 3) false None;
       mkBullet (mkGameObject (mkVector2D 50 50) (mkVector2D (-1) 0) 3) false None]
      playing 0%Z ({["m"]} ∪ ∅) 1%nat 5000
      [mkEnemy (mkGameObject (mkVector2D 50 50) (mkVector2D 0 0) 15)
               5000 5000 (mkVector2D 50 150);
       mkEnemy (mkGameObject (mkVector2D 50 50) (mkVector2D 0 0) 15)
               5000 5000 (mkVector2D 50 150)]
      zeroScores 8%nat 2%nat 1%nat (Audio_playShoot :: shown).
Proof.
  rewrite lastStandReady_aimed.
  unfold updateEnemies, Date_now_call, lastStandReady.
  cbn [clock gameStartTime enemies fold_left set_clock enemyShootInterval tightConfig heap].
  rewrite (proj2 (Rleb_false 10000 (5000 - 5000))) by lra.
  unfold updateEnemy.
  cbn [deref nth heap set_clock targetChangeTime].
  rewrite (proj2 (Rltb_false 2000 (5000 - 5000))) by lra.
  cbv beta iota zeta.
  cbn [position targetPosition Enemy_obj Enemy_on GameObject_moving GameObject_at velocity radius x y
       Enemy_lastShotTime canvasWidth canvasHeight enemySpeed tightConfig].
  unfold getDirectionVector. rewrite normalize_zero by (cbn; lra).
  cbn [x y].
  rewrite (proj2 (Rltb_true 1000 (5000 - 0))) by lra.
  rewrite shootEnemyBullets_eq.
  unfold enemyBullet, Enemy_on, GameObject_at, GameObject_moving, set_heap, set_enemyBullets,
    set_clock.
  cbn.
  rewrite !clamp_inside by lra. rewrite !clamp_above by lra.
  replace (PI * 2 / (1 + 1) * 0) with 0 by lra.
  replace (PI * 2 / (1 + 1) * 1) with PI by lra.
  rewrite cos_0, sin_0, cos_PI, sin_PI.
  repeat f_equal; lra.
Qed.

Lemma lastStandReady_flying shown :
  updateBullets tightConfig
    (updateEnemies tightConfig (fun _ => 5000) (fun _ => 1 / 2)
       (updatePlayer tightConfig (fun _ => 5000) (lastStandReady shown)))
  = lastStandFlying (Audio_playShoot :: shown).
Proof.
  rewrite lastStandReady_volley.
  unfold updateBullets, lastStandFlying.
  cbn [enemyBullets playerBullets heap set_enemyBullets set_playerBullets map List.filter].
  unfold updatePlayerBullet, updateEnemyBullet.
  cbn [targetEnemy deref nth Enemy_obj Bullet_obj position].
  unfold getDirectionVector. rewrite normalize_zero by (cbn; lra).
  unfold Bullet_on, GameObject_at, GameObject_moving, enemyBulletOnScreen, playerBulletOnScreen.
  cbn [position velocity radius x y Bullet_obj isPlayerBullet targetEnemy
       canvasWidth canvasHeight tightConfig playerBulletSpeed].
  rewrite !(proj2 (Rleb_true _ _)) by lra.
  unfold set_enemyBullets, set_playerBullets.
  cbn [player enemies playerBullets enemyBullets state score keys animationId gameStartTime
       heap localStorage clock entropy frameRequests calls].
  repeat f_equal; lra.
Qed.

(** The first two loops of collision resolution in that frame: the player
    bullet destroys the enemy. *)
Lemma lastStandFlying_resolved shown :
  bulletsResolved tightConfig (lastStandFlying shown)
  = set_calls (Audio_playHit :: Dom_updateScore 100 :: shown)
      (set_score 100%Z
         (set_enemies [] (set_playerBullets [] (lastStandFlying shown)))).
Proof.
  unfold bulletsResolved, lastStandFlying.
  cbn [playerBullets length playerBulletsVsEnemies lookup list_lookup enemies
       bulletVsEnemies heap deref nth].
  rewrite checkCollision_horizontal by (cbn; lra).
  reflexivity.
Qed.

Lemma lastStandFlying_over shown :
  exists shown',
    requestAnimationFrame
      (render (fun _ => 5000)
         (checkCollisions tightConfig value_of_text text_of_value sort_of_values
            (lastStandFlying shown)))
    = lastStandOver shown'.
Proof.
  unfold checkCollisions, resolveHits. cbn zeta.
  change (playerBulletsVsEnemyBullets
            (length (playerBullets
                       (playerBulletsVsEnemies tightConfig
                          (length (playerBullets (lastStandFlying shown)))
                          (lastStandFlying shown))))
            (playerBulletsVsEnemies tightConfig
               (length (playerBullets (lastStandFlying shown)))
               (lastStandFlying shown)))
    with (bulletsResolved tightConfig (lastStandFlying shown)).
  rewrite lastStandFlying_resolved. unfold lastStandFlying.
  game_fields.
  match goal with
  | |- context [enemyBulletVsPlayer ?p ?s ?t 1%nat ?g] =>
      destruct (enemyBulletVsPlayer_fatal p s t 1%nat g
                  (mkBullet (mkGameObject (mkVector2D (50 + -1) (50 + 0))
                                          (mkVector2D (-1) 0) 3) false None))
        as (shown1 & ->);
      [reflexivity | apply volley_hits_left | cbn; lia |]
  end.
  game_fields. rewrite zeroScores_beaten. game_fields.
  match goal with
  | |- context [enemyBulletVsPlayer ?p ?s ?t O ?g] =>
      destruct (enemyBulletVsPlayer_fatal p s t O g
                  (mkBullet (mkGameObject (mkVector2D (50 + 1) (50 + 0))
                                          (mkVector2D 1 0) 3) false None))
        as (shown2 & ->);
      [reflexivity | apply volley_hits_right | cbn; lia |]
  end.
  game_fields. rewrite zeroScores_beaten_again. game_fields.
  unfold roundClearCheck. game_fields. rewrite andb_false_r.
  unfold render, Date_now_call. game_fields.
  unfold requestAnimationFrame. game_fields.
  eexists. reflexivity.
Qed.

Lemma lastStand_over : exists shown, lastStand = lastStandOver shown.
Proof.
  destruct lastStand_ready as (shown & ->).
  rewrite gameLoop_playing by reflexivity.
  rewrite lastStandReady_flying.
  apply lastStandFlying_over.
Qed.

Lemma lastStand_reachable :
  reachable tightConfig (fun _ => 5000) (fun _ => 1 / 2)
    value_of_text text_of_value sort_of_values lastStand.
Proof. exists ∅, [KeyDown "m"; ClickRestart]. unfold lastStand, tightSession. reflexivity. Qed.

Lemma lastStand_frame :
  exists shown,
    lastStand
    = requestAnimationFrame
        (render (fun _ => 5000)
           (checkCollisions tightConfig value_of_text text_of_value sort_of_values
              (lastStandFlying shown))).
Proof.
  destruct lastStand_ready as (shown & ->).
  rewrite gameLoop_playing by reflexivity.
  rewrite lastStandReady_flying.
  eexists. reflexivity.
Qed.

Lemma frame_end_core now g :
  (enemies (requestAnimationFrame (render now g)),
   state (requestAnimationFrame (render now g)),
   score (requestAnimationFrame (render now g)),
   player (requestAnimationFrame (render now g)),
   localStorage (requestAnimationFrame (render now g)))
  = (enemies g, state g, score g, player g, localStorage g).
Proof. reflexivity. Qed.

(** C5, as stated, fails.  [lastStand] is reachable.  Its last frame enters
    collision resolution in the state [playing], with one enemy, one life,
    a player bullet on the enemy and two enemy bullets on the player.  The
    first loop destroys the enemy: the collection of enemies is empty, and
    the state is still [playing].  The third loop then takes the last life:
    the state becomes [gameOver], and the closing test, which finds the state
    no longer [playing], does not call [gameClear].  The frame ends in the
    state [gameOver] with no enemy, and what has been saved is the score of
    100, with no bonus. *)
Lemma last_enemy_falls_with_last_life :
  reachable tightConfig (fun _ => 5000) (fun _ => 1 / 2)
    value_of_text text_of_value sort_of_values lastStand /\
  exists shown : list HostCall,
    let entering := lastStandFlying shown in
    let resolved :=
      checkCollisions tightConfig value_of_text text_of_value sort_of_values entering in
    lastStand = requestAnimationFrame (render (fun _ => 5000) resolved) /\
    state entering = playing /\
    enemies entering = [1%nat] /\
    lives (player entering) = 1%Z /\
    score entering = 0%Z /\
    enemies (bulletsResolved tightConfig entering) = [] /\
    state (bulletsResolved tightConfig entering) = playing /\
    enemies resolved = [] /\
    state resolved = gameOver /\
    score resolved = 100%Z /\
    lives (player resolved) = (-1)%Z /\
    localStorage resolved = {[ HIGH_SCORES_KEY := "[100,100,0]"%string ]}.
Proof.
  split; [exact lastStand_reachable|].
  destruct lastStand_frame as (shown & Hframe).
  exists shown. cbn zeta.
  split; [exact Hframe|].
  do 4 (split; [reflexivity|]).
  rewrite lastStandFlying_resolved.
  do 2 (split; [reflexivity|]).
  destruct (lastStandFlying_over shown) as (shown' & Hover).
  pose proof (frame_end_core (fun _ => 5000)
                (checkCollisions tightConfig value_of_text text_of_value sort_of_values
                   (lastStandFlying shown))) as Hcore.
  rewrite Hover in Hcore. injection Hcore as Hen Hst Hsc Hp Hl.
  rewrite <- Hen, <- Hst, <- Hsc, <- Hp, <- Hl. repeat split.
Qed.

(** In [lastStand] the one enemy of the round has been destroyed. *)
Lemma score_counts_destroyed_enemies_sample :
  enemies lastStand = [] /\
  score lastStand = 100%Z /\
  (length (enemies lastStand) <= enemyCount tightConfig)%nat /\
  score lastStand
  = (scorePerEnemy tightConfig
     * Z.of_nat (enemyCount tightConfig - length (enemies lastStand)))%Z.
Proof.
  split; [destruct lastStand_over as (shown & ->); reflexivity|].
  split; [destruct lastStand_over as (shown & ->); reflexivity|].
  apply (score_counts_destroyed_enemies tightConfig (fun _ => 5000) (fun _ => 1 / 2)
           value_of_text text_of_value sort_of_values lastStand).
  apply lastStand_reachable.
Defined.

(** ** The audio module *)

Import Audio.

(** *** What a function of the module leaves alone *)

Lemma preserves_ret {A} (I : State -> Prop) (a : A) : preserves I (mret a).
Proof. intros s Hs. exact Hs. Qed.

Lemma preserves_bind {A B} (I : State -> Prop) (m : M A) (f : A -> M B) :
  preserves I m -> (forall a, preserves I (f a)) -> preserves I (m ≫= f).
Proof.
  intros Hm Hf s Hs. specialize (Hm s Hs). unfold exec, mbind, M_bind in *.
  destruct (m s) as [[a|] s']; cbn [snd] in *; [apply Hf, Hm | exact Hm].
Qed.

Lemma preserves_get (I : State -> Prop) : preserves I get.
Proof. intros s Hs. exact Hs. Qed.

Lemma preserves_modify (I : State -> Prop) (f : State -> State) :
  (forall s, I s -> I (f s)) -> preserves I (modify f).
Proof. intros Hf s Hs. apply Hf, Hs. Qed.

Lemma preserves_host throws (I : State -> Prop) (op : Op) :
  (forall op s, I s -> I (record op s)) -> preserves I (host throws op).
Proof.
  intros Hrec s Hs. unfold exec, host. destruct (throws (count s)); apply Hrec, Hs.
Qed.

Lemma preserves_safe (I : State -> Prop) (op : Op) :
  (forall op s, I s -> I (record op s)) -> preserves I (safe op).
Proof. intros Hrec s Hs. apply Hrec, Hs. Qed.

Lemma preserves_try_catch (I : State -> Prop) (body handler : M unit) :
  preserves I body -> preserves I handler -> preserves I (try_catch body handler).
Proof.
  intros Hb Hh s Hs. specialize (Hb s Hs). unfold exec, try_catch in *.
  destruct (body s) as [[a|] s']; cbn [snd] in *; [exact Hb | apply Hh, Hb].
Qed.

Ltac preserves_step :=
  match goal with
  | |- preserves _ (match ?x with _ => _ end) => destruct x
  | |- preserves _ (mret _) => apply preserves_ret
  | |- preserves _ get => apply preserves_get
  | |- preserves _ (_ ≫= _) => apply preserves_bind; [|intros ?]
  | |- preserves _ (try_catch _ _) => apply preserves_try_catch
  | |- preserves _ (host _ _) => apply preserves_host; assumption
  | |- preserves _ (safe _) => apply preserves_safe; assumption
  | |- preserves _ (modify _) => apply preserves_modify; intros; auto
  end.

Lemma stopBGM_preserves throws (I : State -> Prop) :
  (forall op s, I s -> I (record op s)) ->
  (forall v s, I s -> I (set_timers v s)) ->
  (forall v s, I s -> I (set_bgmInterval v s)) ->
  (forall v s, I s -> I (set_bgmOscillator v s)) ->
  (forall v s, I s -> I (set_bgmGain v s)) ->
  preserves I (stopBGM throws).
Proof.
  intros Hrec Htm Hiv Hosc Hgain. unfold stopBGM. repeat preserves_step.
Qed.

Lemma ensureAudioContext_preserves throws (I : State -> Prop) :
  (forall op s, I s -> I (record op s)) ->
  (forall v s, I s -> I (set_audioContext v s)) ->
  preserves I (ensureAudioContext throws).
Proof.
  intros Hrec Hctx. unfold ensureAudioContext. repeat preserves_step.
Qed.

Lemma startBGM_preserves throws (I : State -> Prop) :
  (forall op s, I s -> I (record op s)) ->
  (forall v s, I s -> I (set_timers v s)) ->
  (forall v s, I s -> I (set_bgmInterval v s)) ->
  (forall v s, I s -> I (set_bgmOscillator v s)) ->
  (forall v s, I s -> I (set_bgmGain v s)) ->
  (forall v s, I s -> I (set_audioContext v s)) ->
  preserves I (startBGM throws).
Proof.
  intros Hrec Htm Hiv Hosc Hgain Hctx. unfold startBGM.
  repeat first [ apply stopBGM_preserves; assumption
               | apply ensureAudioContext_preserves; assumption
               | preserves_step ].
Qed.

Lemma cacheSound_preserves throws (I : State -> Prop) key :
  (forall op s, I s -> I (record op s)) ->
  (forall v s, I s -> I (set_cachedSounds v s)) ->
  preserves I (cacheSound throws key).
Proof.
  intros Hrec Hcache. unfold cacheSound. repeat preserves_step.
Qed.

Lemma initSoundCache_preserves throws (I : State -> Prop) :
  (forall op s, I s -> I (record op s)) ->
  (forall v s, I s -> I (set_audioContext v s)) ->
  (forall v s, I s -> I (set_cachedSounds v s)) ->
  preserves I (initSoundCache throws).
Proof.
  intros Hrec Hctx Hcache. unfold initSoundCache, sounds. cbn [foldr].
  repeat first [ apply ensureAudioContext_preserves; assumption
               | apply cacheSound_preserves; assumption
               | preserves_step ].
Qed.

Lemma playCachedSound_preserves throws (I : State -> Prop) key :
  (forall op s, I s -> I (record op s)) ->
  (forall v s, I s -> I (set_audioContext v s)) ->
  (forall v s, I s -> I (set_cachedSounds v s)) ->
  preserves I (playCachedSound throws key).
Proof.
  intros Hrec Hctx Hcache. unfold playCachedSound.
  repeat first [ apply ensureAudioContext_preserves; assumption
               | apply initSoundCache_preserves; assumption
               | preserves_step ].
Qed.

Lemma toggleMute_preserves throws (I : State -> Prop) :
  (forall op s, I s -> I (record op s)) ->
  (forall v s, I s -> I (set_timers v s)) ->
  (forall v s, I s -> I (set_bgmInterval v s)) ->
  (forall v s, I s -> I (set_bgmOscillator v s)) ->
  (forall v s, I s -> I (set_bgmGain v s)) ->
  (forall v s, I s -> I (set_isMutedState v s)) ->
  (forall v s, I s -> I (set_storage v s)) ->
  preserves I (toggleMute throws).
Proof.
  intros Hrec Htm Hiv Hosc Hgain Hmute Hst. unfold toggleMute. cbn zeta.
  repeat first [ apply stopBGM_preserves; assumption | preserves_step ].
Qed.

Lemma tick_preserves throws (I : State -> Prop) id :
  (forall op s, I s -> I (record op s)) ->
  (forall v s, I s -> I (set_timers v s)) ->
  forall s, I s -> I (tick throws id s).
Proof.
  intros Hrec Htm s Hs. unfold tick.
  destruct (timers s !! id); [|exact Hs].
  destruct (_ && _); [|exact Hs].
  apply preserves_host; [exact Hrec|]. apply Htm, Hs.
Qed.

(** *** Returning *)

Lemma returns_ret {A} (a : A) : returns (mret a).
Proof. intros s. eexists. reflexivity. Qed.

Lemma returns_bind {A B} (m : M A) (f : A -> M B) :
  returns m -> (forall a, returns (f a)) -> returns (m ≫= f).
Proof.
  intros Hm Hf s. destruct (Hm s) as [a Ha]. unfold mbind, M_bind.
  destruct (m s) as [[a'|] s']; cbn [fst] in *; [apply Hf | discriminate].
Qed.

Lemma returns_try_catch (body handler : M unit) :
  returns handler -> returns (try_catch body handler).
Proof.
  intros Hh s. unfold try_catch.
  destruct (body s) as [[a|] s']; [eexists; reflexivity | apply Hh].
Qed.

Lemma returns_safe (op : Op) : returns (safe op).
Proof. intros s. eexists. reflexivity. Qed.

Lemma stopBGM_returns throws : returns (stopBGM throws).
Proof. apply returns_try_catch, returns_safe. Qed.

Lemma startBGM_returns throws : returns (startBGM throws).
Proof.
  unfold startBGM. apply returns_bind; [intros s; eexists; reflexivity|].
  intros s. destruct (isMutedState s); [apply returns_ret|].
  apply returns_try_catch, returns_safe.
Qed.

Lemma playCachedSound_returns throws key : returns (playCachedSound throws key).
Proof.
  unfold playCachedSound. apply returns_bind; [intros s; eexists; reflexivity|].
  intros s. destruct (isMutedState s); [apply returns_ret|].
  apply returns_try_catch, returns_safe.
Qed.

(** [toggleMute] as one step: the flag is flipped and saved, and if that
    mutes the module while there is an oscillator, [stopBGM] runs. *)
Lemma toggleMute_run throws s :
  toggleMute throws s
  = (Some (negb (isMutedState s)),
     let s1 :=
       set_storage (saveMuteState (negb (isMutedState s)) (storage s))
         (set_isMutedState (negb (isMutedState s)) s) in
     if negb (isMutedState s) && bool_decide (is_Some (bgmOscillator s))
     then exec (stopBGM throws) s1 else s1).
Proof.
  unfold toggleMute. cbv [mbind M_bind get modify mret M_ret exec].
  cbn [bgmOscillator storage isMutedState set_storage set_isMutedState].
  set (s1 := set_storage _ _).
  destruct (negb (isMutedState s) && bool_decide (is_Some (bgmOscillator s)));
    [|reflexivity].
  destruct (stopBGM_returns throws s1) as [[] Hr].
  destruct (stopBGM throws s1) as [[[]|] s2]; cbn [fst snd] in *;
    [reflexivity | discriminate].
Qed.

(** X26.  No exported function of the audio module throws, whichever
    operations of the Web Audio API or of ZzFX fail: the functions that play
    a sound, [startBGM] and [stopBGM] return normally, and [toggleMute]
    returns the new value of the flag, the negation of the old one.  A
    failure of the audio system never interrupts the game loop. *)
Theorem audio_never_throws throws (s : State) (key : string) :
  fst (stopBGM throws s) = Some tt /\
  fst (startBGM throws s) = Some tt /\
  fst (playCachedSound throws key s) = Some tt /\
  fst (playShoot throws s) = Some tt /\
  fst (playHit throws s) = Some tt /\
  fst (playDamage throws s) = Some tt /\
  fst (playGameOver throws s) = Some tt /\
  fst (playGameClear throws s) = Some tt /\
  fst (toggleMute throws s) = Some (negb (isMutedState s)) /\
  isMutedState (exec (toggleMute throws) s) = negb (isMutedState s).
Proof.
  assert (Hunit : forall m : M unit, returns m -> forall s, fst (m s) = Some tt).
  { intros m Hm s'. destruct (Hm s') as [[] H]. exact H. }
  split; [apply (Hunit (stopBGM throws)), stopBGM_returns|].
  split; [apply (Hunit (startBGM throws)), startBGM_returns|].
  split; [apply (Hunit (playCachedSound throws key)), playCachedSound_returns|].
  split; [apply (Hunit (playShoot throws)); exact (playCachedSound_returns throws "shoot")|].
  split; [apply (Hunit (playHit throws)); exact (playCachedSound_returns throws "hit")|].
  split; [apply (Hunit (playDamage throws)); exact (playCachedSound_returns throws "damage")|].
  split; [apply (Hunit (playGameOver throws)); exact (playCachedSound_returns throws "gameOver")|].
  split; [apply (Hunit (playGameClear throws)); exact (playCachedSound_returns throws "gameClear")|].
  split; [rewrite toggleMute_run; reflexivity|].
  unfold exec. rewrite toggleMute_run. cbn [snd].
  destruct (_ && _); [|reflexivity].
  apply (stopBGM_preserves throws (fun s' => isMutedState s' = negb (isMutedState s)));
    intros; auto.
Qed.

(** *** Running a function step by step *)

Lemma post_ret {A} (a : A) s (R : option A -> State -> Prop) :
  R (Some a) s -> post (mret a) s R.
Proof. intros H. exact H. Qed.

Lemma post_get s (R : option State -> State -> Prop) :
  R (Some s) s -> post get s R.
Proof. intros H. exact H. Qed.

Lemma post_modify (f : State -> State) s (R : option unit -> State -> Prop) :
  R (Some tt) (f s) -> post (modify f) s R.
Proof. intros H. exact H. Qed.

Lemma post_safe (op : Op) s (R : option unit -> State -> Prop) :
  R (Some tt) (record op s) -> post (safe op) s R.
Proof. intros H. exact H. Qed.

Lemma post_host throws (op : Op) s (R : option nat -> State -> Prop) :
  (throws (count s) = true -> R None (record op s)) ->
  (throws (count s) = false -> R (Some (count s)) (record op s)) ->
  post (host throws op) s R.
Proof.
  intros Ht Hf. unfold post, host.
  destruct (throws (count s)); [apply Ht | apply Hf]; reflexivity.
Qed.

Lemma post_bind {A B} (m : M A) (f : A -> M B) s (R : option B -> State -> Prop) :
  post m s (fun r s' => match r with
                        | Some a => post (f a) s' R
                        | None => R None s'
                        end) ->
  post (m ≫= f) s R.
Proof.
  unfold post, mbind, M_bind. destruct (m s) as [[a|] s']; cbn [fst snd]; auto.
Qed.

Lemma post_try_catch (body handler : M unit) s (R : option unit -> State -> Prop) :
  post body s (fun r s' => match r with
                           | Some a => R (Some a) s'
                           | None => post handler s' R
                           end) ->
  post (try_catch body handler) s R.
Proof.
  unfold post, try_catch. destruct (body s) as [[a|] s']; cbn [fst snd]; auto.
Qed.

Lemma post_weaken {A} (m : M A) s (R R' : option A -> State -> Prop) :
  (forall r s', R r s' -> R' r s') -> post m s R -> post m s R'.
Proof. unfold post. auto. Qed.

Lemma post_preserves {A} (I : State -> Prop) (m : M A) s :
  preserves I m -> I s -> post m s (fun _ s' => I s').
Proof. intros Hm Hs. apply Hm, Hs. Qed.

Lemma post_exec {A} (m : M A) s (Q : State -> Prop) :
  post m s (fun _ s' => Q s') -> Q (exec m s).
Proof. intros H. exact H. Qed.

Ltac audio_fields :=
  cbn [isMutedState audioContext bgmOscillator bgmGain bgmInterval cachedSounds
       storage timers performed count
       set_isMutedState set_audioContext set_bgmOscillator set_bgmGain
       set_bgmInterval set_cachedSounds set_storage set_timers record] in *.

Ltac post_step :=
  lazymatch goal with
  | |- post (match ?x with _ => _ end) _ _ => destruct x eqn:?
  | |- post (mret _) _ _ => apply post_ret
  | |- post get _ _ => apply post_get
  | |- post (_ ≫= _) _ _ => apply post_bind
  | |- post (try_catch _ _) _ _ => apply post_try_catch
  | |- post (host _ _) _ _ => apply post_host; intros ?
  | |- post (safe _) _ _ => apply post_safe
  | |- post (modify _) _ _ => apply post_modify
  end; cbv beta iota; audio_fields.

(** *** The interval timer *)

Lemma noTimer_oneTimer s : noTimer s -> oneTimer s.
Proof. intros [Hi Ht]. unfold oneTimer. rewrite Hi. exact Ht. Qed.

Lemma stopBGM_noTimer throws s : oneTimer s -> noTimer (exec (stopBGM throws) s).
Proof.
  intros Hs. apply post_exec. unfold stopBGM. do 4 post_step.
  assert (Hrest : forall s', noTimer s' ->
    post (safe (console_warn "Failed to stop BGM:")) s' (fun _ s'' => noTimer s'')).
  { intros s' H. exact H. }
  assert (Hnodes : forall s', noTimer s' ->
    post
      (s0 ← get;
       match bgmOscillator s0 with
       | Some _ =>
           host throws oscillator_stop;;
           host throws oscillator_disconnect;;
           modify (set_bgmOscillator None)
       | None => mret tt
       end;;
       s1 ← get;
       match bgmGain s1 with
       | Some _ => host throws gain_disconnect;; modify (set_bgmGain None)
       | None => mret tt
       end) s'
      (fun r s'' => match r with
                    | Some a => noTimer s''
                    | None => post (safe (console_warn "Failed to stop BGM:")) s''
                                (fun _ s''' => noTimer s''')
                    end)).
  { intros s' H.
    apply (post_weaken _ _ (fun _ s'' => noTimer s'')).
    - intros [a|] s'' H'; [exact H' | apply Hrest, H'].
    - assert (Hrec : forall op s, noTimer s -> noTimer (record op s))
        by (intros ? ? H'; exact H').
      assert (Hosc : forall v s, noTimer s -> noTimer (set_bgmOscillator v s))
        by (intros ? ? H'; exact H').
      assert (Hgain : forall v s, noTimer s -> noTimer (set_bgmGain v s))
        by (intros ? ? H'; exact H').
      apply post_preserves; [|exact H].
      repeat preserves_step. }
  unfold oneTimer in Hs.
  destruct (bgmInterval s) as [id|] eqn:Hid.
  - destruct Hs as [[i Ht] _]. do 5 post_step.
    apply Hnodes. split; [reflexivity|]. audio_fields.
    rewrite Ht. apply delete_singleton_eq.
  - post_step. apply Hnodes. split; assumption.
Qed.

Lemma noTimer_record op s : noTimer s -> noTimer (record op s).
Proof. intros H. exact H. Qed.

Lemma startBGM_oneTimer throws s : oneTimer s -> oneTimer (exec (startBGM throws) s).
Proof.
  intros Hs. apply post_exec. unfold startBGM. do 2 post_step.
  destruct (isMutedState s); [post_step; exact Hs|].
  do 4 post_step.
  (* the state in which the new oscillator is made *)
  assert (Hstart : forall s', noTimer s' ->
    post
      (ensureAudioContext throws;;
       oscillator ← host throws createOscillator;
       modify (set_bgmOscillator (Some oscillator));;
       gain ← host throws createGain;
       modify (set_bgmGain (Some gain));;
       host throws set_gain_value;;
       host throws oscillator_connect;;
       host throws gain_connect;;
       host throws set_oscillator_type;;
       host throws (set_frequency_value 262);;
       host throws oscillator_start;;
       s1 ← get;
       let id := count s1 in
       safe (window_setInterval id);;
       modify (fun s => set_timers (<[id := O]> (timers s)) s);;
       modify (set_bgmInterval (Some id))) s'
      (fun r s'' => match r with
                    | Some a => oneTimer s''
                    | None => post (safe (console_warn "Failed to start BGM:")) s''
                                (fun _ s''' => oneTimer s''')
                    end)).
  { intros s' [Hi Ht]. post_step.
    apply (post_weaken _ _ (fun _ s'' => noTimer s'')).
    2:{ apply post_preserves; [|split; assumption].
        apply ensureAudioContext_preserves; intros ? ? H'; exact H'. }
    intros [ctx|] s1 [Hi1 Ht1]; [|apply noTimer_oneTimer; split; assumption].
    repeat (post_step; try (apply noTimer_oneTimer; split; assumption)).
    unfold oneTimer. audio_fields. split; [|eexists; reflexivity].
    eexists. rewrite Ht1. apply insert_empty. }
  destruct (bgmOscillator s) as [osc|] eqn:Hosc.
  - apply (post_weaken _ _ (fun r s' => r = Some tt /\ noTimer s')).
    + intros r s' [-> Hs']. apply Hstart, Hs'.
    + split.
      * destruct (stopBGM_returns throws s) as [[] H]. exact H.
      * apply stopBGM_noTimer, Hs.
  - post_step. apply Hstart. unfold oneTimer in Hs.
    destruct (bgmInterval s) as [id|] eqn:Hid.
    + destruct Hs as [_ [o Ho]]. congruence.
    + split; [exact Hid | exact Hs].
Qed.

Lemma toggleMute_oneTimer throws s : oneTimer s -> oneTimer (exec (toggleMute throws) s).
Proof.
  intros Hs. unfold exec. rewrite toggleMute_run. cbn [snd]. cbv zeta.
  destruct (_ && _); [|exact Hs].
  apply noTimer_oneTimer, stopBGM_noTimer. exact Hs.
Qed.

Lemma tick_oneTimer throws id s : oneTimer s -> oneTimer (tick throws id s).
Proof.
  intros Hs. unfold tick.
  destruct (timers s !! id) as [i|] eqn:Hi; [|exact Hs].
  destruct (_ && _); [|exact Hs].
  apply (preserves_host throws oneTimer); [intros ? ? H'; exact H'|].
  unfold oneTimer in *. audio_fields.
  destruct (bgmInterval s) as [id0|].
  - destruct Hs as [[i0 Ht] Hosc]. split; [|exact Hosc].
    rewrite Ht in Hi. apply lookup_singleton_Some in Hi. destruct Hi as [-> _].
    eexists. rewrite Ht. apply insert_singleton_eq.
  - rewrite Hs in Hi. rewrite lookup_empty in Hi. discriminate.
Qed.

Lemma handle_oneTimer throws e s : oneTimer s -> oneTimer (handle throws e s).
Proof.
  intros Hs.
  assert (Hplay : forall key, oneTimer (exec (playCachedSound throws key) s)).
  { intros key. apply playCachedSound_preserves; [..|exact Hs];
      intros ? ? H'; exact H'. }
  destruct e; cbn [handle].
  - apply toggleMute_oneTimer, Hs.
  - apply Hplay.
  - apply Hplay.
  - apply Hplay.
  - apply Hplay.
  - apply Hplay.
  - apply startBGM_oneTimer, Hs.
  - apply noTimer_oneTimer, stopBGM_noTimer, Hs.
  - apply tick_oneTimer, Hs.
  - exact Hs.
Qed.

(** What holds when the module is loaded and is kept by every event holds
    in every state of the module that can be reached. *)
Lemma audio_reachable_invariant throws (P : State -> Prop) :
  (forall localStorage, P (loaded localStorage)) ->
  (forall e s, P s -> P (handle throws e s)) ->
  forall s, reachable throws s -> P s.
Proof.
  intros Hload Hstep s (localStorage & events & ->). unfold run.
  specialize (Hload localStorage). revert Hload.
  generalize (loaded localStorage).
  induction events as [|e events IH]; intros s Hs; cbn [fold_left].
  - exact Hs.
  - apply IH, Hstep, Hs.
Qed.

Lemma reachable_oneTimer throws s : reachable throws s -> oneTimer s.
Proof.
  apply audio_reachable_invariant.
  - intros localStorage. reflexivity.
  - apply handle_oneTimer.
Qed.

Lemma loaded_reachable throws localStorage : reachable throws (loaded localStorage).
Proof. exists localStorage, []. reflexivity. Qed.

(** X27.  The audio module never leaks an interval timer: in every state
    that can be reached, whatever fails, at most one timer is active, it is
    the one whose id the module holds in [bgmInterval], and while it is
    active there is an oscillator whose frequency it changes.  With no id
    held no timer is active. *)
Theorem at_most_one_timer throws (s : State) :
  reachable throws s ->
  match bgmInterval s with
  | Some id =>
      (exists currentIndex : nat, timers s = {[ id := currentIndex ]}) /\
      is_Some (bgmOscillator s)
  | None => timers s = ∅
  end.
Proof. intros Hs. exact (reachable_oneTimer throws s Hs). Qed.

Lemma musicPlaying_reachable : reachable (fun _ => false) musicPlaying.
Proof. exists ∅, [Call_startBGM]. reflexivity. Qed.

Lemma at_most_one_timer_sample :
  match bgmInterval musicPlaying with
  | Some id =>
      (exists currentIndex : nat, timers musicPlaying = {[ id := currentIndex ]}) /\
      is_Some (bgmOscillator musicPlaying)
  | None => timers musicPlaying = ∅
  end.
Proof.
  apply (at_most_one_timer (fun _ => false) musicPlaying).
  apply musicPlaying_reachable.
Defined.

(** *** The mute flag *)

Lemma inSync_frame s s' :
  isMutedState s' = isMutedState s -> storage s' = storage s -> inSync s -> inSync s'.
Proof. unfold inSync. intros -> ->. auto. Qed.

Lemma toggleMute_inSync throws s : inSync (exec (toggleMute throws) s).
Proof.
  unfold exec. rewrite toggleMute_run. cbn [snd]. cbv zeta.
  assert (H1 : inSync (set_storage (saveMuteState (negb (isMutedState s)) (storage s))
                         (set_isMutedState (negb (isMutedState s)) s))).
  { unfold inSync. audio_fields. symmetry. apply getMuteState_saveMuteState. }
  destruct (_ && _); [|exact H1].
  apply stopBGM_preserves; [..|exact H1]; intros ? ? H'; exact H'.
Qed.

Lemma handle_inSync throws e s : inSync s -> inSync (handle throws e s).
Proof.
  intros Hs.
  assert (Hplay : forall key, inSync (exec (playCachedSound throws key) s)).
  { intros key. apply playCachedSound_preserves; [..|exact Hs];
      intros ? ? H'; exact H'. }
  destruct e; cbn [handle].
  - apply toggleMute_inSync.
  - apply Hplay.
  - apply Hplay.
  - apply Hplay.
  - apply Hplay.
  - apply Hplay.
  - apply startBGM_preserves; [..|exact Hs]; intros ? ? H'; exact H'.
  - apply stopBGM_preserves; [..|exact Hs]; intros ? ? H'; exact H'.
  - apply tick_preserves; [..|exact Hs]; intros ? ? H'; exact H'.
  - unfold inSync in *. audio_fields. rewrite Hs. unfold getMuteState.
    rewrite lookup_insert_ne by discriminate. reflexivity.
Qed.

Lemma reachable_inSync throws s : reachable throws s -> inSync s.
Proof.
  apply audio_reachable_invariant.
  - intros localStorage. reflexivity.
  - apply handle_inSync.
Qed.

Lemma handle_isMutedState throws e s :
  isMutedState (handle throws e s)
  = match e with
    | Call_toggleMute => negb (isMutedState s)
    | _ => isMutedState s
    end.
Proof.
  assert (Hplay : forall key,
    isMutedState (exec (playCachedSound throws key) s) = isMutedState s).
  { intros key.
    apply (playCachedSound_preserves throws (fun s' => isMutedState s' = isMutedState s));
      [..|reflexivity]; intros ? ? H'; exact H'. }
  destruct e; cbn [handle]; try apply Hplay.
  - unfold exec. rewrite toggleMute_run. cbn [snd]. cbv zeta.
    destruct (_ && _); [|reflexivity].
    apply (stopBGM_preserves throws (fun s' => isMutedState s' = negb (isMutedState s)));
      [..|reflexivity]; intros ? ? H'; exact H'.
  - apply (startBGM_preserves throws (fun s' => isMutedState s' = isMutedState s));
      [..|reflexivity]; intros ? ? H'; exact H'.
  - apply (stopBGM_preserves throws (fun s' => isMutedState s' = isMutedState s));
      [..|reflexivity]; intros ? ? H'; exact H'.
  - apply (tick_preserves throws (fun s' => isMutedState s' = isMutedState s));
      [..|reflexivity]; intros ? ? H'; exact H'.
  - reflexivity.
Qed.

(** X28.  The mute flag of the audio module and the one in the storage never
    disagree: in every state that can be reached the flag is what
    [getMuteState] reads from the storage, so loading the module again
    restores it.  Only [toggleMute] changes the flag; the functions that
    play sounds, start or stop the music, the timer and the saving of high
    scores leave it as it is. *)
Theorem mute_flag_in_sync throws (s : State) :
  reachable throws s ->
  isMutedState s = getMuteState (storage s) /\
  isMutedState (loaded (storage s)) = isMutedState s /\
  (forall e : Event,
     isMutedState (handle throws e s)
     = match e with
       | Call_toggleMute => negb (isMutedState s)
       | _ => isMutedState s
       end).
Proof.
  intros Hs. pose proof (reachable_inSync throws s Hs) as Hsync.
  split; [exact Hsync|]. split; [symmetry; exact Hsync|].
  intros e. apply handle_isMutedState.
Qed.

Lemma mute_flag_in_sync_sample :
  isMutedState musicPlaying = getMuteState (storage musicPlaying) /\
  isMutedState (loaded (storage musicPlaying)) = isMutedState musicPlaying /\
  (forall e : Event,
     isMutedState (handle (fun _ => false) e musicPlaying)
     = match e with
       | Call_toggleMute => negb (isMutedState musicPlaying)
       | _ => isMutedState musicPlaying
       end).
Proof.
  apply (mute_flag_in_sync (fun _ => false) musicPlaying).
  apply musicPlaying_reachable.
Defined.

(** *** Muting *)

Lemma muted_startBGM throws s : isMutedState s = true -> exec (startBGM throws) s = s.
Proof.
  intros Hm. unfold startBGM. cbv [exec mbind M_bind get]. rewrite Hm. reflexivity.
Qed.

Lemma muted_playCachedSound throws key s :
  isMutedState s = true -> exec (playCachedSound throws key) s = s.
Proof.
  intros Hm. unfold playCachedSound. cbv [exec mbind M_bind get]. rewrite Hm.
  reflexivity.
Qed.

Lemma muted_tick throws id s : isMutedState s = true -> tick throws id s = s.
Proof.
  intros Hm. unfold tick. destruct (timers s !! id); [|reflexivity].
  rewrite Hm, andb_false_r. reflexivity.
Qed.

Lemma stopBGM_no_failure throws s :
  (forall n, throws n = false) -> bgmOscillator (exec (stopBGM throws) s) = None.
Proof.
  intros Hquiet.
  assert (Hno : forall n, throws n = true -> False)
    by (intros n H; rewrite Hquiet in H; discriminate).
  assert (Hgain : forall s', bgmOscillator s' = None ->
    post
      (s1 ← get;
       match bgmGain s1 with
       | Some _ => host throws gain_disconnect;; modify (set_bgmGain None)
       | None => mret tt
       end) s'
      (fun r s'' => match r with
                    | Some _ => bgmOscillator s'' = None
                    | None => post (safe (console_warn "Failed to stop BGM:")) s''
                                (fun _ s''' => bgmOscillator s''' = None)
                    end)).
  { intros s' H.
    apply (post_weaken _ _ (fun _ s'' => bgmOscillator s'' = None)).
    - intros [a|] s'' H'; exact H'.
    - assert (Hrec : forall op s, bgmOscillator s = None -> bgmOscillator (record op s) = None)
        by (intros ? ? H'; exact H').
      assert (Hg : forall v s, bgmOscillator s = None
                               -> bgmOscillator (set_bgmGain v s) = None)
        by (intros ? ? H'; exact H').
      apply post_preserves; [|exact H]. repeat preserves_step. }
  assert (Hnodes : forall s',
    post
      (s0 ← get;
       match bgmOscillator s0 with
       | Some _ =>
           host throws oscillator_stop;;
           host throws oscillator_disconnect;;
           modify (set_bgmOscillator None)
       | None => mret tt
       end;;
       s1 ← get;
       match bgmGain s1 with
       | Some _ => host throws gain_disconnect;; modify (set_bgmGain None)
       | None => mret tt
       end) s'
      (fun r s'' => match r with
                    | Some _ => bgmOscillator s'' = None
                    | None => post (safe (console_warn "Failed to stop BGM:")) s''
                                (fun _ s''' => bgmOscillator s''' = None)
                    end)).
  { intros s'. do 3 post_step.
    destruct (bgmOscillator s') as [osc|] eqn:Hosc.
    - post_step. post_step; [exfalso; eauto|].
      post_step. post_step; [exfalso; eauto|].
      post_step. apply Hgain. reflexivity.
    - post_step. apply Hgain. exact Hosc. }
  apply post_exec. unfold stopBGM. do 4 post_step.
  destruct (bgmInterval s) as [id|].
  - do 5 post_step. apply Hnodes.
  - post_step. apply Hnodes.
Qed.

(** X29.  Muting stops the music and unmuting does not bring it back.  In a
    state that can be reached, [toggleMute] on an unmuted module sets the
    flag, cancels the interval timer and, if no operation of the host
    fails, leaves no oscillator; from then on [startBGM], the functions
    that play a sound and the timer callback do nothing at all.
    [toggleMute] on a muted module clears the flag, saves it, and does
    nothing else: no oscillator is made and no timer is set, so the music
    stays off until the game calls [startBGM] again. *)
Theorem muting_stops_the_music throws (s : State) :
  reachable throws s ->
  let s' := exec (toggleMute throws) s in
  (isMutedState s = false ->
   isMutedState s' = true /\
   bgmInterval s' = None /\
   timers s' = ∅ /\
   ((forall n, throws n = false) -> bgmOscillator s' = None) /\
   exec (startBGM throws) s' = s' /\
   (forall key, exec (playCachedSound throws key) s' = s') /\
   (forall id, tick throws id s' = s')) /\
  (isMutedState s = true ->
   s' = set_storage (saveMuteState false (storage s)) (set_isMutedState false s)).
Proof.
  intros Hreach s'. pose proof (reachable_oneTimer throws s Hreach) as Hone.
  subst s'. unfold exec. rewrite toggleMute_run. cbn [snd]. cbv zeta. split.
  - intros Hm. rewrite Hm. cbn [negb andb].
    set (s1 := set_storage _ _).
    assert (Hone1 : oneTimer s1) by exact Hone.
    assert (Hmuted : isMutedState
              (if bool_decide (is_Some (bgmOscillator s))
               then exec (stopBGM throws) s1 else s1) = true).
    { destruct (bool_decide _); [|reflexivity].
      apply (stopBGM_preserves throws (fun s' => isMutedState s' = true));
        [..|reflexivity]; intros ? ? H'; exact H'. }
    assert (Hnone : noTimer
              (if bool_decide (is_Some (bgmOscillator s))
               then exec (stopBGM throws) s1 else s1)).
    { destruct (bool_decide (is_Some (bgmOscillator s))) eqn:Hosc.
      - apply stopBGM_noTimer, Hone1.
      - apply bool_decide_eq_false in Hosc. unfold oneTimer in Hone.
        unfold noTimer. subst s1. audio_fields.
        destruct (bgmInterval s); [destruct Hone as [_ H]; contradiction|].
        split; [reflexivity | exact Hone]. }
    destruct Hnone as [Hi Ht].
    split; [exact Hmuted|]. split; [exact Hi|]. split; [exact Ht|].
    split.
    { intros Hquiet. destruct (bool_decide (is_Some (bgmOscillator s))) eqn:Hosc.
      - apply stopBGM_no_failure, Hquiet.
      - apply bool_decide_eq_false in Hosc. subst s1. audio_fields.
        destruct (bgmOscillator s); [exfalso; apply Hosc; eexists; reflexivity|].
        reflexivity. }
    split; [apply muted_startBGM, Hmuted|].
    split; [intros key; apply muted_playCachedSound, Hmuted|].
    intros id. apply muted_tick, Hmuted.
  - intros Hm. rewrite Hm. reflexivity.
Qed.

Lemma muting_stops_the_music_sample :
  (isMutedState musicPlaying = false ->
   isMutedState (exec (toggleMute (fun _ => false)) musicPlaying) = true /\
   bgmInterval (exec (toggleMute (fun _ => false)) musicPlaying) = None /\
   timers (exec (toggleMute (fun _ => false)) musicPlaying) = ∅ /\
   ((forall n : nat, (fun _ : nat => false) n = false) ->
    bgmOscillator (exec (toggleMute (fun _ => false)) musicPlaying) = None) /\
   exec (startBGM (fun _ => false)) (exec (toggleMute (fun _ => false)) musicPlaying)
   = exec (toggleMute (fun _ => false)) musicPlaying /\
   (forall key,
      exec (playCachedSound (fun _ => false) key)
           (exec (toggleMute (fun _ => false)) musicPlaying)
      = exec (toggleMute (fun _ => false)) musicPlaying) /\
   (forall id,
      tick (fun _ => false) id (exec (toggleMute (fun _ => false)) musicPlaying)
      = exec (toggleMute (fun _ => false)) musicPlaying)) /\
  (isMutedState musicPlaying = true ->
   exec (toggleMute (fun _ => false)) musicPlaying
   = set_storage (saveMuteState false (storage musicPlaying))
       (set_isMutedState false musicPlaying)).
Proof.
  apply (muting_stops_the_music (fun _ => false) musicPlaying).
  apply musicPlaying_reachable.
Defined.

(** *** The cache of sounds *)

Lemma playCachedSound_cached throws key s cache :
  cachedSounds s = Some cache ->
  cachedSounds (exec (playCachedSound throws key) s) = Some cache.
Proof.
  intros Hc. apply post_exec. unfold playCachedSound. do 2 post_step.
  destruct (isMutedState s); [post_step; exact Hc|].
  do 4 post_step. rewrite Hc. do 3 post_step. rewrite Hc. cbn [mbind option_bind].
  assert (Hrec : forall op s, cachedSounds s = Some cache
                              -> cachedSounds (record op s) = Some cache)
    by (intros ? ? H'; exact H').
  assert (Hctx : forall v s, cachedSounds s = Some cache
                             -> cachedSounds (set_audioContext v s) = Some cache)
    by (intros ? ? H'; exact H').
  destruct (cache !! key) as [buffer|].
  - apply (post_weaken _ _ (fun _ s'' => cachedSounds s'' = Some cache)).
    + intros [a|] s'' H'; exact H'.
    + apply post_preserves; [|exact Hc].
      repeat first [ apply ensureAudioContext_preserves; assumption | preserves_step ].
  - post_step. exact Hc.
Qed.

Lemma handle_cached throws e s cache :
  cachedSounds s = Some cache -> cachedSounds (handle throws e s) = Some cache.
Proof.
  intros Hc. destruct e; cbn [handle].
  - apply (toggleMute_preserves throws (fun s' => cachedSounds s' = Some cache));
      [..|exact Hc]; intros ? ? H'; exact H'.
  - exact (playCachedSound_cached throws "shoot" s cache Hc).
  - exact (playCachedSound_cached throws "hit" s cache Hc).
  - exact (playCachedSound_cached throws "damage" s cache Hc).
  - exact (playCachedSound_cached throws "gameOver" s cache Hc).
  - exact (playCachedSound_cached throws "gameClear" s cache Hc).
  - apply (startBGM_preserves throws (fun s' => cachedSounds s' = Some cache));
      [..|exact Hc]; intros ? ? H'; exact H'.
  - apply (stopBGM_preserves throws (fun s' => cachedSounds s' = Some cache));
      [..|exact Hc]; intros ? ? H'; exact H'.
  - apply (tick_preserves throws (fun s' => cachedSounds s' = Some cache));
      [..|exact Hc]; intros ? ? H'; exact H'.
  - exact Hc.
Qed.

(** X30.  The cache of sounds is filled once, by the first call that plays
    a sound, and never again: once [cachedSounds] holds a map, no function
    of the module changes it.  A sound that is not in the map is never
    played: the call only writes a warning.  This makes a failure at the
    first call permanent: if creating the [AudioContext] throws then, the
    cache is left as the empty map, so no sound effect is played for the
    rest of the session, whether or not the host would create the context
    later. *)
Theorem sound_cache_is_filled_once throws (s : State) (key : string)
    (cache : gmap string nat) :
  (cachedSounds s = Some cache ->
   forall events : list Event, cachedSounds (run throws events s) = Some cache) /\
  (cachedSounds s = Some cache -> cache !! key = None -> isMutedState s = false ->
   exec (playCachedSound throws key) s
   = record (console_warn "Sound not found in cache") s) /\
  (cachedSounds s = None -> audioContext s = None -> isMutedState s = false ->
   throws (count s) = true ->
   cachedSounds (exec (playCachedSound throws key) s) = Some ∅ /\
   forall (events : list Event) (key' : string),
     let s' := run throws events (exec (playCachedSound throws key) s) in
     isMutedState s' = false ->
     exec (playCachedSound throws key') s'
     = record (console_warn "Sound not found in cache") s').
Proof.
  assert (Hkeep : forall events s0 cache0, cachedSounds s0 = Some cache0 ->
                    cachedSounds (run throws events s0) = Some cache0).
  { induction events as [|e events IH]; intros s0 cache0 H0; [exact H0|].
    cbn [run fold_left]. apply IH, handle_cached, H0. }
  assert (Hmiss : forall s0 cache0 key0,
    cachedSounds s0 = Some cache0 -> cache0 !! key0 = None -> isMutedState s0 = false ->
    exec (playCachedSound throws key0) s0
    = record (console_warn "Sound not found in cache") s0).
  { intros s0 cache0 key0 Hc Hk Hm. unfold playCachedSound.
    cbv [exec mbind M_bind get try_catch mret M_ret safe]. rewrite Hm, Hc.
    cbv beta iota. rewrite Hc. cbn [option_bind]. rewrite Hk. reflexivity. }
  split; [intros Hc events; apply Hkeep, Hc|].
  split; [apply Hmiss|].
  intros Hc Hctx Hm Hthrow.
  assert (Hpoison : cachedSounds (exec (playCachedSound throws key) s) = Some ∅).
  { unfold playCachedSound, initSoundCache, ensureAudioContext.
    cbv [exec mbind M_bind get try_catch mret M_ret safe modify host].
    repeat (first [rewrite Hm | rewrite Hc | rewrite Hctx | rewrite Hthrow];
            cbv beta iota; audio_fields).
    reflexivity. }
  split; [exact Hpoison|].
  intros events key' s' Hm'. subst s'.
  apply (Hmiss _ ∅ key'); [apply Hkeep, Hpoison | apply lookup_empty | exact Hm'].
Qed.
